(** * maplab-server-node: the submap pipeline and the map lookup

    A shallow embedding of
    [applications/maplab-server-node/src/maplab-server-node.cc]:
    the submap processing queue with its per-submap mutex and flags, the
    worker job of [loadAndProcessSubmap], the merging thread and the status
    thread launched by [start], and the read-only [mapLookup].

    Threads are interleaved at the granularity of the events below; an event
    is a piece of code during which no other thread can observe an
    intermediate state of the data it touches (it holds the mutex that guards
    them throughout). *)

From Stdlib Require Import ZArith NArith Lia Ascii DecimalString DecimalN.
From stdpp Require Import base option list strings gmap fin_maps.

Local Open Scope string_scope.
Local Open Scope list_scope.

(** ** Results of code that may abort

    glog's [CHECK] and [LOG(FATAL)] terminate the process; an event whose
    guarding mutex is held by another thread cannot run. *)

Inductive Outcome (A : Type) : Type :=
  | Ret (a : A)
  | Fatal
  | Blocked.
Arguments Ret {A} a.
Arguments Fatal {A}.
Arguments Blocked {A}.

#[global] Instance Outcome_bind : MBind Outcome := λ A B k m,
  match m with
  | Ret a => k a
  | Fatal => Fatal
  | Blocked => Blocked
  end.

(** [CHECK(b)]. *)
Definition CHECK (b : bool) : Outcome unit := if b then Ret tt else Fatal.

(** A lookup that the map library guards with a [CHECK]. *)
Definition getChecked {A} (o : option A) : Outcome A :=
  match o with
  | Some a => Ret a
  | None => Fatal
  end.

(** Whether the code returned. *)
Definition returns {A} (o : Outcome A) : bool :=
  match o with
  | Ret _ => true
  | _ => false
  end.

(** ** The derived map key *)

(** [std::to_string] on a [size_t]: the decimal digits, most significant
    first, ["0"] for zero. *)
Definition to_string (n : N) : string :=
  NilEmpty.string_of_uint (N.to_uint n).

(** [robot_name + "_" + std::to_string(map_hash)]. *)
Definition derive_map_key (robot_name : string) (map_hash : N) : string :=
  robot_name +:+ "_" +:+ to_string map_hash.

Definition is_digit (c : ascii) : bool :=
  let n := N_of_ascii c in ((48 <=? n) && (n <=? 57))%N.

Fixpoint all_digits (s : string) : bool :=
  match s with
  | EmptyString => true
  | String c r => is_digit c && all_digits r
  end.

Fixpoint last_char (s : string) : option ascii :=
  match s with
  | EmptyString => None
  | String c EmptyString => Some c
  | String _ r => last_char r
  end.

Definition ends_with_digit (s : string) : bool :=
  match last_char s with
  | Some c => is_digit c
  | None => false
  end.

Definition string_empty (s : string) : bool :=
  match s with
  | EmptyString => true
  | String _ _ => false
  end.

(** ** The map library's data, as far as the node looks at it

    The map, its missions, base frames and sensors belong to the map
    library; the node's source file only calls their accessors. They are
    given the least structure those calls need. *)

(** Hash ids ([vi_map::MissionId], [aslam::SensorId],
    [vi_map::MissionBaseFrameId]); the all-zero id is the invalid one. *)
Abbreviation MissionId := N (only parsing).
Abbreviation SensorId := N (only parsing).
Abbreviation MissionBaseFrameId := N (only parsing).
Definition isValid (id : N) : bool := negb (id =? 0)%N.

(** [vi_map::SensorType], the four kinds [mapLookup] resolves and the rest. *)
Inductive SensorType : Type :=
  | kNCamera
  | kImu
  | kLidar
  | kOdometry6DoF
  | kOtherSensorType.

(** [aslam::Transformation] and [Eigen::Vector3d]. *)
Class PoseTypes : Type := {
  Transformation : Type;
  Vector3d : Type;
}.

(** The operations [mapLookup] uses on them: [T1 * T2], [T * p] and
    [Vector3d::Zero()]. *)
Class Geometry `{PoseTypes} : Type := {
  compose : Transformation → Transformation → Transformation;
  transform : Transformation → Vector3d → Vector3d;
  Vector3d_Zero : Vector3d;
}.

Section MapData.
Context `{PoseTypes}.

Record VIMission : Type := {
  ncamera_id : option SensorId;
  imu_id : option SensorId;
  lidar_id : option SensorId;
  odometry_6dof_id : option SensorId;
  base_frame_id : MissionBaseFrameId;
}.

Record MissionBaseFrame : Type := {
  is_T_G_M_known : bool;
  T_G_M : Transformation;
}.

Record VIMap : Type := {
  missions : list (MissionId * VIMission);
  mission_base_frames : list (MissionBaseFrameId * MissionBaseFrame);
  sensor_T_B_S : list (SensorId * Transformation);
}.

Fixpoint assoc {A} (k : N) (l : list (N * A)) : option A :=
  match l with
  | [] => None
  | (k', a) :: r => if (k =? k')%N then Some a else assoc k r
  end.

Fixpoint assoc_set {A} (k : N) (f : A → A) (l : list (N * A)) : list (N * A) :=
  match l with
  | [] => []
  | (k', a) :: r =>
      if (k =? k')%N then (k', f a) :: r else (k', a) :: assoc_set k f r
  end.

(** Modelled from the spec: the accessors of a map of the map store
    (section 6), whose code is not part of the node's source file; a lookup
    of something the map does not have fails a [CHECK] of the library. *)
Definition numMissions (m : VIMap) : nat := length (missions m).

Definition getIdOfFirstMission (m : VIMap) : MissionId :=
  match missions m with
  | [] => 0%N
  | (id, _) :: _ => id
  end.

Definition getMission (m : VIMap) (id : MissionId) : Outcome VIMission :=
  getChecked (assoc id (missions m)).

Definition getMissionBaseFrame (m : VIMap) (id : MissionBaseFrameId)
  : Outcome MissionBaseFrame :=
  getChecked (assoc id (mission_base_frames m)).

Definition getMissionBaseFrameForMission (m : VIMap) (id : MissionId)
  : Outcome MissionBaseFrame :=
  mission ← getMission m id;
  getMissionBaseFrame m (base_frame_id mission).

Definition getSensor_T_B_S (m : VIMap) (id : SensorId)
  : Outcome Transformation :=
  getChecked (assoc id (sensor_T_B_S m)).

Definition set_is_T_G_M_known (b : bool) (f : MissionBaseFrame)
  : MissionBaseFrame :=
  {| is_T_G_M_known := b; T_G_M := T_G_M f |}.

(** [map->getMissionBaseFrame(id).set_is_T_G_M_known(b)]. *)
Definition mark_T_G_M_known (m : VIMap) (id : MissionBaseFrameId) (b : bool)
  : Outcome VIMap :=
  _ ← getMissionBaseFrame m id;
  Ret {| missions := missions m;
         mission_base_frames :=
           assoc_set id (set_is_T_G_M_known b) (mission_base_frames m);
         sensor_T_B_S := sensor_T_B_S m |}.

End MapData.

(** ** External collaborators

    The hash of the C++ standard library, the node's configuration and
    constants, and what the map store, the console and the pose interpolator
    return; the node only orchestrates calls into them. *)
Class MapEngine `{PoseTypes} : Type := {
  (** [std::hash<std::string>{}]; the result is a [size_t], whose width
      plays no role here *)
  std_hash : string → N;
  (** the key of the merged map *)
  kMergedMapKey : string;
  (** [config_.submap_commands] and [config_.global_map_commands] *)
  submap_commands : list string;
  global_map_commands : list string;
  (** the map [loadMapFromFolder] finds at a path, if any *)
  map_on_disk : string → option VIMap;
  (** the base map after [mergeSubmapIntoBaseMap], if merging succeeds *)
  merge_maps : VIMap → VIMap → option VIMap;
  (** [console.RunCommand] on the selected map: success, and the map after *)
  run_command : string → VIMap → bool * VIMap;
  (** [PoseInterpolator::getVertexToTimeStampMap]: minimum and maximum
      timestamp of a mission *)
  min_max_timestamp_ns : VIMap → MissionId → Z * Z;
  (** [PoseInterpolator::getPosesAtTime] *)
  getPosesAtTime : VIMap → MissionId → list Z → list Transformation;
}.

Section Node.
Context `{PoseTypes} `{!Geometry} `{!MapEngine}.

(** ** The map manager *)

Local Abbreviation MapStore := (gmap string VIMap).

(** Modelled from the spec: [hasMap(key)] of the map store (section 6). *)
Definition hasMap (store : MapStore) (key : string) : bool :=
  match store !! key with
  | Some _ => true
  | None => false
  end.

Definition getAllMapKeys (store : MapStore) : list string :=
  fst <$> map_to_list store.

(** Modelled from the spec: [getReadAccess(key)] and [getWriteAccess(key)]
    of the map store; there is no access to a map the store does not
    have. *)
Definition getMapAccess (store : MapStore) (key : string) : Outcome VIMap :=
  getChecked (store !! key).

(** Modelled from the spec: [renameMap(oldKey, newKey)] of the map store
    (section 6), whose code is not part of the node's source file. *)
Definition renameMap (old_key new_key : string) (store : MapStore)
  : Outcome MapStore :=
  m ← getChecked (store !! old_key);
  Ret (<[new_key := m]> (delete old_key store)).

(** Modelled from the spec: [deleteMap(key)] of the map store. *)
Definition deleteMap (key : string) (store : MapStore) : MapStore :=
  delete key store.

(** Modelled from the spec: [loadMapFromFolder(path, key)] of the map store;
    [None] when it returns false. *)
Definition loadMapFromFolder (path key : string) (store : MapStore)
  : option MapStore :=
  m ← map_on_disk path;
  Some (<[key := m]> store).

(** Modelled from the spec: [mergeSubmapIntoBaseMap(baseKey, submapKey)] of the
    map store; [None] when it returns false. *)
Definition mergeSubmapIntoBaseMap (base_key submap_key : string)
    (store : MapStore) : option MapStore :=
  base ← store !! base_key;
  submap ← store !! submap_key;
  merged ← merge_maps base submap;
  Some (<[base_key := merged]> store).

(** Modelled from the spec: the command engine (section 6). A console with
    [key] selected runs [command] on the selected map; without such a map
    the command fails. *)
Definition RunCommand (key command : string) (store : MapStore)
  : bool * MapStore :=
  match store !! key with
  | Some m => let r := run_command command m in (r.1, <[key := r.2]> store)
  | None => (false, store)
  end.

(** ** A submap in the processing queue *)

(** Where the job enqueued for a submap stands. *)
Inductive JobPc : Type :=
  | JQueued                                 (* not running, or waiting for the mutex *)
  | JLoading                                (* holds the mutex, about to load *)
  | JLoaded                                 (* the map is loaded, [is_loaded] not yet set *)
  | JProcessing (rest : list string)        (* at the head of the command loop *)
  | JShutdownCheck (rest : list string)     (* a command ran, about to test the flag *)
  | JProcessed                              (* [is_processed] set, about to return *)
  | JReturned                               (* returned after the loop *)
  | JCancelled (skipped : list string).     (* returned from inside the loop *)

Record SubmapProcess : Type := {
  path : string;
  robot_name : string;
  map_hash : N;
  map_key : string;
  is_loaded : bool;
  is_processed : bool;
  is_merged : bool;
  (** [mutex]: true when locked *)
  mutex : bool;
  (** the job whose closure holds the reference to this struct *)
  job : JobPc;
  (** how many submaps were accepted before this one *)
  arrival : nat;
}.

Definition set_job (t : SubmapProcess) (locked : bool) (pc : JobPc)
  : SubmapProcess :=
  {| path := path t; robot_name := robot_name t; map_hash := map_hash t;
     map_key := map_key t; is_loaded := is_loaded t;
     is_processed := is_processed t; is_merged := is_merged t;
     mutex := locked; job := pc; arrival := arrival t |}.

Definition set_is_loaded (t : SubmapProcess) : SubmapProcess :=
  {| path := path t; robot_name := robot_name t; map_hash := map_hash t;
     map_key := map_key t; is_loaded := true;
     is_processed := is_processed t; is_merged := is_merged t;
     mutex := mutex t; job := job t; arrival := arrival t |}.

Definition set_is_processed (t : SubmapProcess) : SubmapProcess :=
  {| path := path t; robot_name := robot_name t; map_hash := map_hash t;
     map_key := map_key t; is_loaded := is_loaded t;
     is_processed := true; is_merged := is_merged t;
     mutex := mutex t; job := job t; arrival := arrival t |}.

Definition set_is_merged (t : SubmapProcess) : SubmapProcess :=
  {| path := path t; robot_name := robot_name t; map_hash := map_hash t;
     map_key := map_key t; is_loaded := is_loaded t;
     is_processed := is_processed t; is_merged := true;
     mutex := mutex t; job := job t; arrival := arrival t |}.

(** ** The node *)

(** Where the merging thread stands. *)
Inductive MergerPc : Type :=
  | MLoopTop                            (* at the test of the outer loop *)
  | MDraining                           (* holds the queue mutex, at the test of the inner loop *)
  | MPopFront                           (* holds the queue mutex, about to [pop_front] *)
  | MGlobalMap (rest : list string)     (* running the global map commands *)
  | MExited.

Record ServerState : Type := {
  submap_processing_queue_ : list SubmapProcess;
  map_manager_ : MapStore;
  robot_to_mission_id_map_ : gmap string MissionId;
  submap_commands_ : gmap N string;
  current_merge_command_ : string;
  merging_thread_busy_ : bool;
  shut_down_requested_ : bool;
  (** local variable of the merging thread *)
  received_first_submap : bool;
  submap_merging_thread_ : MergerPc;
  (** how many submaps were accepted so far *)
  num_accepted : nat;
  (** the structs removed by [pop_front], oldest first *)
  popped : list SubmapProcess;
}.

Definition initial_state : ServerState :=
  {| submap_processing_queue_ := [];
     map_manager_ := ∅;
     robot_to_mission_id_map_ := ∅;
     submap_commands_ := ∅;
     current_merge_command_ := "";
     merging_thread_busy_ := false;
     shut_down_requested_ := false;
     received_first_submap := false;
     submap_merging_thread_ := MLoopTop;
     num_accepted := 0;
     popped := [] |}.

Definition with_queue (q : list SubmapProcess) (s : ServerState) : ServerState :=
  {| submap_processing_queue_ := q;
     map_manager_ := map_manager_ s;
     robot_to_mission_id_map_ := robot_to_mission_id_map_ s;
     submap_commands_ := submap_commands_ s;
     current_merge_command_ := current_merge_command_ s;
     merging_thread_busy_ := merging_thread_busy_ s;
     shut_down_requested_ := shut_down_requested_ s;
     received_first_submap := received_first_submap s;
     submap_merging_thread_ := submap_merging_thread_ s;
     num_accepted := num_accepted s;
     popped := popped s |}.

Definition with_store (m : MapStore) (s : ServerState) : ServerState :=
  {| submap_processing_queue_ := submap_processing_queue_ s;
     map_manager_ := m;
     robot_to_mission_id_map_ := robot_to_mission_id_map_ s;
     submap_commands_ := submap_commands_ s;
     current_merge_command_ := current_merge_command_ s;
     merging_thread_busy_ := merging_thread_busy_ s;
     shut_down_requested_ := shut_down_requested_ s;
     received_first_submap := received_first_submap s;
     submap_merging_thread_ := submap_merging_thread_ s;
     num_accepted := num_accepted s;
     popped := popped s |}.

Definition with_submap_commands (c : gmap N string) (s : ServerState)
  : ServerState :=
  {| submap_processing_queue_ := submap_processing_queue_ s;
     map_manager_ := map_manager_ s;
     robot_to_mission_id_map_ := robot_to_mission_id_map_ s;
     submap_commands_ := c;
     current_merge_command_ := current_merge_command_ s;
     merging_thread_busy_ := merging_thread_busy_ s;
     shut_down_requested_ := shut_down_requested_ s;
     received_first_submap := received_first_submap s;
     submap_merging_thread_ := submap_merging_thread_ s;
     num_accepted := num_accepted s;
     popped := popped s |}.

(** The merging thread moves on: its program point, the busy flag and the
    current merge command. *)
Definition with_merger (pc : MergerPc) (busy : bool) (command : string)
    (s : ServerState) : ServerState :=
  {| submap_processing_queue_ := submap_processing_queue_ s;
     map_manager_ := map_manager_ s;
     robot_to_mission_id_map_ := robot_to_mission_id_map_ s;
     submap_commands_ := submap_commands_ s;
     current_merge_command_ := command;
     merging_thread_busy_ := busy;
     shut_down_requested_ := shut_down_requested_ s;
     received_first_submap := received_first_submap s;
     submap_merging_thread_ := pc;
     num_accepted := num_accepted s;
     popped := popped s |}.

Definition queue_mutex_held (s : ServerState) : bool :=
  match submap_merging_thread_ s with
  | MDraining | MPopFront => true
  | _ => false
  end.

(** ** [loadAndProcessSubmap]: the caller's part

    The new struct goes to the back of the queue and its job is handed to the
    thread pool. *)
Definition new_submap_process (robot submap_path : string) (n : nat)
  : SubmapProcess :=
  {| path := submap_path;
     robot_name := robot;
     map_hash := std_hash submap_path;
     map_key := derive_map_key robot (std_hash submap_path);
     is_loaded := false;
     is_processed := false;
     is_merged := false;
     mutex := false;
     job := JQueued;
     arrival := n |}.

Definition loadAndProcessSubmap (robot submap_path : string) (s : ServerState)
  : Outcome (bool * ServerState) :=
  _ ← CHECK (negb (string_empty submap_path));
  _ ← CHECK (negb (string_empty robot));
  if shut_down_requested_ s then Ret (false, s)
  else if queue_mutex_held s then Blocked
  else
    Ret (true,
         {| submap_processing_queue_ :=
              submap_processing_queue_ s
                ++ [new_submap_process robot submap_path (num_accepted s)];
            map_manager_ := map_manager_ s;
            robot_to_mission_id_map_ := robot_to_mission_id_map_ s;
            submap_commands_ := submap_commands_ s;
            current_merge_command_ := current_merge_command_ s;
            merging_thread_busy_ := merging_thread_busy_ s;
            shut_down_requested_ := shut_down_requested_ s;
            received_first_submap := received_first_submap s;
            submap_merging_thread_ := submap_merging_thread_ s;
            num_accepted := S (num_accepted s);
            popped := popped s |}).

(** ** [loadAndProcessSubmap]: the job

    One step of the job of the struct [t]; the struct is changed through the
    reference the closure holds, the map manager and the command table
    through the node. The steps are: taking the mutex and writing "loading"
    to the command table; the test for a map under the key and
    [loadMapFromFolder]; the assignment of [is_loaded], which the map
    manager does not wait for; each command; each test of the shutdown flag;
    the end of the loop with the assignment of [is_processed]; the
    return. *)
Definition job_step (t : SubmapProcess) (s : ServerState)
  : Outcome (SubmapProcess * ServerState) :=
  match job t with
  | JQueued =>
      (* std::lock_guard<std::mutex> submap_process_lock(submap_process.mutex) *)
      if mutex t then Blocked
      else Ret (set_job t true JLoading,
                with_submap_commands
                  (<[map_hash t := "loading"]> (submap_commands_ s)) s)
  | JLoading =>
      if hasMap (map_manager_ s) (map_key t) then Fatal
      else
        store ← getChecked (loadMapFromFolder (path t) (map_key t)
                                              (map_manager_ s));
        Ret (set_job t true JLoaded, with_store store s)
  | JLoaded =>
      (* submap_process.is_loaded = true *)
      Ret (set_job (set_is_loaded t) true (JProcessing submap_commands), s)
  | JProcessing (command :: rest) =>
      let r := RunCommand (map_key t) command (map_manager_ s) in
      Ret (set_job t true (JShutdownCheck rest),
           with_store r.2
             (with_submap_commands
                (<[map_hash t := command]> (submap_commands_ s)) s))
  | JShutdownCheck rest =>
      if shut_down_requested_ s then
        (* return true, from inside the loop *)
        Ret (set_job t false (JCancelled rest),
             with_submap_commands (delete (map_hash t) (submap_commands_ s)) s)
      else Ret (set_job t true (JProcessing rest), s)
  | JProcessing [] =>
      Ret (set_job (set_is_processed t) true JProcessed,
           with_submap_commands (delete (map_hash t) (submap_commands_ s)) s)
  | JProcessed =>
      (* return true *)
      Ret (set_job t false JReturned, s)
  | JReturned | JCancelled _ => Blocked
  end.

(** The job of the struct that arrived as number [a]. *)
Fixpoint run_job (a : nat) (q : list SubmapProcess) (s : ServerState)
  : Outcome (list SubmapProcess * ServerState) :=
  match q with
  | [] => Blocked
  | t :: r =>
      if (arrival t =? a)%nat then
        '(t', s') ← job_step t s; Ret (t' :: r, s')
      else
        '(r', s') ← run_job a r s; Ret (t :: r', s')
  end.

(** ** The merging thread *)

(** The merging thread leaves the inner loop and releases the queue mutex. *)
Definition leave_drain (s : ServerState) : ServerState :=
  if received_first_submap s then
    with_merger (MGlobalMap global_map_commands) true
                (current_merge_command_ s) s
  else with_merger MLoopTop false (current_merge_command_ s) s.

(** The first submap becomes the merged map. *)
Definition initialize_merged_map (key : string) (store : MapStore)
  : Outcome MapStore :=
  store ← renameMap key kMergedMapKey store;
  map ← getMapAccess store kMergedMapKey;
  _ ← CHECK (numMissions map =? 1)%nat;
  let mission_id := getIdOfFirstMission map in
  _ ← CHECK (isValid mission_id);
  mission ← getMission map mission_id;
  let mission_baseframe_id := base_frame_id mission in
  _ ← CHECK (isValid mission_baseframe_id);
  map ← mark_T_G_M_known map mission_baseframe_id true;
  Ret (<[kMergedMapKey := map]> store).

(** A later submap is merged into the merged map and removed. *)
Definition merge_into_merged_map (key : string) (store : MapStore)
  : Outcome MapStore :=
  store ← getChecked (mergeSubmapIntoBaseMap kMergedMapKey key store);
  Ret (deleteMap key store).

(** The body of the inner loop once the front struct is locked, loaded and
    processed, up to and including the unlock. The queue mutex and the
    mutex of the struct are held throughout, so that no other thread sees
    the queue or the struct in between, and the merge is one step. The map
    manager and the shutdown flag are not guarded by these mutexes: what
    the job of another struct does to the map manager during a merge, and a
    shutdown requested during a merge, are ordered before or after the
    step. *)
Definition merge_front (t : SubmapProcess) (rest : list SubmapProcess)
    (s : ServerState) : Outcome ServerState :=
  _ ← CHECK (negb (string_empty (map_key t)));
  _ ← CHECK (hasMap (map_manager_ s) (map_key t));
  submap ← getMapAccess (map_manager_ s) (map_key t);
  _ ← CHECK (numMissions submap =? 1)%nat;
  let submap_mission_id := getIdOfFirstMission submap in
  let first := negb (hasMap (map_manager_ s) kMergedMapKey) in
  store ← (if first then initialize_merged_map (map_key t) (map_manager_ s)
           else merge_into_merged_map (map_key t) (map_manager_ s));
  _ ← CHECK (hasMap store kMergedMapKey);
  _ ← CHECK (negb (hasMap store (map_key t)));
  _ ← CHECK (isValid submap_mission_id);
  Ret {| submap_processing_queue_ := set_job (set_is_merged t) false (job t) :: rest;
         map_manager_ := store;
         robot_to_mission_id_map_ :=
           (if negb (string_empty (robot_name t)) then
              <[robot_name t := submap_mission_id]> (robot_to_mission_id_map_ s)
            else robot_to_mission_id_map_ s);
         submap_commands_ := submap_commands_ s;
         current_merge_command_ := "merging submap";
         merging_thread_busy_ := merging_thread_busy_ s;
         shut_down_requested_ := shut_down_requested_ s;
         received_first_submap := first || received_first_submap s;
         submap_merging_thread_ := MPopFront;
         num_accepted := num_accepted s;
         popped := popped s |}.

(** One pass through the test and the body of the inner loop. The shutdown
    flag is read once, at the test. *)
Definition drain_step (s : ServerState) : Outcome ServerState :=
  match submap_processing_queue_ s with
  | [] => Ret (leave_drain s)
  | t :: rest =>
      if shut_down_requested_ s then Ret (leave_drain s)
      else if mutex t then
        (* try_lock failed *)
        Ret (leave_drain s)
      else if negb (is_loaded t) then Ret (leave_drain s)
      else if negb (is_processed t) then Ret (leave_drain s)
      else merge_front t rest s
  end.

(** [submap_processing_queue_.pop_front()]. *)
Definition pop_front (s : ServerState) : ServerState :=
  match submap_processing_queue_ s with
  | [] => s
  | t :: rest =>
      {| submap_processing_queue_ := rest;
         map_manager_ := map_manager_ s;
         robot_to_mission_id_map_ := robot_to_mission_id_map_ s;
         submap_commands_ := submap_commands_ s;
         current_merge_command_ := current_merge_command_ s;
         merging_thread_busy_ := merging_thread_busy_ s;
         shut_down_requested_ := shut_down_requested_ s;
         received_first_submap := received_first_submap s;
         submap_merging_thread_ := MDraining;
         num_accepted := num_accepted s;
         popped := popped s ++ [t] |}
  end.

(** One step of the merging thread. Saving the backup map, which depends on
    the wall clock and writes to disk only, is left out. *)
Definition merger_step (s : ServerState) : Outcome ServerState :=
  match submap_merging_thread_ s with
  | MLoopTop =>
      if shut_down_requested_ s then
        Ret (with_merger MExited (merging_thread_busy_ s)
                         (current_merge_command_ s) s)
      else if negb (received_first_submap s)
              && bool_decide (getAllMapKeys (map_manager_ s) = []) then
        (* sleep and continue *)
        Ret s
      else Ret (with_merger MDraining true (current_merge_command_ s) s)
  | MDraining => drain_step s
  | MPopFront => Ret (pop_front s)
  | MGlobalMap (command :: rest) =>
      let r := RunCommand kMergedMapKey command (map_manager_ s) in
      Ret (with_store r.2 (with_merger (MGlobalMap rest) true command s))
  | MGlobalMap [] => Ret (with_merger MLoopTop false "" s)
  | MExited => Blocked
  end.

(** ** The status thread *)

Inductive StatusLabel : Type :=
  | LabelMerged              (* " merged" *)
  | LabelError               (* " ERROR!", with the error logged *)
  | LabelMerging             (* " merging..." *)
  | LabelReadyToMerge        (* " ready to merge" *)
  | LabelProcessing          (* " processing..." *)
  | LabelQueuedForProcessing (* " queued for processing" *)
  | LabelLoading             (* " loading..." *)
  | LabelQueuedForLoading.   (* " queued for loading" *)

(** [submap_process.mutex.try_lock()] as the status thread uses it: whether
    the mutex was locked by someone else. *)
Definition was_locked_by_other_process (t : SubmapProcess) : bool :=
  if mutex t then true else false.

(** The line of the status report for one struct of the queue. *)
Definition submap_status (t : SubmapProcess) : StatusLabel :=
  let locked := was_locked_by_other_process t in
  if is_merged t && locked then LabelMerged
  else if is_merged t && negb locked then LabelError
  else if is_processed t && locked then LabelMerging
  else if is_processed t && negb locked then LabelReadyToMerge
  else if is_loaded t && locked then LabelProcessing
  else if is_loaded t && negb locked then LabelQueuedForProcessing
  else if negb (is_loaded t) && locked then LabelLoading
  else LabelQueuedForLoading.

(** The queue part of one status report; the thread needs the queue mutex. *)
Definition status_report (s : ServerState)
  : Outcome (list (string * string * StatusLabel)) :=
  if queue_mutex_held s then Blocked
  else Ret ((λ t, (robot_name t, map_key t, submap_status t))
              <$> submap_processing_queue_ s).

(** ** [shutdown], as far as the other threads see it *)
Definition request_shutdown (s : ServerState) : ServerState :=
  {| submap_processing_queue_ := submap_processing_queue_ s;
     map_manager_ := map_manager_ s;
     robot_to_mission_id_map_ := robot_to_mission_id_map_ s;
     submap_commands_ := submap_commands_ s;
     current_merge_command_ := current_merge_command_ s;
     merging_thread_busy_ := merging_thread_busy_ s;
     shut_down_requested_ := true;
     received_first_submap := received_first_submap s;
     submap_merging_thread_ := submap_merging_thread_ s;
     num_accepted := num_accepted s;
     popped := popped s |}.

(** ** Interleavings

    One event is one step of one thread. A job step is one of: taking the
    submap's mutex, loading, running one command, testing the shutdown flag,
    setting [is_processed], returning. A step of the merging thread is one
    test of the outer loop, one pass through the inner loop up to the unlock
    of the front struct, the [pop_front], or one global map command. While
    the merging thread is inside the inner loop it holds the queue mutex, so
    submissions and status reports cannot run; jobs can, since they only
    take the mutex of their own struct. The merging thread and the status
    thread lock and unlock the mutex of a struct within one step, so between
    steps a struct's mutex is held by its job or by nobody. The thread pool
    may start any queued job at any time; its size only removes
    interleavings. *)

Inductive Event : Type :=
  | ESubmit (robot submap_path : string)   (* a caller of [loadAndProcessSubmap] *)
  | EJob (a : nat)                         (* the job of the submap that arrived as number [a] *)
  | EMerger                                (* the merging thread *)
  | EStatus                                (* the status thread *)
  | EShutdown.                             (* a caller of [shutdown] *)

Definition step (e : Event) (s : ServerState) : Outcome ServerState :=
  match e with
  | ESubmit robot submap_path =>
      r ← loadAndProcessSubmap robot submap_path s; Ret r.2
  | EJob a =>
      r ← run_job a (submap_processing_queue_ s) s; Ret (with_queue r.1 r.2)
  | EMerger => merger_step s
  | EStatus => _ ← status_report s; Ret s
  | EShutdown => Ret (request_shutdown s)
  end.

Fixpoint run (events : list Event) (s : ServerState) : Outcome ServerState :=
  match events with
  | [] => Ret s
  | e :: r => s' ← step e s; run r s'
  end.

(** The states of the node: those some interleaving reaches after [start]. *)
Definition reachable (s : ServerState) : Prop :=
  ∃ events, run events initial_state = Ret s.

(** Every struct the node ever had, popped ones first. *)
Definition all_submaps (s : ServerState) : list SubmapProcess :=
  popped s ++ submap_processing_queue_ s.

(** The flags of a struct only go from false to true, and it stays the
    same submap. *)
Definition flags_le (t t' : SubmapProcess) : Prop :=
  arrival t = arrival t' ∧ path t = path t' ∧ robot_name t = robot_name t' ∧
  map_key t = map_key t' ∧
  (is_loaded t = true → is_loaded t' = true) ∧
  (is_processed t = true → is_processed t' = true) ∧
  (is_merged t = true → is_merged t' = true).

(** ** What holds in every state of the node *)

(** The flags and the mutex of a struct follow from where its job stands. *)
Definition job_consistent (t : SubmapProcess) : Prop :=
  match job t with
  | JQueued =>
      mutex t = false ∧ is_loaded t = false ∧ is_processed t = false ∧
      is_merged t = false
  | JLoading | JLoaded =>
      mutex t = true ∧ is_loaded t = false ∧ is_processed t = false ∧
      is_merged t = false
  | JProcessing rest | JShutdownCheck rest =>
      mutex t = true ∧ is_loaded t = true ∧ is_processed t = false ∧
      is_merged t = false ∧ rest `suffix_of` submap_commands
  | JProcessed =>
      mutex t = true ∧ is_loaded t = true ∧ is_processed t = true ∧
      is_merged t = false
  | JReturned =>
      mutex t = false ∧ is_loaded t = true ∧ is_processed t = true
  | JCancelled skipped =>
      mutex t = false ∧ is_loaded t = true ∧ is_processed t = false ∧
      is_merged t = false ∧ skipped `suffix_of` submap_commands
  end.

Definition at_pop_front (s : ServerState) : bool :=
  match submap_merging_thread_ s with
  | MPopFront => true
  | _ => false
  end.

Record node_invariant (s : ServerState) : Prop := {
  inv_jobs : Forall job_consistent (all_submaps s);
  inv_arrival : arrival <$> all_submaps s = seq 0 (num_accepted s);
  inv_keys :
    Forall (λ t, map_key t = derive_map_key (robot_name t) (map_hash t))
           (all_submaps s);
  inv_popped : Forall (λ t, is_merged t = true) (popped s);
  inv_queue :
    ∀ i t, submap_processing_queue_ s !! i = Some t →
           is_merged t = at_pop_front s && bool_decide (i = 0);
  inv_front :
    at_pop_front s = true → submap_processing_queue_ s ≠ [];
}.

(** No struct has been merged yet. *)
Definition nothing_merged (s : ServerState) : Prop :=
  Forall (λ t, is_merged t = false) (all_submaps s).


(** From one state to a later one: the structs stay, in the same order, new
    ones come after them, flags only rise, and a job that has returned stays
    returned. *)
Definition submap_le (t t' : SubmapProcess) : Prop :=
  flags_le t t' ∧
  (∀ skipped, job t = JCancelled skipped → job t' = JCancelled skipped) ∧
  (job t = JReturned → job t' = JReturned).

Definition evolves (s s' : ServerState) : Prop :=
  ∃ old new, all_submaps s' = old ++ new ∧
             Forall2 submap_le (all_submaps s) old.

(** Whether a merge has happened, read off the merging thread and the
    popped structs. *)
Definition some_merged (s : ServerState) : bool :=
  match popped s with
  | [] => at_pop_front s
  | _ :: _ => true
  end.

(** The merged map exists exactly when a merge has happened. *)
Definition merged_map_tracks (s : ServerState) : Prop :=
  some_merged s = false ↔ map_manager_ s !! kMergedMapKey = None.

(** A map with the base frame [id] marked as known. *)
Definition with_T_G_M_known (m : VIMap) (id : MissionBaseFrameId) : VIMap :=
  {| missions := missions m;
     mission_base_frames :=
       assoc_set id (set_is_T_G_M_known true) (mission_base_frames m);
     sensor_T_B_S := sensor_T_B_S m |}.

(** What the merge of the front struct [t], whose map is [submap], does to
    the map manager when there is no merged map yet: the submap's entry is
    gone and the merged map is its map with the base frame of its one
    mission known: the same missions and sensors, the same [T_G_M] in that
    base frame and [is_T_G_M_known] true there, every other base frame as it
    was. *)
Definition first_submap_adopted (s s' : ServerState) (t : SubmapProcess)
    (submap : VIMap) : Prop :=
  ∃ id mission frame merged frame',
    missions submap = [(id, mission)] ∧
    assoc (base_frame_id mission) (mission_base_frames submap) = Some frame ∧
    map_manager_ s' =
      <[kMergedMapKey := merged]> (delete (map_key t) (map_manager_ s)) ∧
    missions merged = missions submap ∧
    sensor_T_B_S merged = sensor_T_B_S submap ∧
    getMissionBaseFrameForMission merged id = Ret frame' ∧
    is_T_G_M_known frame' = true ∧ T_G_M frame' = T_G_M frame ∧
    (∀ other, other ≠ base_frame_id mission →
       assoc other (mission_base_frames merged)
         = assoc other (mission_base_frames submap)) ∧
    received_first_submap s' = true.

(** And when there is a merged map: it is replaced by the result of merging
    the submap into it, and the submap's entry is gone. *)
Definition submap_merged_into_base (s s' : ServerState) (t : SubmapProcess)
    (submap : VIMap) : Prop :=
  ∃ base merged,
    map_manager_ s !! kMergedMapKey = Some base ∧
    merge_maps base submap = Some merged ∧
    map_manager_ s' =
      delete (map_key t) (<[kMergedMapKey := merged]> (map_manager_ s)).

(** The step from [s] to [s'] merged the front struct. *)
Definition front_merged (s s' : ServerState) : Prop :=
  ∃ t rest submap,
    submap_processing_queue_ s = t :: rest ∧
    submap_processing_queue_ s' =
      set_job (set_is_merged t) false (job t) :: rest ∧
    map_manager_ s !! map_key t = Some submap ∧
    map_manager_ s' !! map_key t = None ∧
    ((nothing_merged s ∧ first_submap_adopted s s' t submap)
     ∨ (¬ nothing_merged s ∧ submap_merged_into_base s s' t submap)).

(** ** [mapLookup] *)

Inductive MapLookupStatus : Type :=
  | kSuccess
  | kNoSuchMission
  | kNoSuchSensor
  | kPoseNeverAvailable
  | kPoseNotAvailableYet.

(** The sensor of the requested type on a mission, if it has one. *)
Definition requested_sensor (sensor_type : SensorType) (mission : VIMission)
  : option SensorId :=
  match sensor_type with
  | kNCamera => ncamera_id mission
  | kImu => imu_id mission
  | kLidar => lidar_id mission
  | kOdometry6DoF => odometry_6dof_id mission
  | kOtherSensorType => None
  end.

(** [p_G] and [sensor_p_G] are passed in with what the caller's vectors hold
    and returned with what they hold afterwards. *)
Definition mapLookup (s : ServerState) (robot : string)
    (sensor_type : SensorType) (timestamp_ns : Z) (p_S : Vector3d)
    (p_G sensor_p_G : Vector3d)
  : Outcome (MapLookupStatus * Vector3d * Vector3d) :=
  if string_empty robot then Ret (kNoSuchMission, p_G, sensor_p_G)
  else
    match robot_to_mission_id_map_ s !! robot with
    | None => Ret (kNoSuchMission, p_G, sensor_p_G)
    | Some submap_mission_id =>
        if (timestamp_ns <? 0)%Z then
          Ret (kPoseNeverAvailable, p_G, sensor_p_G)
        else
          _ ← CHECK (isValid submap_mission_id);
          map ← getMapAccess (map_manager_ s) kMergedMapKey;
          mission ← getMission map submap_mission_id;
          match requested_sensor sensor_type mission with
          | None => Ret (kNoSuchSensor, p_G, sensor_p_G)
          | Some sensor_id =>
              T_B_S ← getSensor_T_B_S map sensor_id;
              base_frame ← getMissionBaseFrameForMission map submap_mission_id;
              let T_G_M := T_G_M base_frame in
              let '(min_timestamp_ns, max_timestamp_ns) :=
                min_max_timestamp_ns map submap_mission_id in
              if (timestamp_ns <? min_timestamp_ns)%Z then
                Ret (kPoseNeverAvailable, p_G, sensor_p_G)
              else if (timestamp_ns >? max_timestamp_ns)%Z then
                Ret (kPoseNotAvailableYet, p_G, sensor_p_G)
              else
                let T_M_B_vector :=
                  getPosesAtTime map submap_mission_id [timestamp_ns] in
                match T_M_B_vector with
                | [T_M_B] =>
                    let T_G_B := compose T_G_M T_M_B in
                    let T_G_S := compose T_G_B T_B_S in
                    Ret (kSuccess, transform T_G_S p_S,
                         transform T_G_S Vector3d_Zero)
                | _ => Fatal
                end
          end
    end.

End Node.

(** ** Saving the merged map *)

(** The flag with the folder of the merged map, and whether the map store's
    [saveMapToFolder] succeeds for a map and a folder. *)
Class MapSaving `{PoseTypes} : Type := {
  FLAGS_maplab_server_merged_map_folder : string;
  saveMapToFolder : VIMap → string → bool;
}.

Section NodeMore.
Context `{PoseTypes} `{!Geometry} `{!MapEngine} `{!MapSaving}.

(** [saveMap(path)]. *)
Definition saveMap_to (folder : string) (s : ServerState) : bool :=
  if hasMap (map_manager_ s) kMergedMapKey then
    match map_manager_ s !! kMergedMapKey with
    | Some m => saveMapToFolder m folder
    | None => false
    end
  else false.

(** [saveMap()]. *)
Definition saveMap (s : ServerState) : bool :=
  if string_empty FLAGS_maplab_server_merged_map_folder then false
  else if hasMap (map_manager_ s) kMergedMapKey then
    match map_manager_ s !! kMergedMapKey with
    | Some m => saveMapToFolder m FLAGS_maplab_server_merged_map_folder
    | None => false
    end
  else false.

(** ** Views of a step and of a state *)

(** What a step that returns is, read off [step]. *)
Inductive step_view (s s' : ServerState) : Prop :=
  | view_same :
      s' = s → step_view s s'
  | view_submit robot submap_path :
      shut_down_requested_ s = false → queue_mutex_held s = false →
      string_empty robot = false → string_empty submap_path = false →
      s' = {| submap_processing_queue_ :=
                submap_processing_queue_ s
                  ++ [new_submap_process robot submap_path (num_accepted s)];
              map_manager_ := map_manager_ s;
              robot_to_mission_id_map_ := robot_to_mission_id_map_ s;
              submap_commands_ := submap_commands_ s;
              current_merge_command_ := current_merge_command_ s;
              merging_thread_busy_ := merging_thread_busy_ s;
              shut_down_requested_ := shut_down_requested_ s;
              received_first_submap := received_first_submap s;
              submap_merging_thread_ := submap_merging_thread_ s;
              num_accepted := S (num_accepted s);
              popped := popped s |} →
      step_view s s'
  | view_job i t t' store commands :
      submap_processing_queue_ s !! i = Some t →
      job_step t s
        = Ret (t', with_store store (with_submap_commands commands s)) →
      s' = with_queue (<[i := t']> (submap_processing_queue_ s))
             (with_store store (with_submap_commands commands s)) →
      step_view s s'
  | view_merger_moves pc busy command :
      at_pop_front s = false → pc ≠ MPopFront →
      (∀ rest, pc = MGlobalMap rest → received_first_submap s = true) →
      s' = with_merger pc busy command s →
      step_view s s'
  | view_merge t rest :
      submap_merging_thread_ s = MDraining →
      submap_processing_queue_ s = t :: rest →
      shut_down_requested_ s = false →
      mutex t = false → is_loaded t = true → is_processed t = true →
      merge_front t rest s = Ret s' →
      step_view s s'
  | view_pop t rest :
      submap_merging_thread_ s = MPopFront →
      submap_processing_queue_ s = t :: rest → is_merged t = true →
      s' = pop_front s →
      step_view s s'
  | view_global command rest :
      submap_merging_thread_ s = MGlobalMap (command :: rest) →
      s' = with_store (RunCommand kMergedMapKey command (map_manager_ s)).2
             (with_merger (MGlobalMap rest) true command s) →
      step_view s s'
  | view_shutdown :
      s' = request_shutdown s → step_view s s'.

(** A struct taken into the queue has a name, a path, and the key derived
    from them. *)
Definition well_named (t : SubmapProcess) : Prop :=
  string_empty (robot_name t) = false ∧ string_empty (path t) = false ∧
  map_key t = derive_map_key (robot_name t) (std_hash (path t)).

(** The job has put the map of its struct into the map manager:
    [loadMapFromFolder] has returned. *)
Definition past_load (pc : JobPc) : bool :=
  match pc with
  | JQueued | JLoading => false
  | _ => true
  end.

(** The map of a struct is in the map manager from the moment it is loaded
    to the moment it is merged. *)
Definition holds_map (t : SubmapProcess) : bool :=
  past_load (job t) && negb (is_merged t).

(** The job of the struct is between taking the mutex and leaving the
    command loop. *)
Definition job_in_loop (t : SubmapProcess) : bool :=
  match job t with
  | JLoading | JLoaded | JProcessing _ | JShutdownCheck _ => true
  | _ => false
  end.

(** Every robot of the index has a valid mission id and is the robot of a
    merged struct. *)
Definition index_backed (s : ServerState) : Prop :=
  ∀ robot id, robot_to_mission_id_map_ s !! robot = Some id →
    isValid id = true ∧ string_empty robot = false ∧
    ∃ t, t ∈ all_submaps s ∧ is_merged t = true ∧ robot_name t = robot.

(** The map manager has the map of every struct of the queue that is loaded
    and not merged. *)
Definition maps_held (s : ServerState) : Prop :=
  ∀ i t, submap_processing_queue_ s !! i = Some t → holds_map t = true →
         is_Some (map_manager_ s !! map_key t).

(** No two such structs have the same key. *)
Definition keys_distinct (s : ServerState) : Prop :=
  ∀ i j t u, submap_processing_queue_ s !! i = Some t →
             submap_processing_queue_ s !! j = Some u →
             holds_map t = true → holds_map u = true →
             map_key t = map_key u → i = j.

(** Every entry of the command table is under the hash of a struct whose
    job is in its loop. *)
Definition commands_owned (s : ServerState) : Prop :=
  ∀ h c, submap_commands_ s !! h = Some c →
         ∃ i t, submap_processing_queue_ s !! i = Some t ∧ map_hash t = h ∧
                job_in_loop t = true.

(** Every map of the map manager is the merged map or the map of a struct
    of the queue that is loaded and not merged. *)
Definition keys_owned (s : ServerState) : Prop :=
  ∀ k, is_Some (map_manager_ s !! k) →
       k = kMergedMapKey ∨
       ∃ i t, submap_processing_queue_ s !! i = Some t ∧
              holds_map t = true ∧ map_key t = k.

Record node_invariant_more (s : ServerState) : Prop := {
  more_names : Forall well_named (all_submaps s);
  more_index : index_backed s;
  more_held : maps_held s;
  more_distinct : keys_distinct s;
  more_commands : commands_owned s;
  more_owned : keys_owned s;
}.



(** Whether the merging thread is between the idle test at the top of its
    loop and the end of the loop body. *)
Definition in_loop_body (pc : MergerPc) : bool :=
  match pc with
  | MLoopTop | MExited => false
  | MDraining | MPopFront | MGlobalMap _ => true
  end.

(** The events of a job that runs undisturbed from taking the mutex to its
    return. *)
Definition job_alone (a : nat) : list Event :=
  replicate (2 * length submap_commands + 5) (EJob a).

End NodeMore.

(** ** A small instance

    Poses with integer entries (a 3x3 matrix and a translation), two robots
    with one recorded mission each, and a console whose commands leave the
    map as it is. *)
Module Sample.

Local Open Scope Z_scope.

Definition Vec : Type := Z * Z * Z.
Definition Mat : Type := Vec * Vec * Vec.

Definition dot (u v : Vec) : Z :=
  let '(a, b, c) := u in let '(x, y, z) := v in a * x + b * y + c * z.

Definition vadd (u v : Vec) : Vec :=
  let '(a, b, c) := u in let '(x, y, z) := v in (a + x, b + y, c + z).

Definition mat_vec (m : Mat) (v : Vec) : Vec :=
  let '(r1, r2, r3) := m in (dot r1 v, dot r2 v, dot r3 v).

Definition col (m : Mat) (i : nat) : Vec :=
  let '((a1, a2, a3), (b1, b2, b3), (c1, c2, c3)) := m in
  match i with
  | O => (a1, b1, c1)
  | S O => (a2, b2, c2)
  | _ => (a3, b3, c3)
  end.

Definition mat_mul (m n : Mat) : Mat :=
  let '(r1, r2, r3) := m in
  let row r := (dot r (col n 0), dot r (col n 1), dot r (col n 2)) in
  (row r1, row r2, row r3).

Definition Pose : Type := Mat * Vec.

Definition pose_mul (p q : Pose) : Pose :=
  (mat_mul p.1 q.1, vadd (mat_vec p.1 q.2) p.2).

Definition pose_apply (p : Pose) (v : Vec) : Vec := vadd (mat_vec p.1 v) p.2.

Definition identity_matrix : Mat := ((1, 0, 0), (0, 1, 0), (0, 0, 1)).

(** A quarter turn about the z axis. *)
Definition quarter_turn : Mat := ((0, -1, 0), (1, 0, 0), (0, 0, 1)).

#[export] Instance pose_types : PoseTypes :=
  {| Transformation := Pose; Vector3d := Vec |}.

#[export] Instance geometry : Geometry :=
  {| compose := pose_mul;
     transform := pose_apply;
     Vector3d_Zero := (0, 0, 0) |}.

Definition mission_of (sensor : SensorId) (frame : MissionBaseFrameId)
  : VIMission :=
  {| ncamera_id := Some sensor;
     imu_id := None;
     lidar_id := None;
     odometry_6dof_id := None;
     base_frame_id := frame |}.

(** The map of one submap folder: one mission with a camera. *)
Definition submap_with_mission (id : MissionId) : VIMap :=
  {| missions := [(id, mission_of 7%N 3%N)];
     mission_base_frames :=
       [(3%N, {| is_T_G_M_known := false;
                 T_G_M := (quarter_turn, (10, 0, 0)) |})];
     sensor_T_B_S := [(7%N, (quarter_turn, (0, 0, 1)))] |}.

Definition append_maps (base submap : VIMap) : VIMap :=
  {| missions := (missions base ++ missions submap)%list;
     mission_base_frames :=
       (mission_base_frames base ++ mission_base_frames submap)%list;
     sensor_T_B_S := (sensor_T_B_S base ++ sensor_T_B_S submap)%list |}.

#[export] Instance engine : MapEngine :=
  {| std_hash := λ s, N.of_nat (String.length s);
     kMergedMapKey := "merged_map";
     submap_commands := ["elq"; "lc"];
     global_map_commands := ["optvi"];
     map_on_disk := λ p,
       if String.eqb p "/maps/missing" then None
       else Some (submap_with_mission (N.of_nat (String.length p)));
     merge_maps := λ base submap, Some (append_maps base submap);
     run_command := λ _ m, (true, m);
     min_max_timestamp_ns := λ _ _, (100, 200);
     getPosesAtTime := λ _ _ ts, (λ t, (identity_matrix, (t, 0, 0))) <$> ts |}.

(** Two submaps arrive; the job of the second runs to its end before the job
    of the first has even started; then the first job runs and the merging
    thread drains the queue. *)
Definition second_job_first : list Event :=
  [ESubmit "anymal" "/maps/a"; ESubmit "spot" "/maps/bb";
   EJob 1; EJob 1; EJob 1; EJob 1; EJob 1; EJob 1; EJob 1; EJob 1; EJob 1;
   EMerger; EMerger; EMerger].

Definition first_job : list Event :=
  [EJob 0; EJob 0; EJob 0; EJob 0; EJob 0; EJob 0; EJob 0; EJob 0; EJob 0].

Definition merge_both : list Event :=
  [EMerger; EMerger; EMerger; EMerger; EMerger; EMerger].

Definition state_after (events : list Event) : ServerState :=
  match run events initial_state with
  | Ret s => s
  | _ => initial_state
  end.

(** Both jobs have returned and the merging thread is about to look at the
    front of the queue. *)
Definition ready_to_merge : ServerState :=
  state_after (second_job_first ++ first_job).

(** The node after both submaps were merged. *)
Definition after_merge : ServerState :=
  state_after (second_job_first ++ first_job ++ merge_both).

(** The first submap is merged and popped, the second is at the front. *)
Definition first_merged : list Event :=
  second_job_first ++ first_job ++ [EMerger; EMerger].

Definition first_popped : ServerState := state_after first_merged.

(** A node that serves lookups on a merged map of two missions. *)
Definition two_missions : VIMap :=
  append_maps (with_T_G_M_known (submap_with_mission 7) 3)
              (submap_with_mission 8).

Definition serving : ServerState :=
  {| submap_processing_queue_ := [];
     map_manager_ := {[ "merged_map" := two_missions ]};
     robot_to_mission_id_map_ := {[ "anymal" := 7%N; "spot" := 8%N ]};
     submap_commands_ := ∅;
     current_merge_command_ := "";
     merging_thread_busy_ := false;
     shut_down_requested_ := false;
     received_first_submap := true;
     submap_merging_thread_ := MLoopTop;
     num_accepted := 2;
     popped := [] |}.

(** Shutdown is requested while the job of the one submap runs its first
    command. *)
Definition shutdown_during_command : list Event :=
  [ESubmit "anymal" "/maps/a"; EJob 0; EJob 0; EJob 0; EJob 0; EShutdown;
   EJob 0].

Definition cancelled : ServerState := state_after shutdown_during_command.

(** The same folder is submitted twice for the same robot; the first job has
    loaded it when the second is about to. *)
Definition same_folder_twice : list Event :=
  [ESubmit "anymal" "/maps/a"; ESubmit "anymal" "/maps/a";
   EJob 0; EJob 0; EJob 0; EJob 1].

Definition colliding : ServerState := state_after same_folder_twice.

(** A struct as the status thread could only see it if the queue mutex did
    not protect the queue: merged, and its mutex locked. *)
Definition merged_and_locked : SubmapProcess :=
  {| path := "/maps/a";
     robot_name := "anymal";
     map_hash := 7;
     map_key := "anymal_7";
     is_loaded := true;
     is_processed := true;
     is_merged := true;
     mutex := true;
     job := JReturned;
     arrival := 0 |}.

Definition second_struct (s : ServerState) : SubmapProcess :=
  default merged_and_locked (submap_processing_queue_ s !! 1%nat).

Definition first_struct (s : ServerState) : SubmapProcess :=
  default merged_and_locked (submap_processing_queue_ s !! 0%nat).

(** A map store whose save succeeds for every folder but the root. *)
#[export] Instance saving : MapSaving :=
  {| FLAGS_maplab_server_merged_map_folder := "/maps/merged";
     saveMapToFolder := λ _ folder, negb (String.eqb folder "/") |}.

(** One submap was taken and its job has not started. *)
Definition one_submitted : ServerState :=
  state_after [ESubmit "anymal" "/maps/a"].

(** A submap with no map at its path was taken. *)
Definition missing_submitted : ServerState :=
  state_after [ESubmit "anymal" "/maps/missing"].

(** The job of the one submap holds the mutex and has not loaded the
    map. *)
Definition about_to_load : ServerState :=
  state_after [ESubmit "anymal" "/maps/a"; EJob 0].

(** [loadMapFromFolder] has returned and [is_loaded] is not set yet. *)
Definition just_loaded : ServerState :=
  state_after [ESubmit "anymal" "/maps/a"; EJob 0; EJob 0].



(** Both submaps are merged and popped, and the merging thread is about to
    run the one global map command. *)
Definition merge_up_to_global : list Event :=
  second_job_first ++ first_job ++ [EMerger; EMerger; EMerger; EMerger; EMerger].

Definition before_global : ServerState := state_after merge_up_to_global.

End Sample.

(** * Properties *)

(** ** Decimal digits and derived keys *)

Section KeyFacts.

Lemma string_of_uint_all_digits d :
  all_digits (NilEmpty.string_of_uint d) = true.
Proof. induction d; simpl; auto. Qed.

Lemma to_string_all_digits n : all_digits (to_string n) = true.
Proof. apply string_of_uint_all_digits. Qed.

Lemma to_string_inj n m : to_string n = to_string m → n = m.
Proof.
  unfold to_string. intros E.
  apply DecimalN.Unsigned.to_uint_inj.
  assert (Some (N.to_uint n) = Some (N.to_uint m)) as [= ->]; [|done].
  by rewrite <- !NilEmpty.usu, E.
Qed.

Lemma to_string_nonempty n : string_empty (to_string n) = false.
Proof.
  unfold to_string. destruct n as [|p]; [done|]. simpl.
  pose proof (DecimalPos.Unsigned.to_uint_nonnil p).
  by destruct (Pos.to_uint p).
Qed.

Lemma append_nil d : "" +:+ d = d.
Proof. reflexivity. Qed.

Lemma append_cons c r d : String c r +:+ d = String c (r +:+ d).
Proof. reflexivity. Qed.

Lemma derive_map_key_eq r h :
  derive_map_key r h = r +:+ String "_" (to_string h).
Proof. reflexivity. Qed.

(** A string with an underscore in it is not a number. *)
Lemma all_digits_underscore r d : all_digits (r +:+ String "_" d) = false.
Proof.
  induction r as [|c r IH]; [done|].
  rewrite append_cons. simpl. rewrite IH. apply andb_false_r.
Qed.

Lemma append_underscore_inj r1 r2 d1 d2 :
  all_digits d1 = true → all_digits d2 = true →
  r1 +:+ String "_" d1 = r2 +:+ String "_" d2 → r1 = r2 ∧ d1 = d2.
Proof.
  revert r2. induction r1 as [|c r1 IH]; intros [|c' r2] D1 D2;
    rewrite ?append_cons, ?append_nil.
  - by intros [= ->].
  - intros [= <- ->]. by rewrite all_digits_underscore in D1.
  - intros [= -> <-]. by rewrite all_digits_underscore in D2.
  - intros [= -> E]. destruct (IH r2 D1 D2 E) as [-> ->]. done.
Qed.

Lemma derive_map_key_inj r1 h1 r2 h2 :
  derive_map_key r1 h1 = derive_map_key r2 h2 → r1 = r2 ∧ h1 = h2.
Proof.
  rewrite !derive_map_key_eq. intros E.
  apply append_underscore_inj in E as [-> E]; auto using to_string_all_digits.
  split; [done|]. by apply to_string_inj.
Qed.

Lemma last_char_append r c d :
  last_char (r +:+ String c d) = last_char (String c d).
Proof.
  induction r as [|c' r IH]; [done|].
  rewrite append_cons. simpl. rewrite IH.
  destruct (r +:+ String c d) eqn:E; [|done].
  destruct r; rewrite ?append_cons, ?append_nil in E; congruence.
Qed.

Lemma all_digits_last_char d :
  all_digits d = true → string_empty d = false → ends_with_digit d = true.
Proof.
  unfold ends_with_digit.
  induction d as [|c d IH]; simpl; [done|].
  intros [Hc Hd]%andb_prop _. destruct d as [|c' d]; [done|].
  apply IH; done.
Qed.

Lemma derive_map_key_ends_with_digit r h :
  ends_with_digit (derive_map_key r h) = true.
Proof.
  rewrite derive_map_key_eq. unfold ends_with_digit.
  rewrite last_char_append.
  pose proof (to_string_nonempty h) as Hne.
  pose proof (to_string_all_digits h) as Hd.
  destruct (to_string h) as [|c d] eqn:E; [done|].
  apply (all_digits_last_char (String c d)); done.
Qed.

Lemma derive_map_key_nonempty r h : string_empty (derive_map_key r h) = false.
Proof. rewrite derive_map_key_eq. by destruct r. Qed.

End KeyFacts.

(** ** [mapLookup] *)

Section LookupFacts.
Context `{PoseTypes} `{!Geometry} `{!MapEngine}.

Implicit Types (s : ServerState) (robot : string) (sensor_type : SensorType).
Implicit Types (timestamp_ns : Z) (p_S p_G sensor_p_G : Vector3d).

(** What [mapLookup] does once the robot is known and the timestamp is not
    negative. *)
Lemma mapLookup_registered s robot sensor_type timestamp_ns p_S p_G sensor_p_G
    id map mission :
  string_empty robot = false →
  robot_to_mission_id_map_ s !! robot = Some id →
  isValid id = true →
  map_manager_ s !! kMergedMapKey = Some map →
  assoc id (missions map) = Some mission →
  (0 ≤ timestamp_ns)%Z →
  mapLookup s robot sensor_type timestamp_ns p_S p_G sensor_p_G =
    match requested_sensor sensor_type mission with
    | None => Ret (kNoSuchSensor, p_G, sensor_p_G)
    | Some sensor_id =>
        T_B_S ← getSensor_T_B_S map sensor_id;
        base_frame ← getMissionBaseFrame map (base_frame_id mission);
        let '(lo, hi) := min_max_timestamp_ns map id in
        if (timestamp_ns <? lo)%Z then
          Ret (kPoseNeverAvailable, p_G, sensor_p_G)
        else if (timestamp_ns >? hi)%Z then
          Ret (kPoseNotAvailableYet, p_G, sensor_p_G)
        else
          match getPosesAtTime map id [timestamp_ns] with
          | [T_M_B] =>
              let T_G_S := compose (compose (T_G_M base_frame) T_M_B) T_B_S in
              Ret (kSuccess, transform T_G_S p_S,
                   transform T_G_S Vector3d_Zero)
          | _ => Fatal
          end
    end.
Proof.
  intros Hr Hid Hv Hm Hmi Hts. unfold mapLookup.
  rewrite Hr, Hid. destruct (Z.ltb_spec timestamp_ns 0) as [|_]; [lia|].
  rewrite Hv. unfold getMapAccess. rewrite Hm. cbn.
  unfold getMission, getMissionBaseFrameForMission, getMission.
  rewrite Hmi. cbn.
  destruct (requested_sensor sensor_type mission) as [sid|]; [|done].
  destruct (getSensor_T_B_S map sid); cbn; try done.
Qed.

(** C10: a registered robot and a negative timestamp give
    pose-never-available whatever sensor is asked for: the test of the
    timestamp comes before the mission is looked at, so no-such-sensor is
    never returned for a negative timestamp. *)
Theorem negative_timestamp_before_sensor_resolution
    s robot sensor_type timestamp_ns p_S p_G sensor_p_G id :
  string_empty robot = false →
  robot_to_mission_id_map_ s !! robot = Some id →
  (timestamp_ns < 0)%Z →
  mapLookup s robot sensor_type timestamp_ns p_S p_G sensor_p_G =
    Ret (kPoseNeverAvailable, p_G, sensor_p_G).
Proof.
  intros Hr Hid Hts. unfold mapLookup. rewrite Hr, Hid.
  by destruct (Z.ltb_spec timestamp_ns 0) as [_|]; [|lia].
Qed.

(** C3: for a registered robot whose mission has the requested sensor, the
    cases taken in the order of the text: a timestamp that is negative or
    before the minimum gives pose-never-available; otherwise one after the
    maximum gives pose-not-available-yet; otherwise the lookup succeeds; and
    the two failures are different statuses. Where the recorded range is a
    range of non-negative times the cases do not overlap. *)
Theorem lookup_range_cases
    s robot sensor_type timestamp_ns p_S p_G sensor_p_G
    id map mission sensor_id T_B_S base_frame lo hi :
  string_empty robot = false →
  robot_to_mission_id_map_ s !! robot = Some id →
  isValid id = true →
  map_manager_ s !! kMergedMapKey = Some map →
  assoc id (missions map) = Some mission →
  requested_sensor sensor_type mission = Some sensor_id →
  assoc sensor_id (sensor_T_B_S map) = Some T_B_S →
  assoc (base_frame_id mission) (mission_base_frames map) = Some base_frame →
  min_max_timestamp_ns map id = (lo, hi) →
  let result := mapLookup s robot sensor_type timestamp_ns p_S p_G sensor_p_G in
  ((timestamp_ns < 0 ∨ timestamp_ns < lo)%Z →
     result = Ret (kPoseNeverAvailable, p_G, sensor_p_G)) ∧
  ((0 ≤ timestamp_ns)%Z → (lo ≤ timestamp_ns)%Z → (hi < timestamp_ns)%Z →
     result = Ret (kPoseNotAvailableYet, p_G, sensor_p_G)) ∧
  ((0 ≤ timestamp_ns)%Z → (lo ≤ timestamp_ns ≤ hi)%Z →
     ∀ T_M_B, getPosesAtTime map id [timestamp_ns] = [T_M_B] →
     let T_G_S := compose (compose (T_G_M base_frame) T_M_B) T_B_S in
     result = Ret (kSuccess, transform T_G_S p_S,
                   transform T_G_S Vector3d_Zero)) ∧
  ((0 ≤ lo ≤ hi)%Z → (hi < timestamp_ns)%Z →
     result = Ret (kPoseNotAvailableYet, p_G, sensor_p_G)) ∧
  kPoseNeverAvailable ≠ kPoseNotAvailableYet.
Proof.
  intros Hr Hid Hv Hm Hmi Hs HT Hb Hmm result.
  assert ((0 ≤ timestamp_ns)%Z →
          result =
            if (timestamp_ns <? lo)%Z then
              Ret (kPoseNeverAvailable, p_G, sensor_p_G)
            else if (timestamp_ns >? hi)%Z then
              Ret (kPoseNotAvailableYet, p_G, sensor_p_G)
            else
              match getPosesAtTime map id [timestamp_ns] with
              | [T_M_B] =>
                  let T_G_S :=
                    compose (compose (T_G_M base_frame) T_M_B) T_B_S in
                  Ret (kSuccess, transform T_G_S p_S,
                       transform T_G_S Vector3d_Zero)
              | _ => Fatal
              end) as Hpos.
  { intros Hts. unfold result.
    rewrite (mapLookup_registered _ _ _ _ _ _ _ id map mission) by done.
    rewrite Hs. unfold getSensor_T_B_S, getMissionBaseFrame.
    rewrite HT, Hb. cbn. by rewrite Hmm. }
  assert ((timestamp_ns < 0)%Z →
          result = Ret (kPoseNeverAvailable, p_G, sensor_p_G)) as Hneg.
  { intros Hts. unfold result, mapLookup. rewrite Hr, Hid.
    by destruct (Z.ltb_spec timestamp_ns 0) as [_|]; [|lia]. }
  repeat split.
  - intros [Hts|Hlo]; [by apply Hneg|].
    destruct (Z.lt_ge_cases timestamp_ns 0) as [Hts|Hge]; [by apply Hneg|].
    rewrite Hpos by done.
    by destruct (Z.ltb_spec timestamp_ns lo); [|lia].
  - intros Hnn Hlo Hhi. rewrite Hpos by done.
    destruct (Z.ltb_spec timestamp_ns lo); [lia|].
    by destruct (Z.gtb_spec timestamp_ns hi); [|lia].
  - intros Hnn [Hlo Hhi] T_M_B HT_M_B. rewrite Hpos by done.
    destruct (Z.ltb_spec timestamp_ns lo); [lia|].
    destruct (Z.gtb_spec timestamp_ns hi); [lia|].
    by rewrite HT_M_B.
  - intros [Hnn Hlohi] Hhi. rewrite Hpos by lia.
    destruct (Z.ltb_spec timestamp_ns lo); [lia|].
    by destruct (Z.gtb_spec timestamp_ns hi); [|lia].
  - done.
Qed.

(** C4: on success the returned point is [(T_G_M * T_M_B) * T_B_S] applied to
    the point in the sensor frame, and the returned sensor origin is the same
    pose applied to the zero vector, with [T_G_M] the alignment of the
    robot's mission, [T_M_B] the pose interpolated at the timestamp and
    [T_B_S] the extrinsic of the requested sensor. *)
Theorem lookup_composition
    s robot sensor_type timestamp_ns p_S p_G sensor_p_G p_G' sensor_p_G' :
  mapLookup s robot sensor_type timestamp_ns p_S p_G sensor_p_G =
    Ret (kSuccess, p_G', sensor_p_G') →
  ∃ id map mission sensor_id T_B_S base_frame T_M_B,
    robot_to_mission_id_map_ s !! robot = Some id ∧
    map_manager_ s !! kMergedMapKey = Some map ∧
    assoc id (missions map) = Some mission ∧
    requested_sensor sensor_type mission = Some sensor_id ∧
    assoc sensor_id (sensor_T_B_S map) = Some T_B_S ∧
    assoc (base_frame_id mission) (mission_base_frames map)
      = Some base_frame ∧
    getPosesAtTime map id [timestamp_ns] = [T_M_B] ∧
    let T_G_S := compose (compose (T_G_M base_frame) T_M_B) T_B_S in
    p_G' = transform T_G_S p_S ∧
    sensor_p_G' = transform T_G_S Vector3d_Zero.
Proof.
  unfold mapLookup. intros Hres.
  destruct (string_empty robot); [done|].
  destruct (robot_to_mission_id_map_ s !! robot) as [id|] eqn:Hid; [|done].
  destruct (timestamp_ns <? 0)%Z; [done|].
  destruct (isValid id); [|done]. cbn in Hres.
  unfold getMapAccess in Hres.
  destruct (map_manager_ s !! kMergedMapKey) as [map|] eqn:Hm; [|done].
  cbn in Hres.
  unfold getMissionBaseFrameForMission, getMission, getSensor_T_B_S,
    getMissionBaseFrame in Hres.
  destruct (assoc id (missions map)) as [mission|] eqn:Hmi; [|done].
  cbn in Hres.
  destruct (requested_sensor sensor_type mission) as [sid|] eqn:Hs; [|done].
  destruct (assoc sid (sensor_T_B_S map)) as [T_B_S|] eqn:HT; [|done].
  cbn in Hres.
  destruct (assoc (base_frame_id mission) (mission_base_frames map))
    as [bf|] eqn:Hb; [|done].
  cbn in Hres.
  destruct (min_max_timestamp_ns map id) as [lo hi].
  destruct (timestamp_ns <? lo)%Z; [done|].
  destruct (timestamp_ns >? hi)%Z; [done|].
  destruct (getPosesAtTime map id [timestamp_ns]) as [|T_M_B [|]] eqn:Hp;
    try done.
  injection Hres as <- <-.
  exists id, map, mission, sid, T_B_S, bf, T_M_B. done.
Qed.

End LookupFacts.

(** ** The pipeline *)

Section PipelineFacts.
Context `{PoseTypes} `{!Geometry} `{!MapEngine}.

Implicit Types (s : ServerState) (t : SubmapProcess) (e : Event).
Implicit Types (q : list SubmapProcess).

Lemma bind_Ret {A B} (m : Outcome A) (k : A → Outcome B) b :
  m ≫= k = Ret b → ∃ a, m = Ret a ∧ k a = Ret b.
Proof. destruct m as [a| |]; cbn; [|done..]. intros Hk. by exists a. Qed.

Lemma CHECK_Ret b u : CHECK b = Ret u → b = true.
Proof. by destruct b. Qed.

Lemma getChecked_Ret {A} (o : option A) a : getChecked o = Ret a → o = Some a.
Proof. destruct o; cbn; congruence. Qed.

(** *** Jobs *)

Lemma run_job_Ret a q s q' s' :
  run_job a q s = Ret (q', s') →
  ∃ i t t', q !! i = Some t ∧ arrival t = a ∧
            job_step t s = Ret (t', s') ∧ q' = <[i := t']> q.
Proof.
  revert q'. induction q as [|u r IH]; intros q'; simpl; [done|].
  destruct (Nat.eqb_spec (arrival u) a) as [Ha|Ha].
  - intros ([t' s1] & Hj & [= <- <-])%bind_Ret. by exists 0, u, t'.
  - intros ([r' s1] & Hr & [= <- <-])%bind_Ret.
    destruct (IH _ Hr) as (i & t & t' & Hi & Hat & Hj & ->).
    by exists (S i), t, t'.
Qed.

Lemma flags_le_refl t : flags_le t t.
Proof. by repeat split. Qed.

Lemma submap_le_refl t : submap_le t t.
Proof. split; [apply flags_le_refl|done]. Qed.

Lemma submap_le_trans t1 t2 t3 :
  submap_le t1 t2 → submap_le t2 t3 → submap_le t1 t3.
Proof.
  intros [(?&?&?&?&?&?&?) [? ?]] [(?&?&?&?&?&?&?) [? ?]].
  repeat split; try congruence; eauto.
Qed.

Lemma with_store_same s commands :
  with_submap_commands commands s =
    with_store (map_manager_ s) (with_submap_commands commands s).
Proof. by destruct s. Qed.

Lemma with_store_commands_same s :
  s = with_store (map_manager_ s) (with_submap_commands (submap_commands_ s) s).
Proof. by destruct s. Qed.

Lemma with_store_other s store :
  with_store store s =
    with_store store (with_submap_commands (submap_commands_ s) s).
Proof. by destruct s. Qed.

(** One step of a job: the struct stays consistent, only flags the job owns
    rise, and of the node only the map under the submap's key and the
    command table change. *)
Lemma job_step_Ret t s t' s' :
  job_step t s = Ret (t', s') → job_consistent t →
  job_consistent t' ∧ submap_le t t' ∧
  is_merged t = false ∧ is_merged t' = false ∧
  map_hash t' = map_hash t ∧
  ∃ store commands,
    s' = with_store store (with_submap_commands commands s) ∧
    ∀ k, k ≠ map_key t → store !! k = map_manager_ s !! k.
Proof.
  unfold job_step, job_consistent.
  destruct (job t) as [| | |[|c rest]|rest| | |rest] eqn:Hjob;
    intros Hstep Hc; try done.
  - destruct (mutex t); [done|]. injection Hstep as <- <-.
    repeat split; simpl; try tauto; try congruence; try reflexivity.
    eexists _, _. split; [apply with_store_same|done].
  - destruct (hasMap _ _); [done|].
    apply bind_Ret in Hstep as (store & Hl%getChecked_Ret & [= <- <-]).
    repeat split; simpl; try tauto; try congruence; try reflexivity.
    eexists _, _. split; [apply with_store_other|].
    intros k Hk. unfold loadMapFromFolder in Hl.
    destruct (map_on_disk (path t)); [|done]. injection Hl as <-.
    by rewrite lookup_insert_ne.
  - injection Hstep as <- <-.
    repeat split; simpl; try tauto; try congruence; try reflexivity.
    eexists _, _. split; [apply with_store_commands_same|done].
  - injection Hstep as <- <-.
    repeat split; simpl; try tauto; try congruence; try reflexivity.
    eexists _, _. split; [apply with_store_same|done].
  - injection Hstep as <- <-.
    destruct Hc as (?&?&?&?&Hsuf).
    repeat split; simpl; try tauto; try congruence; try reflexivity.
    + by eapply suffix_cons_l.
    + eexists _, _. split; [done|].
      intros k Hk. unfold RunCommand.
      destruct (map_manager_ s !! map_key t); simpl; [|done].
      by rewrite lookup_insert_ne.
  - destruct (shut_down_requested_ s); injection Hstep as <- <-.
    + repeat split; simpl; try tauto; try congruence; try reflexivity.
      eexists _, _. split; [apply with_store_same|done].
    + repeat split; simpl; try tauto; try congruence; try reflexivity.
      eexists _, _. split; [apply with_store_commands_same|done].
  - injection Hstep as <- <-.
    repeat split; simpl; try tauto; try congruence; try reflexivity.
    eexists _, _. split; [apply with_store_commands_same|done].
Qed.

(** *** Steps that leave the structs alone *)

Lemma Forall2_submap_le_refl (l : list SubmapProcess) : Forall2 submap_le l l.
Proof. induction l; constructor; auto using submap_le_refl. Qed.

Lemma evolves_same s s' :
  all_submaps s' = all_submaps s → evolves s s'.
Proof.
  intros E. exists (all_submaps s), []. rewrite E, app_nil_r.
  split; [done|apply Forall2_submap_le_refl].
Qed.

Lemma invariant_same s s' :
  submap_processing_queue_ s' = submap_processing_queue_ s →
  popped s' = popped s →
  num_accepted s' = num_accepted s →
  at_pop_front s' = at_pop_front s →
  node_invariant s → node_invariant s'.
Proof.
  intros Eq Ep En Ea [I1 I2 I3 I4 I5 I6].
  split; unfold all_submaps in *; rewrite ?Eq, ?Ep, ?En, ?Ea; done.
Qed.

(** *** A job runs *)

Lemma job_event a s s' :
  step (EJob a) s = Ret s' → node_invariant s →
  ∃ i t t' store commands,
    submap_processing_queue_ s !! i = Some t ∧ arrival t = a ∧
    job_step t s = Ret (t', with_store store (with_submap_commands commands s)) ∧
    s' = with_queue (<[i := t']> (submap_processing_queue_ s))
           (with_store store (with_submap_commands commands s)) ∧
    job_consistent t ∧ job_consistent t' ∧ submap_le t t' ∧
    is_merged t = false ∧ is_merged t' = false ∧ map_hash t' = map_hash t ∧
    ∀ k, k ≠ map_key t → store !! k = map_manager_ s !! k.
Proof.
  cbn. intros ([q' s1] & Hrun & [= <-])%bind_Ret Hinv.
  apply run_job_Ret in Hrun as (i & t & t' & Hi & Ha & Hjob & ->).
  assert (job_consistent t) as Hc.
  { destruct Hinv as [I1 _ _ _ _ _]. rewrite Forall_forall in I1.
    apply I1. unfold all_submaps. apply elem_of_app. right.
    by eapply list_elem_of_lookup_2. }
  destruct (job_step_Ret _ _ _ _ Hjob Hc)
    as (Hc' & Hle & Hm & Hm' & Hh & store & commands & -> & Hstore).
  by exists i, t, t', store, commands.
Qed.

Lemma job_event_invariant a s s' :
  step (EJob a) s = Ret s' → node_invariant s → node_invariant s'.
Proof.
  intros Hstep Hinv.
  destruct (job_event _ _ _ Hstep Hinv)
    as (i & t & t' & store & commands & Hi & Ha & _ & -> & Hc & Hc' & Hle &
        Hm & Hm' & Hh & _).
  destruct Hinv as [I1 I2 I3 I4 I5 I6].
  destruct Hle as [(Har & Hp & Hr & Hk & _) _].
  unfold all_submaps in *. rewrite Forall_app in I1, I3.
  split; unfold all_submaps; cbn.
  - rewrite Forall_app. split; [tauto|]. apply Forall_insert; tauto.
  - rewrite fmap_app, list_fmap_insert, list_insert_id, <- fmap_app; [done|].
    rewrite list_lookup_fmap, Hi. cbn. by rewrite Har.
  - rewrite Forall_app. split; [tauto|]. apply Forall_insert; [tauto|].
    destruct I3 as [_ I3]. rewrite Forall_forall in I3.
    rewrite <- Hk, <- Hr, Hh. apply I3. by eapply list_elem_of_lookup_2.
  - done.
  - intros j u [(<- & <- & _)|(Hne & Hj)]%list_lookup_insert_Some.
    + rewrite Hm'. rewrite <- Hm. by apply I5.
    + by apply I5.
  - intros Hpop Hnil. apply I6; [done|].
    apply (f_equal length) in Hnil. rewrite length_insert in Hnil.
    by destruct (submap_processing_queue_ s).
Qed.

Lemma job_event_evolves a s s' :
  step (EJob a) s = Ret s' → node_invariant s → evolves s s'.
Proof.
  intros Hstep Hinv.
  destruct (job_event _ _ _ Hstep Hinv)
    as (i & t & t' & store & commands & Hi & Ha & _ & -> & Hc & Hc' & Hle & _).
  exists (popped s ++ <[i := t']> (submap_processing_queue_ s)), [].
  rewrite app_nil_r. split; [done|]. unfold all_submaps.
  apply Forall2_app; [apply Forall2_submap_le_refl|].
  rewrite <- (list_insert_id _ _ _ Hi) at 1.
  apply Forall2_insert; [apply Forall2_submap_le_refl|done].
Qed.

(** *** The merging thread runs *)

Lemma hasMap_true (store : gmap string VIMap) key :
  hasMap store key = true ↔ is_Some (store !! key).
Proof. unfold hasMap. destruct (store !! key); split; by inversion 1. Qed.

Lemma hasMap_false (store : gmap string VIMap) key :
  hasMap store key = false ↔ store !! key = None.
Proof. unfold hasMap. by destruct (store !! key). Qed.

Lemma merge_front_Ret t rest s s' :
  merge_front t rest s = Ret s' →
  submap_processing_queue_ s' = set_job (set_is_merged t) false (job t) :: rest ∧
  popped s' = popped s ∧ num_accepted s' = num_accepted s ∧
  submap_merging_thread_ s' = MPopFront ∧
  shut_down_requested_ s' = shut_down_requested_ s ∧
  is_Some (map_manager_ s !! map_key t) ∧
  (if hasMap (map_manager_ s) kMergedMapKey
   then merge_into_merged_map (map_key t) (map_manager_ s)
   else initialize_merged_map (map_key t) (map_manager_ s))
    = Ret (map_manager_ s') ∧
  received_first_submap s' =
    negb (hasMap (map_manager_ s) kMergedMapKey) || received_first_submap s ∧
  is_Some (map_manager_ s' !! kMergedMapKey) ∧
  map_manager_ s' !! map_key t = None.
Proof.
  unfold merge_front. intros Hm.
  apply bind_Ret in Hm as (_ & _ & Hm).
  apply bind_Ret in Hm as (_ & Hhas%CHECK_Ret & Hm).
  apply bind_Ret in Hm as (submap & _ & Hm).
  apply bind_Ret in Hm as (_ & _ & Hm).
  apply bind_Ret in Hm as (store & Hstore & Hm).
  apply bind_Ret in Hm as (_ & Hmerged%CHECK_Ret & Hm).
  apply bind_Ret in Hm as (_ & Hgone%CHECK_Ret & Hm).
  apply bind_Ret in Hm as (_ & _ & Hm).
  injection Hm as <-. cbn.
  apply hasMap_true in Hhas, Hmerged.
  apply negb_true_iff, hasMap_false in Hgone.
  repeat split; try done.
  by destruct (hasMap (map_manager_ s) kMergedMapKey).
Qed.

Lemma drain_step_cases s s' :
  drain_step s = Ret s' →
  (s' = leave_drain s ∧
   (submap_processing_queue_ s = [] ∨ shut_down_requested_ s = true ∨
    ∃ t rest, submap_processing_queue_ s = t :: rest ∧
              (mutex t = true ∨ is_loaded t = false ∨ is_processed t = false)))
  ∨ (∃ t rest, submap_processing_queue_ s = t :: rest ∧
               shut_down_requested_ s = false ∧ mutex t = false ∧
               is_loaded t = true ∧ is_processed t = true ∧
               merge_front t rest s = Ret s').
Proof.
  unfold drain_step.
  destruct (submap_processing_queue_ s) as [|t rest] eqn:Hq.
  { intros [= <-]. left. auto. }
  destruct (shut_down_requested_ s) eqn:Hsd.
  { intros [= <-]. left. auto. }
  destruct (mutex t) eqn:Hmu.
  { intros [= <-]. left. split; [done|]. right; right. by exists t, rest; auto. }
  destruct (is_loaded t) eqn:Hl; simpl.
  2:{ intros [= <-]. left. split; [done|]. right; right.
      by exists t, rest; auto. }
  destruct (is_processed t) eqn:Hp; simpl.
  2:{ intros [= <-]. left. split; [done|]. right; right.
      by exists t, rest; auto. }
  intros Hm. right. by exists t, rest.
Qed.

Lemma leave_drain_same s :
  submap_processing_queue_ (leave_drain s) = submap_processing_queue_ s ∧
  popped (leave_drain s) = popped s ∧
  num_accepted (leave_drain s) = num_accepted s ∧
  map_manager_ (leave_drain s) = map_manager_ s ∧
  at_pop_front (leave_drain s) = false ∧
  queue_mutex_held (leave_drain s) = false.
Proof. unfold leave_drain. by destruct (received_first_submap s). Qed.

(** The struct a merge is done on is one whose job has returned. *)
Lemma ready_front_returned t :
  job_consistent t → mutex t = false → is_processed t = true →
  job t = JReturned.
Proof.
  unfold job_consistent.
  destruct (job t); intros Hc Hmu Hp; try done; intuition congruence.
Qed.

Lemma merge_front_invariant t rest s s' :
  submap_processing_queue_ s = t :: rest →
  submap_merging_thread_ s = MDraining →
  mutex t = false → is_loaded t = true → is_processed t = true →
  merge_front t rest s = Ret s' →
  node_invariant s → node_invariant s' ∧ evolves s s'.
Proof.
  intros Hq Hpc Hmu Hl Hp Hm [I1 I2 I3 I4 I5 I6].
  destruct (merge_front_Ret _ _ _ _ Hm) as (Hq' & Hpop & Hn & Hpc' & _).
  unfold all_submaps in *. rewrite Hq in *.
  rewrite Forall_app, Forall_cons in I1, I3.
  assert (job t = JReturned) as Hjob by (apply ready_front_returned; tauto).
  assert (submap_le t (set_job (set_is_merged t) false (job t))) as Hle.
  { repeat split; simpl; done. }
  split; [split|]; unfold all_submaps, at_pop_front;
    rewrite ?Hq', ?Hpop, ?Hn, ?Hpc'.
  - rewrite Forall_app, Forall_cons. repeat split; try tauto.
    unfold job_consistent. simpl. rewrite Hjob. auto.
  - by rewrite <- I2, !fmap_app.
  - rewrite Forall_app, Forall_cons. repeat split; tauto.
  - done.
  - intros [|i] u Hu; simpl in *.
    + by injection Hu as <-.
    + rewrite (I5 (S i) u Hu). unfold at_pop_front. by rewrite Hpc.
  - done.
  - exists (popped s ++ set_job (set_is_merged t) false (job t) :: rest), [].
    rewrite app_nil_r. unfold all_submaps. rewrite Hq', Hpop, Hq.
    split; [done|].
    apply Forall2_app; [apply Forall2_submap_le_refl|].
    constructor; [done|apply Forall2_submap_le_refl].
Qed.

Lemma pop_front_invariant s :
  submap_merging_thread_ s = MPopFront →
  node_invariant s →
  node_invariant (pop_front s) ∧ all_submaps (pop_front s) = all_submaps s.
Proof.
  intros Hpc [I1 I2 I3 I4 I5 I6]. unfold pop_front.
  assert (at_pop_front s = true) as Hat by (unfold at_pop_front; by rewrite Hpc).
  destruct (submap_processing_queue_ s) as [|t rest] eqn:Hq;
    [by destruct (I6 Hat)|].
  assert (all_submaps
            {| submap_processing_queue_ := rest;
               map_manager_ := map_manager_ s;
               robot_to_mission_id_map_ := robot_to_mission_id_map_ s;
               submap_commands_ := submap_commands_ s;
               current_merge_command_ := current_merge_command_ s;
               merging_thread_busy_ := merging_thread_busy_ s;
               shut_down_requested_ := shut_down_requested_ s;
               received_first_submap := received_first_submap s;
               submap_merging_thread_ := MDraining;
               num_accepted := num_accepted s;
               popped := popped s ++ [t] |} = all_submaps s) as Hall.
  { unfold all_submaps. cbn. by rewrite Hq, <- app_assoc. }
  split; [|done]. split; rewrite ?Hall; try done; cbn.
  - rewrite Forall_app, Forall_singleton. split; [done|].
    rewrite (I5 0 t eq_refl), Hat. done.
  - intros i u Hu. rewrite (I5 (S i) u Hu). by rewrite andb_false_r.
Qed.

Lemma merger_event_invariant s s' :
  step EMerger s = Ret s' → node_invariant s →
  node_invariant s' ∧ evolves s s'.
Proof.
  cbn. unfold merger_step. intros Hstep Hinv.
  destruct (submap_merging_thread_ s) as [| | |[|c rest]|] eqn:Hpc.
  - assert (at_pop_front s = false) as Hat
      by (unfold at_pop_front; by rewrite Hpc).
    destruct (shut_down_requested_ s);
      [|destruct (negb (received_first_submap s) && _)];
      injection Hstep as <-;
      (split; [|by apply evolves_same]);
      (eapply invariant_same; [..|apply Hinv]; cbn; rewrite ?Hat; done).
  - assert (at_pop_front s = false) as Hat
      by (unfold at_pop_front; by rewrite Hpc).
    destruct (drain_step_cases _ _ Hstep)
      as [[-> _]|(t & rest & Hq & _ & Hmu & Hl & Hp & Hm)].
    + destruct (leave_drain_same s) as (Eq & Ep & En & _ & Ea & _).
      split; [eapply invariant_same; eauto; congruence|].
      apply evolves_same. unfold all_submaps. by rewrite Eq, Ep.
    + by eapply merge_front_invariant.
  - injection Hstep as <-.
    destruct (pop_front_invariant s Hpc Hinv) as [Hinv' Hall].
    split; [done|by apply evolves_same].
  - injection Hstep as <-.
    split; [|by apply evolves_same].
    eapply invariant_same; [..|apply Hinv]; cbn; try done.
    unfold at_pop_front. by rewrite Hpc.
  - injection Hstep as <-.
    split; [|by apply evolves_same].
    eapply invariant_same; [..|apply Hinv]; cbn; try done.
    unfold at_pop_front. by rewrite Hpc.
  - done.
Qed.

(** *** A submap is submitted *)

Lemma loadAndProcessSubmap_Ret robot submap_path s b s' :
  loadAndProcessSubmap robot submap_path s = Ret (b, s') →
  string_empty robot = false ∧ string_empty submap_path = false ∧
  ((b = false ∧ s' = s ∧ shut_down_requested_ s = true) ∨
   (b = true ∧ shut_down_requested_ s = false ∧ queue_mutex_held s = false ∧
    submap_processing_queue_ s' =
      submap_processing_queue_ s
        ++ [new_submap_process robot submap_path (num_accepted s)] ∧
    popped s' = popped s ∧ num_accepted s' = S (num_accepted s) ∧
    submap_merging_thread_ s' = submap_merging_thread_ s ∧
    map_manager_ s' = map_manager_ s)).
Proof.
  unfold loadAndProcessSubmap. intros Hs.
  apply bind_Ret in Hs as (_ & Hp%CHECK_Ret%negb_true_iff & Hs).
  apply bind_Ret in Hs as (_ & Hr%CHECK_Ret%negb_true_iff & Hs).
  split; [done|]. split; [done|].
  destruct (shut_down_requested_ s); [injection Hs as <- <-; by left|].
  destruct (queue_mutex_held s); [done|].
  injection Hs as <- <-. right. done.
Qed.

Lemma queue_mutex_free_not_popping s :
  queue_mutex_held s = false → at_pop_front s = false.
Proof.
  unfold queue_mutex_held, at_pop_front.
  by destruct (submap_merging_thread_ s).
Qed.

Lemma submit_event_invariant robot submap_path s s' :
  step (ESubmit robot submap_path) s = Ret s' → node_invariant s →
  node_invariant s' ∧ evolves s s'.
Proof.
  cbn. intros ([b s1] & Hs & [= <-])%bind_Ret Hinv. cbn.
  apply loadAndProcessSubmap_Ret in Hs
    as (_ & _ & [(_ & -> & _)|(_ & _ & Hfree & Hq & Hp & Hn & Hpc & _)]).
  { split; [done|by apply evolves_same]. }
  destruct Hinv as [I1 I2 I3 I4 I5 I6].
  assert (all_submaps s1 =
          all_submaps s ++ [new_submap_process robot submap_path (num_accepted s)])
    as Hall.
  { unfold all_submaps. by rewrite Hq, Hp, app_assoc. }
  assert (at_pop_front s1 = at_pop_front s) as Hat.
  { unfold at_pop_front. by rewrite Hpc. }
  split; [split|]; rewrite ?Hall, ?Hn, ?Hp, ?Hat.
  - rewrite Forall_app, Forall_singleton. split; [done|].
    unfold job_consistent. simpl. auto.
  - by rewrite fmap_app, I2, seq_S.
  - rewrite Forall_app, Forall_singleton. done.
  - done.
  - rewrite Hq. intros i u [Hu|[_ Hu]]%lookup_app_Some; [by apply I5|].
    rewrite (queue_mutex_free_not_popping s Hfree).
    apply list_lookup_singleton_Some in Hu as [_ <-]. done.
  - rewrite Hq. intros Hpop Hnil. by apply app_nil in Hnil as [_ ?].
  - exists (all_submaps s), [new_submap_process robot submap_path (num_accepted s)].
    split; [done|apply Forall2_submap_le_refl].
Qed.

(** *** Any event, any interleaving *)

Lemma step_invariant e s s' :
  step e s = Ret s' → node_invariant s → node_invariant s' ∧ evolves s s'.
Proof.
  destruct e as [robot submap_path|a| | |].
  - apply submit_event_invariant.
  - intros Hs Hi. split; [by eapply job_event_invariant|
                          by eapply job_event_evolves].
  - apply merger_event_invariant.
  - cbn. intros (r & _ & [= <-])%bind_Ret Hi.
    split; [done|by apply evolves_same].
  - cbn. intros [= <-] Hi.
    split; [|by apply evolves_same].
    eapply invariant_same; [..|apply Hi]; done.
Qed.

Lemma evolves_refl s : evolves s s.
Proof. by apply evolves_same. Qed.

Lemma evolves_trans s1 s2 s3 : evolves s1 s2 → evolves s2 s3 → evolves s1 s3.
Proof.
  intros (old2 & new2 & E2 & F2) (old3 & new3 & E3 & F3).
  rewrite E2 in F3.
  apply Forall2_app_inv_l in F3 as (o1 & o2 & F31 & F32 & ->).
  exists o1, (o2 ++ new3). split; [by rewrite E3, app_assoc|].
  clear E2 E3 F32. revert o1 F31.
  induction F2 as [|t t2 l l2 Ht _ IH]; intros o1 F31.
  - by inversion F31.
  - inversion F31 as [|? t3 ? l3 Ht3 Hl3]; subst.
    constructor; [by eapply submap_le_trans|by apply IH].
Qed.

Lemma run_invariant events s s' :
  run events s = Ret s' → node_invariant s →
  node_invariant s' ∧ evolves s s'.
Proof.
  revert s. induction events as [|e r IH]; intros s; simpl.
  - intros [= <-] Hi. split; [done|apply evolves_refl].
  - intros (s1 & Hs & Hr)%bind_Ret Hi.
    destruct (step_invariant _ _ _ Hs Hi) as [Hi1 He1].
    destruct (IH _ Hr Hi1) as [Hi' He'].
    split; [done|by eapply evolves_trans].
Qed.

Lemma initial_invariant : node_invariant initial_state.
Proof. split; cbn; done. Qed.

Lemma reachable_invariant s : reachable s → node_invariant s.
Proof.
  intros [events Hrun].
  by destruct (run_invariant _ _ _ Hrun initial_invariant).
Qed.

Lemma run_app events1 events2 s :
  run (events1 ++ events2) s = (s1 ← run events1 s; run events2 s1).
Proof.
  revert s. induction events1 as [|e r IH]; intros s; simpl; [done|].
  destruct (step e s); cbn; [apply IH|done..].
Qed.

Lemma reachable_run events s s' :
  reachable s → run events s = Ret s' → reachable s'.
Proof.
  intros [events0 Hr0] Hr. exists (events0 ++ events).
  by rewrite run_app, Hr0.
Qed.

Lemma reachable_step e s s' : reachable s → step e s = Ret s' → reachable s'.
Proof.
  intros Hs He. apply (reachable_run [e] s); [done|]. simpl. by rewrite He.
Qed.

(** *** Arrival order *)

Lemma arrival_split s :
  node_invariant s →
  arrival <$> popped s = seq 0 (length (popped s)) ∧
  arrival <$> submap_processing_queue_ s =
    seq (length (popped s)) (length (submap_processing_queue_ s)).
Proof.
  intros [_ I2 _ _ _ _]. unfold all_submaps in I2.
  assert (num_accepted s =
          length (popped s) + length (submap_processing_queue_ s)) as Hn.
  { apply (f_equal length) in I2.
    by rewrite length_fmap, length_app, length_seq in I2. }
  rewrite Hn, seq_app, fmap_app in I2.
  apply app_inj_1 in I2; [done|]. by rewrite length_fmap, length_seq.
Qed.

(** What a step does to the queue and to the popped structs: either nothing
    is removed, or it is the [pop_front] of a merged front struct. *)
Lemma step_queue e s s' :
  step e s = Ret s' → node_invariant s →
  (popped s' = popped s ∧
   (arrival <$> submap_processing_queue_ s)
     `prefix_of` (arrival <$> submap_processing_queue_ s'))
  ∨ (e = EMerger ∧ submap_merging_thread_ s = MPopFront ∧
     ∃ t rest, submap_processing_queue_ s = t :: rest ∧ is_merged t = true ∧
               submap_processing_queue_ s' = rest ∧
               popped s' = popped s ++ [t]).
Proof.
  intros Hstep Hinv. destruct e as [robot submap_path|a| | |].
  - left. cbn in Hstep. apply bind_Ret in Hstep as ([b s1] & Hs & [= <-]).
    apply loadAndProcessSubmap_Ret in Hs
      as (_ & _ & [(_ & -> & _)|(_ & _ & _ & Hq & Hp & _)]); [done|].
    cbn. rewrite Hq, Hp, fmap_app. split; [done|]. by apply prefix_app_r.
  - left. destruct (job_event _ _ _ Hstep Hinv)
      as (i & t & t' & store & commands & Hi & _ & _ & -> & _ & _ & Hle & _).
    cbn. split; [done|].
    rewrite list_fmap_insert, list_insert_id; [done|].
    rewrite list_lookup_fmap, Hi. cbn.
    destruct Hle as [(-> & _) _]. done.
  - cbn in Hstep. unfold merger_step in Hstep.
    destruct (submap_merging_thread_ s) as [| | |[|c rest]|] eqn:Hpc.
    + left. destruct (shut_down_requested_ s);
        [|destruct (negb (received_first_submap s) && _)];
        by injection Hstep as <-.
    + left. destruct (drain_step_cases _ _ Hstep)
        as [[-> _]|(t & rest & Hq & _ & _ & _ & _ & Hm)].
      * destruct (leave_drain_same s) as (-> & -> & _). done.
      * destruct (merge_front_Ret _ _ _ _ Hm) as (-> & -> & _).
        by rewrite Hq.
    + right. injection Hstep as <-. split; [done|]. split; [done|].
      destruct Hinv as [_ _ _ _ I5 I6].
      assert (at_pop_front s = true) as Hat
        by (unfold at_pop_front; by rewrite Hpc).
      unfold pop_front.
      destruct (submap_processing_queue_ s) as [|t rest] eqn:Hq;
        [by destruct (I6 Hat)|].
      exists t, rest. repeat split; try done.
      by rewrite (I5 0 t eq_refl), Hat.
    + left. by injection Hstep as <-.
    + left. by injection Hstep as <-.
    + done.
  - left. cbn in Hstep. apply bind_Ret in Hstep as (r & _ & [= <-]). done.
  - left. cbn in Hstep. by injection Hstep as <-.
Qed.

(** The scan of the merging thread stops at a front struct that is locked,
    not loaded or not processed. *)
Lemma scan_stops s s' t rest :
  submap_merging_thread_ s = MDraining →
  submap_processing_queue_ s = t :: rest →
  mutex t = true ∨ is_loaded t = false ∨ is_processed t = false →
  step EMerger s = Ret s' →
  s' = leave_drain s.
Proof.
  intros Hpc Hq Hnot. cbn. unfold merger_step. rewrite Hpc. intros Hd.
  destruct (drain_step_cases _ _ Hd)
    as [[-> _]|(t0 & rest0 & Hq0 & _ & Hmu & Hl & Hp & _)]; [done|].
  rewrite Hq in Hq0. injection Hq0 as <- <-. intuition congruence.
Qed.

(** C1: whatever the interleaving of submissions, jobs and the merging
    thread, the structs are popped in the order they arrived and the queue
    holds the later arrivals in order; the scan of the merging thread stops
    at a front struct whose mutex is taken or whose loaded and processed
    flags are not both set, leaving queue and popped structs as they are;
    and a step removes a struct only by popping the front struct after it
    was merged. *)
Theorem merge_order_is_arrival_order events s :
  run events initial_state = Ret s →
  arrival <$> popped s = seq 0 (length (popped s)) ∧
  arrival <$> submap_processing_queue_ s =
    seq (length (popped s)) (length (submap_processing_queue_ s)) ∧
  (∀ t rest s',
     submap_merging_thread_ s = MDraining →
     submap_processing_queue_ s = t :: rest →
     mutex t = true ∨ is_loaded t = false ∨ is_processed t = false →
     step EMerger s = Ret s' →
     queue_mutex_held s' = false ∧
     submap_processing_queue_ s' = submap_processing_queue_ s ∧
     popped s' = popped s) ∧
  (∀ e s',
     step e s = Ret s' →
     (popped s' = popped s ∧
      (arrival <$> submap_processing_queue_ s)
        `prefix_of` (arrival <$> submap_processing_queue_ s'))
     ∨ (e = EMerger ∧ submap_merging_thread_ s = MPopFront ∧
        ∃ t rest, submap_processing_queue_ s = t :: rest ∧
                  is_merged t = true ∧
                  submap_processing_queue_ s' = rest ∧
                  popped s' = popped s ++ [t])).
Proof.
  intros Hrun.
  assert (node_invariant s) as Hinv by (apply reachable_invariant; by eexists).
  destruct (arrival_split s Hinv) as [Hp Hq].
  split; [done|]. split; [done|]. split.
  - intros t rest s' Hpc Hqueue Hnot Hstep.
    rewrite (scan_stops _ _ _ _ Hpc Hqueue Hnot Hstep).
    destruct (leave_drain_same s) as (-> & -> & _ & _ & _ & ->). done.
  - intros e s' Hstep. by apply step_queue.
Qed.

(** *** The flags *)

Lemma consistent_flags t :
  job_consistent t →
  (is_merged t = true → is_processed t = true) ∧
  (is_processed t = true → is_loaded t = true).
Proof.
  unfold job_consistent. destruct (job t); intuition congruence.
Qed.

Lemma unmerged_queue s :
  node_invariant s → at_pop_front s = false →
  Forall (λ t, is_merged t = false) (submap_processing_queue_ s).
Proof.
  intros [_ _ _ _ I5 _] Hat. apply Forall_lookup. intros i t Hi.
  by rewrite (I5 i t Hi), Hat.
Qed.

Lemma unmerged_tail s :
  node_invariant s →
  Forall (λ t, is_merged t = false) (tail (submap_processing_queue_ s)).
Proof.
  intros [_ _ _ _ I5 _]. apply Forall_lookup. intros i t Hi.
  rewrite lookup_tail in Hi. rewrite (I5 (S i) t Hi). apply andb_false_r.
Qed.

Lemma Forall2_submap_le_flags_le (l k : list SubmapProcess) :
  Forall2 submap_le l k → Forall2 flags_le l k.
Proof. induction 1 as [|???? [? _]]; constructor; auto. Qed.

(** C2: in every state of the node, for every struct it ever had, merged
    implies processed and processed implies loaded; from a state to any
    later one the structs stay in place and no flag goes back to false; the
    popped structs are merged, and the structs of the queue are not, except
    the front struct between the assignment of [is_merged] and [pop_front],
    which the merging thread does without releasing the queue mutex, so that
    whoever locks the queue mutex finds no merged struct in the queue. *)
Theorem flags_monotone_and_popped_iff_merged s :
  reachable s →
  Forall (λ t, (is_merged t = true → is_processed t = true) ∧
               (is_processed t = true → is_loaded t = true))
         (all_submaps s) ∧
  (∀ events s', run events s = Ret s' →
     ∃ old new, all_submaps s' = old ++ new ∧
                Forall2 flags_le (all_submaps s) old) ∧
  Forall (λ t, is_merged t = true) (popped s) ∧
  (queue_mutex_held s = false →
     Forall (λ t, is_merged t = false) (submap_processing_queue_ s)) ∧
  (submap_merging_thread_ s ≠ MPopFront →
     Forall (λ t, is_merged t = false) (submap_processing_queue_ s)) ∧
  Forall (λ t, is_merged t = false) (tail (submap_processing_queue_ s)).
Proof.
  intros Hreach. pose proof (reachable_invariant s Hreach) as Hinv.
  repeat split.
  - destruct Hinv as [I1 _ _ _ _ _].
    eapply Forall_impl; [exact I1|]. intros t. apply consistent_flags.
  - intros events s' Hrun.
    destruct (run_invariant _ _ _ Hrun Hinv) as [_ (old & new & E & F)].
    exists old, new. split; [done|by apply Forall2_submap_le_flags_le].
  - by destruct Hinv.
  - intros Hfree. apply unmerged_queue; [done|].
    by apply queue_mutex_free_not_popping.
  - intros Hpc. apply unmerged_queue; [done|].
    unfold at_pop_front. by destruct (submap_merging_thread_ s).
  - by apply unmerged_tail.
Qed.

(** *** Cancelled jobs *)

Lemma job_step_sets_processed t s t' s' :
  job_step t s = Ret (t', s') →
  is_processed t = false → is_processed t' = true →
  job t = JProcessing [].
Proof.
  unfold job_step.
  destruct (job t) as [| | |[|c rest]|rest| | |rest]; try done.
  - destruct (mutex t); [done|]. intros [= <- <-]. simpl. congruence.
  - destruct (hasMap _ _); [done|].
    intros (store & _ & [= <- <-])%bind_Ret. simpl. congruence.
  - intros [= <- <-]. simpl. congruence.
  - intros [= <- <-]. simpl. congruence.
  - destruct (shut_down_requested_ s); intros [= <- <-]; simpl; congruence.
  - intros [= <- <-]. simpl. congruence.
Qed.

Lemma cancelled_stays s s' t skipped :
  node_invariant s → evolves s s' → node_invariant s' →
  t ∈ submap_processing_queue_ s → job t = JCancelled skipped →
  ∃ t', t' ∈ submap_processing_queue_ s' ∧ arrival t' = arrival t ∧
        job t' = JCancelled skipped ∧
        is_processed t' = false ∧ is_merged t' = false.
Proof.
  intros Hinv (old & new & E & F) Hinv' Hin Hjob.
  assert (t ∈ all_submaps s) as Hall
    by (unfold all_submaps; apply elem_of_app; by right).
  apply list_elem_of_lookup in Hall as [i Hi].
  destruct (Forall2_lookup_l _ _ _ _ _ F Hi) as (t' & Hi' & Hle).
  assert (t' ∈ all_submaps s') as Hall'.
  { rewrite E. apply elem_of_app. left. by eapply list_elem_of_lookup_2. }
  destruct Hle as [(Ha & _) [Hc _]]. specialize (Hc _ Hjob).
  destruct Hinv' as [I1 _ _ I4 _ _].
  rewrite Forall_forall in I1, I4.
  pose proof (I1 _ Hall') as Hcons. unfold job_consistent in Hcons.
  rewrite Hc in Hcons. destruct Hcons as (_ & _ & Hp & Hm & _).
  exists t'. repeat split; try done.
  unfold all_submaps in Hall'. apply elem_of_app in Hall' as [Hpop|Hq]; [|done].
  specialize (I4 _ Hpop). congruence.
Qed.

(** C8: a struct is processed only where its job stands after the command
    loop; the step that sets the flag is the one the loop is left by with no
    command remaining; a job that sees the shutdown flag at its test after a
    command returns at once, the struct unlocked, the remaining commands not
    run and the flag as it was; a job that sees no shutdown goes on with the
    loop; a returned job runs no more; and the struct of a cancelled job
    stays in the queue, neither processed nor merged, in every later
    state. *)
Theorem processed_only_after_complete_loop s :
  reachable s →
  Forall (λ t, is_processed t = true → job t = JProcessed ∨ job t = JReturned)
         (all_submaps s) ∧
  (∀ t t' s1 s1', job_step t s1 = Ret (t', s1') →
     is_processed t = false → is_processed t' = true →
     job t = JProcessing []) ∧
  (∀ t rest, job t = JShutdownCheck rest →
     job_step t s =
       if shut_down_requested_ s then
         Ret (set_job t false (JCancelled rest),
              with_submap_commands (delete (map_hash t) (submap_commands_ s)) s)
       else Ret (set_job t true (JProcessing rest), s)) ∧
  (∀ t skipped s1, job t = JCancelled skipped → job_step t s1 = Blocked) ∧
  (∀ t skipped events s',
     t ∈ submap_processing_queue_ s → job t = JCancelled skipped →
     run events s = Ret s' →
     ∃ t', t' ∈ submap_processing_queue_ s' ∧ arrival t' = arrival t ∧
           job t' = JCancelled skipped ∧
           is_processed t' = false ∧ is_merged t' = false).
Proof.
  intros Hreach. pose proof (reachable_invariant s Hreach) as Hinv.
  repeat split.
  - destruct Hinv as [I1 _ _ _ _ _].
    eapply Forall_impl; [exact I1|]. intros t. unfold job_consistent.
    destruct (job t); intuition congruence.
  - intros t t' s1 s1'. apply job_step_sets_processed.
  - intros t rest Hjob. unfold job_step. by rewrite Hjob.
  - intros t skipped s1 Hjob. unfold job_step. by rewrite Hjob.
  - intros t skipped events s' Hin Hjob Hrun.
    destruct (run_invariant _ _ _ Hrun Hinv) as [Hinv' Hev].
    exact (cancelled_stays s s' t skipped Hinv Hev Hinv' Hin Hjob).
Qed.

(** *** The merged map *)

Lemma assoc_assoc_set {A} k (f : A → A) (l : list (N * A)) :
  assoc k (assoc_set k f l) = f <$> assoc k l.
Proof.
  induction l as [|[k' a] l IH]; simpl; [done|].
  destruct (N.eqb_spec k k') as [->|Hne]; simpl.
  - by rewrite N.eqb_refl.
  - destruct (N.eqb_spec k k'); [done|]. apply IH.
Qed.

Lemma assoc_assoc_set_ne {A} k k' (f : A → A) (l : list (N * A)) :
  k' ≠ k → assoc k' (assoc_set k f l) = assoc k' l.
Proof.
  intros Hne. induction l as [|[k0 a] l IH]; simpl; [done|].
  destruct (N.eqb_spec k k0) as [->|Hk]; simpl.
  - by destruct (N.eqb_spec k' k0).
  - destruct (N.eqb_spec k' k0); [done|]. apply IH.
Qed.

Lemma initialize_merged_map_Ret key (store store' : gmap string VIMap) :
  initialize_merged_map key store = Ret store' →
  ∃ submap id mission frame,
    store !! key = Some submap ∧ missions submap = [(id, mission)] ∧
    assoc (base_frame_id mission) (mission_base_frames submap) = Some frame ∧
    store' = <[kMergedMapKey := with_T_G_M_known submap (base_frame_id mission)]>
               (delete key store) ∧
    getMissionBaseFrameForMission
      (with_T_G_M_known submap (base_frame_id mission)) id
      = Ret (set_is_T_G_M_known true frame).
Proof.
  unfold initialize_merged_map, renameMap. intros Hi.
  apply bind_Ret in Hi as (store1 & Hren & Hi).
  apply bind_Ret in Hren as (submap & Hsub%getChecked_Ret & [= <-]).
  unfold getMapAccess in Hi. rewrite lookup_insert_eq in Hi. cbn in Hi.
  apply bind_Ret in Hi as (_ & Hone%CHECK_Ret & Hi).
  apply bind_Ret in Hi as (_ & _ & Hi).
  apply bind_Ret in Hi as (mission & Hmission%getChecked_Ret & Hi).
  apply bind_Ret in Hi as (_ & _ & Hi).
  apply bind_Ret in Hi as (map' & Hmark & [= <-]).
  unfold mark_T_G_M_known in Hmark.
  apply bind_Ret in Hmark as (frame & Hframe%getChecked_Ret & [= <-]).
  unfold numMissions in Hone. apply Nat.eqb_eq in Hone.
  unfold getIdOfFirstMission in *.
  destruct (missions submap) as [|[id mission0] [|]] eqn:Hmissions; try done.
  simpl in Hmission. rewrite N.eqb_refl in Hmission. injection Hmission as ->.
  exists submap, id, mission, frame. repeat split; try done.
  - rewrite insert_insert_eq. unfold with_T_G_M_known. by rewrite Hmissions.
  - unfold getMissionBaseFrameForMission, getMission, getMissionBaseFrame,
      with_T_G_M_known. cbn. rewrite Hmissions. cbn. rewrite N.eqb_refl. cbn.
    by rewrite assoc_assoc_set, Hframe.
Qed.

Lemma merge_into_merged_map_Ret key (store store' : gmap string VIMap) :
  merge_into_merged_map key store = Ret store' →
  ∃ base submap merged,
    store !! kMergedMapKey = Some base ∧ store !! key = Some submap ∧
    merge_maps base submap = Some merged ∧
    store' = delete key (<[kMergedMapKey := merged]> store).
Proof.
  unfold merge_into_merged_map, mergeSubmapIntoBaseMap, deleteMap.
  intros (store1 & Hm%getChecked_Ret & [= <-])%bind_Ret.
  destruct (store !! kMergedMapKey) as [base|]; [|done].
  destruct (store !! key) as [submap|]; [|done]. cbn in Hm.
  destruct (merge_maps base submap) as [merged|] eqn:Hmerge; [|done].
  injection Hm as <-. by exists base, submap, merged.
Qed.

Lemma RunCommand_lookup key command (store : gmap string VIMap) :
  (RunCommand key command store).2 !! key = None ↔ store !! key = None.
Proof.
  unfold RunCommand. destruct (store !! key) eqn:E; simpl; [|done].
  by rewrite lookup_insert_eq.
Qed.

Lemma some_merged_spec s :
  node_invariant s → (some_merged s = false ↔ nothing_merged s).
Proof.
  intros Hinv. pose proof Hinv as [_ _ _ I4 I5 I6].
  unfold some_merged, nothing_merged, all_submaps. split.
  - destruct (popped s); [|done]. intros Hat. by apply unmerged_queue.
  - rewrite Forall_app. intros [Hp Hq].
    destruct (popped s) as [|t l].
    + destruct (at_pop_front s) eqn:Hat; [|done].
      destruct (submap_processing_queue_ s) as [|t rest] eqn:E;
        [by destruct (I6 eq_refl)|].
      apply Forall_cons in Hq as [Hq _].
      by rewrite (I5 0 t eq_refl) in Hq.
    + apply Forall_cons in Hp as [Hp _]. apply Forall_cons in I4 as [I4 _].
      congruence.
Qed.

Section MergedMapKey.
Hypothesis merged_key_not_derived : ends_with_digit kMergedMapKey = false.

Lemma derived_key_not_merged_key robot hash :
  derive_map_key robot hash ≠ kMergedMapKey.
Proof using merged_key_not_derived.
  intros E. pose proof (derive_map_key_ends_with_digit robot hash) as Hd.
  rewrite E in Hd. congruence.
Qed.

Lemma merged_map_tracks_same s s' :
  popped s' = popped s → at_pop_front s' = at_pop_front s →
  (map_manager_ s' !! kMergedMapKey = None ↔
   map_manager_ s !! kMergedMapKey = None) →
  merged_map_tracks s → merged_map_tracks s'.
Proof.
  unfold merged_map_tracks, some_merged. intros -> -> ->. done.
Qed.

Lemma merged_map_step e s s' :
  step e s = Ret s' → node_invariant s →
  merged_map_tracks s → merged_map_tracks s'.
Proof using merged_key_not_derived.
  intros Hstep Hinv Htr. destruct e as [robot submap_path|a| | |].
  - cbn in Hstep. apply bind_Ret in Hstep as ([b s1] & Hs & [= <-]).
    apply loadAndProcessSubmap_Ret in Hs
      as (_ & _ & [(_ & -> & _)|(_ & _ & _ & _ & Hp & _ & Hpc & Hst)]);
      [done|].
    eapply merged_map_tracks_same; [..|exact Htr]; cbn.
    + done.
    + unfold at_pop_front. by rewrite Hpc.
    + by rewrite Hst.
  - destruct (job_event _ _ _ Hstep Hinv)
      as (i & t & t' & store & commands & Hi & _ & _ & -> & _ & _ & _ &
          _ & _ & _ & Hstore).
    eapply merged_map_tracks_same; [..|exact Htr]; cbn; try done.
    rewrite Hstore; [done|].
    destruct Hinv as [_ _ I3 _ _ _]. rewrite Forall_forall in I3.
    rewrite (I3 t).
    + intros E. symmetry in E. by apply derived_key_not_merged_key in E.
    + unfold all_submaps. apply elem_of_app. right.
      by eapply list_elem_of_lookup_2.
  - cbn in Hstep. unfold merger_step in Hstep.
    destruct (submap_merging_thread_ s) as [| | |[|c rest]|] eqn:Hpc.
    + destruct (shut_down_requested_ s);
        [|destruct (negb (received_first_submap s) && _)];
        injection Hstep as <-; try done;
        (eapply merged_map_tracks_same; [..|exact Htr]; cbn; try done);
        unfold at_pop_front; by rewrite Hpc.
    + destruct (drain_step_cases _ _ Hstep)
        as [[-> _]|(t & rest & Hq & _ & _ & _ & _ & Hm)].
      * destruct (leave_drain_same s) as (_ & Ep & _ & Es & Ea & _).
        eapply merged_map_tracks_same; [..|exact Htr]; try done.
        -- rewrite Ea. unfold at_pop_front. by rewrite Hpc.
        -- by rewrite Es.
      * destruct (merge_front_Ret _ _ _ _ Hm)
          as (_ & Hp & _ & Hpc' & _ & _ & _ & _ & [m Hsome] & _).
        unfold merged_map_tracks, some_merged, at_pop_front.
        rewrite Hp, Hpc', Hsome. by destruct (popped s).
    + injection Hstep as <-.
      assert (some_merged s = true) as Hsm.
      { unfold some_merged, at_pop_front. rewrite Hpc.
        by destruct (popped s). }
      destruct Hinv as [_ _ _ _ _ I6].
      unfold pop_front.
      destruct (submap_processing_queue_ s) as [|t rest] eqn:Hq; [done|].
      unfold merged_map_tracks in *. cbn.
      unfold some_merged. cbn.
      destruct (popped s ++ [t]) eqn:E;
        [by apply app_nil in E as [_ ?]|].
      rewrite <- Htr, Hsm. done.
    + injection Hstep as <-.
      eapply merged_map_tracks_same; [..|exact Htr]; cbn; try done.
      unfold at_pop_front. by rewrite Hpc.
    + injection Hstep as <-.
      eapply merged_map_tracks_same; [..|exact Htr]; cbn; try done.
      * unfold at_pop_front. by rewrite Hpc.
      * apply RunCommand_lookup.
    + done.
  - cbn in Hstep. apply bind_Ret in Hstep as (r & _ & [= <-]). done.
  - cbn in Hstep. injection Hstep as <-.
    eapply merged_map_tracks_same; [..|exact Htr]; done.
Qed.

Lemma merged_map_run events s s' :
  run events s = Ret s' → node_invariant s →
  merged_map_tracks s → merged_map_tracks s'.
Proof using merged_key_not_derived.
  revert s. induction events as [|e r IH]; intros s; simpl.
  - by intros [= <-].
  - intros (s1 & Hs & Hr)%bind_Ret Hi Htr.
    destruct (step_invariant _ _ _ Hs Hi) as [Hi1 _].
    apply (IH s1); [done..|]. by eapply merged_map_step.
Qed.

Lemma reachable_merged_map s : reachable s → merged_map_tracks s.
Proof using merged_key_not_derived.
  intros [events Hrun].
  apply (merged_map_run _ _ _ Hrun initial_invariant). done.
Qed.

End MergedMapKey.

(** C9: the merged map is absent exactly as long as nothing was merged; a
    merge done while it is absent removes the submap's entry and puts its
    map under the key of the merged map, with the same missions and sensors
    and with [is_T_G_M_known] true in the base frame of its one mission,
    whose [T_G_M] and the other base frames are as they were; a merge done
    once it exists replaces the merged map by the result of merging the
    submap into it and removes the submap's entry. *)
Theorem merged_map_from_first_merge s :
  ends_with_digit kMergedMapKey = false →
  reachable s →
  (nothing_merged s ↔ map_manager_ s !! kMergedMapKey = None) ∧
  (∀ s',
     submap_merging_thread_ s = MDraining →
     step EMerger s = Ret s' →
     submap_merging_thread_ s' = MPopFront →
     front_merged s s').
Proof.
  intros Hkey Hreach.
  pose proof (reachable_invariant s Hreach) as Hinv.
  pose proof (reachable_merged_map Hkey s Hreach) as Htr.
  pose proof (some_merged_spec s Hinv) as Hsm.
  unfold merged_map_tracks in Htr.
  split; [by rewrite <- Hsm|].
  intros s' Hpc Hstep Hpc'. cbn in Hstep. unfold merger_step in Hstep.
  rewrite Hpc in Hstep.
  destruct (drain_step_cases _ _ Hstep)
    as [[-> _]|(t & rest & Hq & _ & _ & _ & _ & Hm)].
  { unfold leave_drain in Hpc'. by destruct (received_first_submap s). }
  destruct (merge_front_Ret _ _ _ _ Hm)
    as (Hq' & _ & _ & _ & _ & [submap Hsub] & Hstore & Hrec & _ & Hgone).
  exists t, rest, submap. repeat split; try done.
  unfold first_submap_adopted, submap_merged_into_base.
  destruct (hasMap (map_manager_ s) kMergedMapKey) eqn:Hhas.
  - right. apply hasMap_true in Hhas as [base Hbase].
    split; [rewrite <- Hsm, Htr; congruence|].
    apply merge_into_merged_map_Ret in Hstore
      as (base' & submap' & merged & Hb & Hs & Hmerge & ->).
    exists base', merged. rewrite Hsub in Hs. injection Hs as <-. done.
  - left. apply hasMap_false in Hhas.
    split; [by rewrite <- Hsm, Htr|].
    apply initialize_merged_map_Ret in Hstore
      as (submap' & id & mission & frame & Hs & Hmi & Hfr & -> & Hknown).
    rewrite Hsub in Hs. injection Hs as <-.
    exists id, mission, frame,
      (with_T_G_M_known submap (base_frame_id mission)),
      (set_is_T_G_M_known true frame).
    repeat split; try done.
    intros other Hother. unfold with_T_G_M_known. cbn.
    by apply assoc_assoc_set_ne.
Qed.

(** *** The status report *)

(** C5: the error line is written exactly for a struct found merged with
    its mutex free, and a struct found merged with its mutex taken gets the
    line "merged"; a struct that is not merged gets the line its processed
    and loaded flags and its mutex select; and in a report of the status
    thread, which holds the queue mutex, no line is the error line or the
    line "merged". *)
Theorem status_error_iff_merged_and_unlocked :
  (∀ t, submap_status t = LabelError ↔ is_merged t = true ∧ mutex t = false) ∧
  (∀ t, submap_status t = LabelMerged ↔ is_merged t = true ∧ mutex t = true) ∧
  (∀ t, is_merged t = false →
     submap_status t =
       match is_processed t, is_loaded t, mutex t with
       | true, _, true => LabelMerging
       | true, _, false => LabelReadyToMerge
       | false, true, true => LabelProcessing
       | false, true, false => LabelQueuedForProcessing
       | false, false, true => LabelLoading
       | false, false, false => LabelQueuedForLoading
       end) ∧
  (∀ s lines, reachable s → status_report s = Ret lines →
     Forall (λ line, line.2 ≠ LabelError ∧ line.2 ≠ LabelMerged) lines).
Proof.
  split; [|split; [|split]].
  - intros t. unfold submap_status, was_locked_by_other_process.
    destruct (is_merged t), (is_processed t), (is_loaded t), (mutex t);
      simpl; split; intros; try done; intuition congruence.
  - intros t. unfold submap_status, was_locked_by_other_process.
    destruct (is_merged t), (is_processed t), (is_loaded t), (mutex t);
      simpl; split; intros; try done; intuition congruence.
  - intros t Hm. unfold submap_status, was_locked_by_other_process.
    rewrite Hm.
    by destruct (is_processed t), (is_loaded t), (mutex t).
  - intros s lines Hreach Hrep. unfold status_report in Hrep.
    destruct (queue_mutex_held s) eqn:Hfree; [done|]. injection Hrep as <-.
    apply Forall_fmap.
    pose proof (unmerged_queue s (reachable_invariant s Hreach)
                  (queue_mutex_free_not_popping s Hfree)) as Hun.
    eapply Forall_impl; [exact Hun|]. intros t Hm. simpl.
    unfold submap_status, was_locked_by_other_process. rewrite Hm.
    by destruct (is_processed t), (is_loaded t), (mutex t).
Qed.

(** *** Submissions and their keys *)

(** C6: with an empty robot name or an empty path [loadAndProcessSubmap]
    fails a [CHECK]: the process aborts before any state is touched, no
    struct is created and nothing is enqueued; false is returned, the state
    left as it is, for a submission made after shutdown was requested. *)
Theorem empty_name_or_path_aborts robot submap_path s :
  (string_empty robot = true ∨ string_empty submap_path = true →
     loadAndProcessSubmap robot submap_path s = Fatal ∧
     step (ESubmit robot submap_path) s = Fatal) ∧
  (string_empty robot = false → string_empty submap_path = false →
   shut_down_requested_ s = true →
     loadAndProcessSubmap robot submap_path s = Ret (false, s)).
Proof.
  split.
  - assert (string_empty robot = true ∨ string_empty submap_path = true →
            loadAndProcessSubmap robot submap_path s = Fatal) as Hf.
    { unfold loadAndProcessSubmap.
      destruct (string_empty submap_path); [done|].
      destruct (string_empty robot); [done|]. intros [|]; done. }
    intros Hempty. split; [by apply Hf|]. cbn. by rewrite Hf.
  - intros Hr Hp Hsd. unfold loadAndProcessSubmap.
    rewrite Hr, Hp. cbn. by rewrite Hsd.
Qed.

Lemma run_job_at q i t s :
  NoDup (arrival <$> q) → q !! i = Some t →
  run_job (arrival t) q s =
    (r ← job_step t s; Ret (<[i := r.1]> q, r.2)).
Proof.
  revert i. induction q as [|u q IH]; intros i Hnd Hi; [done|].
  rewrite fmap_cons in Hnd. apply NoDup_cons in Hnd as [Hu Hnd].
  destruct i as [|i]; simpl in *.
  - injection Hi as ->. rewrite Nat.eqb_refl.
    by destruct (job_step t s) as [[t' s']| |].
  - destruct (Nat.eqb_spec (arrival u) (arrival t)) as [E|_].
    + destruct Hu. rewrite E. apply list_elem_of_fmap.
      exists t. split; [done|]. by eapply list_elem_of_lookup_2.
    + rewrite (IH i Hnd Hi).
      by destruct (job_step t s) as [[t' s']| |].
Qed.

Lemma queue_arrivals_NoDup s :
  node_invariant s → NoDup (arrival <$> submap_processing_queue_ s).
Proof.
  intros Hinv. destruct (arrival_split s Hinv) as [_ ->]. apply NoDup_seq.
Qed.

(** C7: the key is derived from the robot name and the hash of the path: two
    submissions get the same key exactly when their robot names are equal
    and their paths have the same hash; the struct put at the back of the
    queue carries that key; and a job about to load a submap under a key the
    map manager already has aborts the process. *)
Theorem map_key_from_robot_name_and_path_hash :
  (∀ robot1 path1 n1 robot2 path2 n2,
     map_key (new_submap_process robot1 path1 n1)
       = map_key (new_submap_process robot2 path2 n2)
     ↔ robot1 = robot2 ∧ std_hash path1 = std_hash path2) ∧
  (∀ robot submap_path s s',
     loadAndProcessSubmap robot submap_path s = Ret (true, s') →
     last (submap_processing_queue_ s')
       = Some (new_submap_process robot submap_path (num_accepted s))) ∧
  (∀ t s, job t = JLoading → hasMap (map_manager_ s) (map_key t) = true →
          job_step t s = Fatal) ∧
  (∀ t s, reachable s → t ∈ submap_processing_queue_ s →
          job t = JLoading → hasMap (map_manager_ s) (map_key t) = true →
          step (EJob (arrival t)) s = Fatal).
Proof.
  assert (∀ t s, job t = JLoading →
                 hasMap (map_manager_ s) (map_key t) = true →
                 job_step t s = Fatal) as Hfatal.
  { intros t s Hjob Hhas. unfold job_step. by rewrite Hjob, Hhas. }
  split; [|split; [|split]].
  - intros robot1 path1 n1 robot2 path2 n2. simpl. split.
    + apply derive_map_key_inj.
    + by intros [-> ->].
  - intros robot submap_path s s' Hs.
    apply loadAndProcessSubmap_Ret in Hs
      as (_ & _ & [(? & _)|(_ & _ & _ & -> & _)]); [done|].
    by rewrite last_snoc.
  - done.
  - intros t s Hreach Hin Hjob Hhas.
    apply list_elem_of_lookup in Hin as [i Hi].
    pose proof (queue_arrivals_NoDup s (reachable_invariant s Hreach)) as Hnd.
    cbn. rewrite (run_job_at _ i t s Hnd Hi).
    by rewrite (Hfatal t s Hjob Hhas).
Qed.

End PipelineFacts.

(** ** More of the pipeline *)

Section MoreFacts.
Context `{PoseTypes} `{!Geometry} `{!MapEngine}.

Implicit Types (s : ServerState) (t : SubmapProcess) (e : Event).

(** *** Every step that returns is one of eight *)

Lemma merge_front_state t rest s s' :
  merge_front t rest s = Ret s' →
  ∃ submap,
    map_manager_ s !! map_key t = Some submap ∧
    numMissions submap = 1 ∧
    isValid (getIdOfFirstMission submap) = true ∧
    robot_to_mission_id_map_ s' =
      (if negb (string_empty (robot_name t)) then
         <[robot_name t := getIdOfFirstMission submap]>
           (robot_to_mission_id_map_ s)
       else robot_to_mission_id_map_ s) ∧
    submap_commands_ s' = submap_commands_ s ∧
    current_merge_command_ s' = "merging submap".
Proof.
  unfold merge_front. intros Hm.
  apply bind_Ret in Hm as (_ & _ & Hm).
  apply bind_Ret in Hm as (_ & _ & Hm).
  apply bind_Ret in Hm as (submap & Hsub%getChecked_Ret & Hm).
  apply bind_Ret in Hm as (_ & Hone%CHECK_Ret%Nat.eqb_eq & Hm).
  apply bind_Ret in Hm as (store & _ & Hm).
  apply bind_Ret in Hm as (_ & _ & Hm).
  apply bind_Ret in Hm as (_ & _ & Hm).
  apply bind_Ret in Hm as (_ & Hvalid%CHECK_Ret & Hm).
  injection Hm as <-. by exists submap.
Qed.

Lemma step_view_of e s s' :
  step e s = Ret s' → node_invariant s → step_view s s'.
Proof.
  intros Hstep Hinv. destruct e as [robot submap_path|a| | |].
  - cbn in Hstep. apply bind_Ret in Hstep as ([b s1] & Hs & [= <-]). cbn.
    unfold loadAndProcessSubmap in Hs.
    apply bind_Ret in Hs as (_ & Hp%CHECK_Ret%negb_true_iff & Hs).
    apply bind_Ret in Hs as (_ & Hr%CHECK_Ret%negb_true_iff & Hs).
    destruct (shut_down_requested_ s) eqn:Hsd;
      [injection Hs as <- <-; by apply view_same|].
    destruct (queue_mutex_held s) eqn:Hfree; [done|].
    injection Hs as <- <-. apply (view_submit _ _ robot submap_path); try done.
    by rewrite Hsd.
  - destruct (job_event _ _ _ Hstep Hinv)
      as (i & t & t' & store & commands & Hi & _ & Hjob & -> & _).
    by apply (view_job _ _ i t t' store commands).
  - cbn in Hstep. unfold merger_step in Hstep.
    destruct (submap_merging_thread_ s) as [| | |[|c rest]|] eqn:Hpc.
    + assert (at_pop_front s = false) as Hat
        by (unfold at_pop_front; by rewrite Hpc).
      destruct (shut_down_requested_ s);
        [|destruct (negb (received_first_submap s) && _)];
        injection Hstep as <-;
        [by apply (view_merger_moves _ _ MExited (merging_thread_busy_ s)
                     (current_merge_command_ s))
        |by apply view_same
        |by apply (view_merger_moves _ _ MDraining true
                     (current_merge_command_ s))].
    + assert (at_pop_front s = false) as Hat
        by (unfold at_pop_front; by rewrite Hpc).
      destruct (drain_step_cases _ _ Hstep)
        as [[-> _]|(t & rest & Hq & Hsd & Hmu & Hl & Hp & Hm)].
      * unfold leave_drain.
        destruct (received_first_submap s) eqn:Hrec.
        -- by apply (view_merger_moves _ _ (MGlobalMap global_map_commands)
                       true (current_merge_command_ s)).
        -- by apply (view_merger_moves _ _ MLoopTop false
                       (current_merge_command_ s)).
      * by apply (view_merge _ _ t rest).
    + injection Hstep as <-.
      destruct Hinv as [_ _ _ _ I5 I6].
      assert (at_pop_front s = true) as Hat
        by (unfold at_pop_front; by rewrite Hpc).
      destruct (submap_processing_queue_ s) as [|t rest] eqn:Hq;
        [by destruct (I6 Hat)|].
      eapply (view_pop _ _ t rest); try done.
      by rewrite (I5 0 t eq_refl), Hat.
    + injection Hstep as <-.
      apply (view_merger_moves _ _ MLoopTop false ""); try done.
      unfold at_pop_front. by rewrite Hpc.
    + injection Hstep as <-. by apply (view_global _ _ c rest).
    + done.
  - cbn in Hstep. apply bind_Ret in Hstep as (r & _ & [= <-]).
    by apply view_same.
  - cbn in Hstep. injection Hstep as <-. by apply view_shutdown.
Qed.

(** *** What a step does to the map manager and the command table *)

Lemma job_step_store t s t' s' :
  job_step t s = Ret (t', s') →
  (∀ k, is_Some (map_manager_ s !! k) → is_Some (map_manager_ s' !! k)) ∧
  (past_load (job t') = true →
     past_load (job t) = true ∨
     (map_manager_ s !! map_key t = None ∧
      is_Some (map_manager_ s' !! map_key t))) ∧
  (past_load (job t) = true → past_load (job t') = true).
Proof.
  unfold job_step.
  destruct (job t) as [| | |[|c rest]|rest| | |rest] eqn:Hjob; try done.
  - destruct (mutex t); [done|]. intros [= <- <-]. cbn. auto.
  - destruct (hasMap _ _) eqn:Hhas; [done|]. apply hasMap_false in Hhas.
    intros (store & Hl%getChecked_Ret & [= <- <-])%bind_Ret. cbn.
    unfold loadMapFromFolder in Hl.
    destruct (map_on_disk (path t)); [|done]. injection Hl as <-.
    split; [|split; [|done]].
    + intros k Hk. destruct (decide (map_key t = k)) as [<-|Hne].
      * by rewrite lookup_insert_eq.
      * by rewrite lookup_insert_ne.
    + intros _. right. by rewrite lookup_insert_eq.
  - intros [= <- <-]. cbn. auto.
  - intros [= <- <-]. cbn. auto.
  - intros [= <- <-]. cbn. split; [|auto].
    intros k Hk. unfold RunCommand.
    destruct (map_manager_ s !! map_key t) eqn:E; simpl; [|done].
    destruct (decide (map_key t = k)) as [<-|Hne].
    + by rewrite lookup_insert_eq.
    + by rewrite lookup_insert_ne.
  - destruct (shut_down_requested_ s); intros [= <- <-]; cbn; auto.
  - intros [= <- <-]. cbn. auto.
Qed.

Lemma loaded_past_load t :
  job_consistent t → is_loaded t = true → past_load (job t) = true.
Proof.
  unfold job_consistent.
  destruct (job t); intros Hc Hl; try done; destruct_and!; congruence.
Qed.

Lemma job_step_commands t s t' s' :
  job_step t s = Ret (t', s') →
  (∃ c, submap_commands_ s' = <[map_hash t := c]> (submap_commands_ s) ∧
        job_in_loop t' = true)
  ∨ submap_commands_ s' = delete (map_hash t) (submap_commands_ s)
  ∨ (submap_commands_ s' = submap_commands_ s ∧
     (job_in_loop t = true → job_in_loop t' = true)).
Proof.
  unfold job_step, job_in_loop.
  destruct (job t) as [| | |[|c rest]|rest| | |rest]; try done.
  - destruct (mutex t); [done|]. intros [= <- <-]. left. by eexists.
  - destruct (hasMap _ _); [done|].
    intros (store & _ & [= <- <-])%bind_Ret. right; right. done.
  - intros [= <- <-]. right; right. done.
  - intros [= <- <-]. right; left. done.
  - intros [= <- <-]. left. by eexists.
  - destruct (shut_down_requested_ s); intros [= <- <-].
    + right; left. done.
    + right; right. done.
  - intros [= <- <-]. right; right. done.
Qed.

Lemma merge_front_store t rest s s' :
  merge_front t rest s = Ret s' →
  ∀ k, k ≠ map_key t → is_Some (map_manager_ s !! k) →
       is_Some (map_manager_ s' !! k).
Proof.
  intros Hm k Hk Hsome.
  destruct (merge_front_Ret _ _ _ _ Hm)
    as (_ & _ & _ & _ & _ & _ & Hstore & _).
  destruct (hasMap (map_manager_ s) kMergedMapKey).
  - apply merge_into_merged_map_Ret in Hstore
      as (base & submap & merged & _ & _ & _ & ->).
    rewrite lookup_delete_ne by done.
    destruct (decide (kMergedMapKey = k)) as [<-|Hne].
    + by rewrite lookup_insert_eq.
    + by rewrite lookup_insert_ne.
  - apply initialize_merged_map_Ret in Hstore
      as (submap & id & mission & frame & _ & _ & _ & -> & _).
    destruct (decide (kMergedMapKey = k)) as [<-|Hne].
    + by rewrite lookup_insert_eq.
    + rewrite lookup_insert_ne by done. by rewrite lookup_delete_ne.
Qed.

Lemma RunCommand_is_Some key command (store : gmap string VIMap) k :
  is_Some (store !! k) → is_Some ((RunCommand key command store).2 !! k).
Proof.
  intros Hk. unfold RunCommand. destruct (store !! key) eqn:E; simpl; [|done].
  destruct (decide (key = k)) as [<-|Hne].
  - by rewrite lookup_insert_eq.
  - by rewrite lookup_insert_ne.
Qed.

Lemma set_merged_fields t :
  let t' := set_job (set_is_merged t) false (job t) in
  robot_name t' = robot_name t ∧ path t' = path t ∧ map_key t' = map_key t ∧
  map_hash t' = map_hash t ∧ job t' = job t ∧ is_merged t' = true ∧
  is_loaded t' = is_loaded t ∧ is_processed t' = is_processed t.
Proof. done. Qed.

Lemma holds_map_job_step t s t' s' :
  job_step t s = Ret (t', s') → job_consistent t →
  (holds_map t' = true →
   holds_map t = true ∨
   (map_manager_ s !! map_key t = None ∧
    is_Some (map_manager_ s' !! map_key t))) ∧
  (holds_map t = true → holds_map t' = true).
Proof.
  intros Hjob Hc.
  destruct (job_step_Ret _ _ _ _ Hjob Hc) as (_ & _ & Hm & Hm' & _).
  destruct (job_step_store _ _ _ _ Hjob) as (_ & Hl & Hmono).
  unfold holds_map. rewrite Hm, Hm', !andb_true_r. done.
Qed.

(** *** Names, index, loaded maps and command table *)

Lemma queue_consistent s i t :
  node_invariant s → submap_processing_queue_ s !! i = Some t →
  job_consistent t.
Proof.
  intros [I1 _ _ _ _ _] Hi. rewrite Forall_forall in I1. apply I1.
  unfold all_submaps. apply elem_of_app. right.
  by eapply list_elem_of_lookup_2.
Qed.

Lemma queue_unmerged s i t :
  node_invariant s → at_pop_front s = false →
  submap_processing_queue_ s !! i = Some t → is_merged t = false.
Proof. intros [_ _ _ _ I5 _] Hat Hi. by rewrite (I5 i t Hi), Hat. Qed.

Lemma well_named_le t t' : submap_le t t' → well_named t → well_named t'.
Proof.
  intros [(_ & Hp & Hr & Hk & _) _] (? & ? & ?).
  unfold well_named. by rewrite <- Hp, <- Hr, <- Hk.
Qed.

Lemma names_step s s' :
  step_view s s' → node_invariant s →
  Forall well_named (all_submaps s) → Forall well_named (all_submaps s').
Proof.
  intros Hview Hinv Hn.
  destruct Hview as [->|robot submap_path Hsd Hfree Hr Hp ->
                    |i t t' store commands Hi Hjob ->
                    |pc busy command Hat Hpc Hrec ->
                    |t rest Hpc Hq Hsd Hmu Hl Hp Hm
                    |t rest Hpc Hq Hmerged ->
                    |command rest Hpc ->
                    | -> ]; try done.
  - unfold all_submaps in *. cbn. rewrite app_assoc.
    apply Forall_app. split; [done|]. by apply Forall_singleton.
  - unfold all_submaps in *. cbn. apply Forall_app in Hn as [Hn1 Hn2].
    apply Forall_app. split; [done|]. apply Forall_insert; [done|].
    destruct (job_step_Ret _ _ _ _ Hjob (queue_consistent _ _ _ Hinv Hi))
      as (_ & Hle & _).
    apply (well_named_le t); [done|].
    rewrite Forall_forall in Hn2. apply Hn2. by eapply list_elem_of_lookup_2.
  - destruct (merge_front_Ret _ _ _ _ Hm) as (Hq' & Hp' & _).
    unfold all_submaps in *. rewrite Hq', Hp'. rewrite Hq in Hn.
    apply Forall_app in Hn as [Hn1 [Hn2 Hn3]%Forall_cons].
    apply Forall_app. split; [done|]. by apply Forall_cons.
  - destruct (pop_front_invariant s Hpc Hinv) as [_ ->]. done.
Qed.

Lemma evolves_elem s s' t :
  evolves s s' → t ∈ all_submaps s →
  ∃ t', t' ∈ all_submaps s' ∧ submap_le t t'.
Proof.
  intros (old & new & E & F) [i Hi]%list_elem_of_lookup.
  destruct (Forall2_lookup_l _ _ _ _ _ F Hi) as (t' & Hi' & Hle).
  exists t'. split; [|done]. rewrite E. apply elem_of_app. left.
  by eapply list_elem_of_lookup_2.
Qed.

Lemma index_same s s' :
  robot_to_mission_id_map_ s' = robot_to_mission_id_map_ s →
  evolves s s' → index_backed s → index_backed s'.
Proof.
  intros E Hev Hidx robot id Hr. rewrite E in Hr.
  destruct (Hidx robot id Hr) as (Hv & Hne & t & Hin & Hm & Hname).
  split; [done|]. split; [done|].
  destruct (evolves_elem _ _ _ Hev Hin)
    as (t' & Hin' & (_ & _ & Hrn & _ & _ & _ & Hm') & _).
  exists t'. split; [done|]. split; [by apply Hm'|congruence].
Qed.

Lemma index_step e s s' :
  step e s = Ret s' → node_invariant s →
  Forall well_named (all_submaps s) →
  index_backed s → index_backed s'.
Proof.
  intros Hstep Hinv Hn Hidx.
  destruct (step_invariant _ _ _ Hstep Hinv) as [_ Hev].
  destruct (step_view_of _ _ _ Hstep Hinv)
    as [E|robot submap_path Hsd Hfree Hr Hp E
       |i t t' store commands Hi Hjob E
       |pc busy command Hat Hpc Hrec E
       |t rest Hpc Hq Hsd Hmu Hl Hp Hm
       |t rest Hpc Hq Hmerged E
       |command rest Hpc E
       |E].
  1-4, 6-8: apply (index_same s); [|done..]; rewrite E; try done.
  - unfold pop_front. by rewrite Hq.
  - destruct (merge_front_state _ _ _ _ Hm)
      as (submap & _ & _ & Hvalid & Hindex & _).
    destruct (merge_front_Ret _ _ _ _ Hm) as (Hq' & Hp' & _).
    assert (well_named t) as (Hname & _).
    { rewrite Forall_forall in Hn. apply Hn. unfold all_submaps.
      rewrite Hq. apply elem_of_app. right. by left. }
    rewrite Hname in Hindex. cbn in Hindex.
    intros robot id Hr. rewrite Hindex in Hr.
    destruct (decide (robot_name t = robot)) as [<-|Hne].
    + rewrite lookup_insert_eq in Hr. injection Hr as <-.
      split; [done|]. split; [done|].
      exists (set_job (set_is_merged t) false (job t)).
      split; [|done]. unfold all_submaps. rewrite Hq'.
      apply elem_of_app. right. by left.
    + rewrite lookup_insert_ne in Hr by done.
      destruct (Hidx robot id Hr) as (Hv & Hne' & u & Hin & Hm' & Hu).
      split; [done|]. split; [done|].
      destruct (evolves_elem _ _ _ Hev Hin)
        as (u' & Hin' & (_ & _ & Hrn & _ & _ & _ & Hmu') & _).
      exists u'. split; [done|]. split; [by apply Hmu'|congruence].
Qed.

Lemma held_step s s' :
  step_view s s' → node_invariant s →
  maps_held s → keys_distinct s → maps_held s' ∧ keys_distinct s'.
Proof.
  intros Hview Hinv Hheld Hdist.
  destruct Hview as [->|robot submap_path Hsd Hfree Hr Hp ->
                    |i0 t0 t0' store commands Hi0 Hjob ->
                    |pc busy command Hat Hpc Hrec ->
                    |t rest Hpc Hq Hsd Hmu Hl Hp Hm
                    |t rest Hpc Hq Hmerged ->
                    |command rest Hpc ->
                    | -> ]; try done.
  - (* a submission *)
    assert (∀ i u,
      (submap_processing_queue_ s
         ++ [new_submap_process robot submap_path (num_accepted s)]) !! i
        = Some u →
      holds_map u = true → submap_processing_queue_ s !! i = Some u) as Hold.
    { intros i u [Hu|[_ Hu]]%lookup_app_Some Hh; [done|].
      apply list_lookup_singleton_Some in Hu as [_ <-]. done. }
    split.
    + intros i u Hi Hh. cbn in *. apply (Hheld i); [by apply Hold|done].
    + intros i j u v Hi Hj Hhu Hhv. cbn in *.
      apply (Hdist i j u v); auto.
  - (* a job *)
    pose proof (queue_consistent _ _ _ Hinv Hi0) as Hc.
    destruct (job_step_Ret _ _ _ _ Hjob Hc)
      as (_ & [(_ & _ & _ & Hkey & _) _] & _).
    destruct (job_step_store _ _ _ _ Hjob) as [Hgrow _].
    pose proof (proj1 (holds_map_job_step _ _ _ _ Hjob Hc)) as Hnew.
    cbn in Hgrow, Hnew.
    split.
    + intros i u [(<- & <- & _)|(Hne & Hi)]%list_lookup_insert_Some Hh; cbn.
      * rewrite <- Hkey. destruct (Hnew Hh) as [Hold|[_ Hsome]]; [|done].
        apply Hgrow. by apply (Hheld i0).
      * apply Hgrow. by apply (Hheld i).
    + intros i j u v Hi Hj Hhu Hhv Hk. cbn in Hi, Hj.
      apply list_lookup_insert_Some in Hi as [(<- & <- & _)|(Hnei & Hi)];
        apply list_lookup_insert_Some in Hj as [(<- & <- & _)|(Hnej & Hj)];
        try done.
      * rewrite <- Hkey in Hk.
        destruct (Hnew Hhu) as [Hold|[Hnone _]].
        -- by apply (Hdist i0 j t0 v).
        -- destruct (Hheld j v Hj Hhv) as [m Hm]. congruence.
      * rewrite <- Hkey in Hk.
        destruct (Hnew Hhv) as [Hold|[Hnone _]].
        -- by apply (Hdist i i0 u t0).
        -- destruct (Hheld i u Hi Hhu) as [m Hm]. congruence.
      * by apply (Hdist i j u v).
  - (* a merge *)
    destruct (merge_front_Ret _ _ _ _ Hm) as (Hq' & _).
    assert (at_pop_front s = false) as Hat
      by (unfold at_pop_front; by rewrite Hpc).
    assert (holds_map t = true) as Hht.
    { unfold holds_map.
      rewrite (loaded_past_load t); [|apply (queue_consistent s 0 t Hinv);
                                       by rewrite Hq|done].
      rewrite (queue_unmerged s 0 t Hinv Hat); [done|by rewrite Hq]. }
    split.
    + intros [|i] u Hi Hh; rewrite Hq' in Hi; simpl in Hi.
      * injection Hi as <-. unfold holds_map in Hh. simpl in Hh.
        by rewrite andb_false_r in Hh.
      * assert (submap_processing_queue_ s !! S i = Some u) as Hi'
          by (by rewrite Hq).
        apply (merge_front_store _ _ _ _ Hm); [|by apply (Hheld (S i))].
        intros Hk.
        assert (S i = 0) by (apply (Hdist (S i) 0 u t); try done;
                             by rewrite Hq).
        done.
    + intros [|i] [|j] u v Hi Hj Hhu Hhv Hk; rewrite Hq' in Hi, Hj;
        simpl in Hi, Hj; try done.
      * injection Hi as <-. unfold holds_map in Hhu. simpl in Hhu.
        by rewrite andb_false_r in Hhu.
      * injection Hj as <-. unfold holds_map in Hhv. simpl in Hhv.
        by rewrite andb_false_r in Hhv.
      * apply (Hdist (S i) (S j) u v); try done; by rewrite Hq.
  - (* [pop_front] *)
    unfold pop_front. rewrite Hq. split.
    + intros i u Hi Hh. cbn in *. apply (Hheld (S i)); [by rewrite Hq|done].
    + intros i j u v Hi Hj Hhu Hhv Hk. cbn in *.
      assert (S i = S j) as [= ->]; [|done].
      apply (Hdist (S i) (S j) u v); try done; by rewrite Hq.
  - (* a global map command *)
    split; [|done]. intros i u Hi Hh. cbn in *.
    apply RunCommand_is_Some. by apply (Hheld i).
Qed.

Lemma merged_front_returned t :
  job_consistent t → is_merged t = true → job_in_loop t = false.
Proof.
  unfold job_consistent, job_in_loop.
  destruct (job t); intros Hc Hm; try done; intuition congruence.
Qed.

Lemma commands_step s s' :
  step_view s s' → node_invariant s → commands_owned s → commands_owned s'.
Proof.
  intros Hview Hinv Hown.
  destruct Hview as [->|robot submap_path Hsd Hfree Hr Hp ->
                    |i0 t0 t0' store commands Hi0 Hjob ->
                    |pc busy command Hat Hpc Hrec ->
                    |t rest Hpc Hq Hsd Hmu Hl Hp Hm
                    |t rest Hpc Hq Hmerged ->
                    |command rest Hpc ->
                    | -> ]; try done.
  - intros h c Hh. cbn in *.
    destruct (Hown h c Hh) as (i & u & Hi & Hu & Hloop).
    exists i, u. split; [|done]. by apply lookup_app_l_Some.
  - pose proof (queue_consistent _ _ _ Hinv Hi0) as Hc.
    destruct (job_step_Ret _ _ _ _ Hjob Hc) as (_ & _ & _ & _ & Hhash & _).
    assert (∀ h c, submap_commands_ s !! h = Some c →
                   (map_hash t0 = h → job_in_loop t0 = true →
                    job_in_loop t0' = true) →
                   ∃ i t, <[i0:=t0']> (submap_processing_queue_ s) !! i
                            = Some t ∧
                          map_hash t = h ∧ job_in_loop t = true) as Hkeep.
    { intros h c Hh Hown0.
      destruct (Hown h c Hh) as (i & u & Hi & Hu & Hloop).
      destruct (decide (i = i0)) as [->|Hne].
      - rewrite Hi0 in Hi. injection Hi as <-.
        exists i0, t0'. split; [|split; [congruence|by apply Hown0]].
        apply list_lookup_insert_eq. by eapply lookup_lt_Some.
      - exists i, u. split; [|done]. by rewrite list_lookup_insert_ne. }
    intros h c Hh. cbn in Hh |- *.
    destruct (job_step_commands _ _ _ _ Hjob)
      as [(c0 & E & Hloop)|[E|[E Hloop]]]; cbn in E; rewrite E in Hh.
    + destruct (decide (map_hash t0 = h)) as [<-|Hne].
      * exists i0, t0'. split; [|done].
        apply list_lookup_insert_eq. by eapply lookup_lt_Some.
      * rewrite lookup_insert_ne in Hh by done. by apply (Hkeep h c).
    + destruct (decide (map_hash t0 = h)) as [<-|Hne].
      * by rewrite lookup_delete_eq in Hh.
      * rewrite lookup_delete_ne in Hh by done. by apply (Hkeep h c).
    + apply (Hkeep h c Hh). intros _. apply Hloop.
  - intros h c Hh.
    destruct (merge_front_state _ _ _ _ Hm) as (_ & _ & _ & _ & _ & E & _).
    destruct (merge_front_Ret _ _ _ _ Hm) as (Hq' & _).
    rewrite E in Hh. destruct (Hown h c Hh) as (i & u & Hi & Hu & Hloop).
    rewrite Hq in Hi. rewrite Hq'. destruct i as [|i]; simpl in *.
    + injection Hi as <-.
      pose proof (queue_consistent s 0 t Hinv) as Hc. rewrite Hq in Hc.
      specialize (Hc eq_refl).
      unfold job_in_loop in Hloop.
      by rewrite (ready_front_returned t Hc Hmu Hp) in Hloop.
    + by exists (S i), u.
  - intros h c Hh. unfold pop_front in *. rewrite Hq in *. cbn in *.
    destruct (Hown h c Hh) as (i & u & Hi & Hu & Hloop).
    rewrite Hq in Hi. destruct i as [|i]; simpl in *.
    + injection Hi as <-.
      pose proof (queue_consistent s 0 t Hinv) as Hc. rewrite Hq in Hc.
      by rewrite (merged_front_returned t (Hc eq_refl) Hmerged) in Hloop.
    + by exists i, u.
Qed.

Lemma RunCommand_is_Some_inv key command (store : gmap string VIMap) k :
  is_Some ((RunCommand key command store).2 !! k) → is_Some (store !! k).
Proof.
  unfold RunCommand. destruct (store !! key) eqn:E; simpl; [|done].
  destruct (decide (key = k)) as [<-|Hne].
  - intros _. by rewrite E.
  - by rewrite lookup_insert_ne.
Qed.

Lemma job_step_new_key t s t' s' k :
  job_step t s = Ret (t', s') →
  is_Some (map_manager_ s' !! k) →
  is_Some (map_manager_ s !! k)
  ∨ (k = map_key t ∧ past_load (job t') = true).
Proof.
  unfold job_step.
  destruct (job t) as [| | |[|c rest]|rest| | |rest]; try done.
  - destruct (mutex t); [done|]. intros [= <- <-]. cbn. auto.
  - destruct (hasMap _ _); [done|].
    intros (store & Hl%getChecked_Ret & [= <- <-])%bind_Ret. cbn.
    unfold loadMapFromFolder in Hl.
    destruct (map_on_disk (path t)); [|done]. injection Hl as <-.
    destruct (decide (map_key t = k)) as [<-|Hne]; [auto|].
    rewrite lookup_insert_ne by done. auto.
  - intros [= <- <-]. cbn. auto.
  - intros [= <- <-]. cbn. auto.
  - intros [= <- <-]. cbn. intros Hk. left.
    by eapply RunCommand_is_Some_inv.
  - destruct (shut_down_requested_ s); intros [= <- <-]; cbn; auto.
  - intros [= <- <-]. cbn. auto.
Qed.

Lemma merge_front_new_key t rest s s' k :
  merge_front t rest s = Ret s' →
  is_Some (map_manager_ s' !! k) →
  k = kMergedMapKey ∨ (k ≠ map_key t ∧ is_Some (map_manager_ s !! k)).
Proof.
  intros Hm Hk.
  destruct (merge_front_Ret _ _ _ _ Hm)
    as (_ & _ & _ & _ & _ & _ & Hstore & _).
  destruct (decide (k = kMergedMapKey)) as [->|Hne]; [by left|]. right.
  destruct (hasMap (map_manager_ s) kMergedMapKey).
  - apply merge_into_merged_map_Ret in Hstore
      as (base & submap & merged & _ & _ & _ & E).
    rewrite E in Hk.
    destruct (decide (map_key t = k)) as [<-|Hkey].
    + rewrite lookup_delete_eq in Hk. by destruct Hk.
    + rewrite lookup_delete_ne, lookup_insert_ne in Hk by done. done.
  - apply initialize_merged_map_Ret in Hstore
      as (submap & id & mission & frame & _ & _ & _ & E & _).
    rewrite E in Hk. rewrite lookup_insert_ne in Hk by done.
    destruct (decide (map_key t = k)) as [<-|Hkey].
    + rewrite lookup_delete_eq in Hk. by destruct Hk.
    + rewrite lookup_delete_ne in Hk by done. done.
Qed.

Lemma keys_step s s' :
  step_view s s' → node_invariant s → keys_owned s → keys_owned s'.
Proof.
  intros Hview Hinv Hown.
  destruct Hview as [->|robot submap_path Hsd Hfree Hr Hp ->
                    |i0 t0 t0' store commands Hi0 Hjob ->
                    |pc busy command Hat Hpc Hrec ->
                    |t rest Hpc Hq Hsd Hmu Hl Hp Hm
                    |t rest Hpc Hq Hmerged ->
                    |command rest Hpc ->
                    | -> ]; try done.
  - intros k Hk. cbn in *.
    destruct (Hown k Hk) as [->|(i & u & Hi & Hh & Hu)]; [by left|right].
    exists i, u. split; [|done]. by apply lookup_app_l_Some.
  - pose proof (queue_consistent _ _ _ Hinv Hi0) as Hc.
    destruct (job_step_Ret _ _ _ _ Hjob Hc)
      as (_ & [(_ & _ & _ & Hkey & _) _] & _ & Hm' & _).
    destruct (holds_map_job_step _ _ _ _ Hjob Hc) as [_ Hkeep].
    assert (<[i0:=t0']> (submap_processing_queue_ s) !! i0 = Some t0')
      as Hi0' by (apply list_lookup_insert_eq; by eapply lookup_lt_Some).
    intros k Hk. cbn in Hk |- *.
    destruct (job_step_new_key _ _ _ _ k Hjob Hk) as [Hold|[-> Hl']].
    + destruct (Hown k Hold) as [->|(i & u & Hi & Hh & Hu)]; [by left|right].
      destruct (decide (i = i0)) as [->|Hne].
      * rewrite Hi0 in Hi. injection Hi as <-.
        exists i0, t0'. split; [done|]. split; [by apply Hkeep|congruence].
      * exists i, u. split; [|done]. by rewrite list_lookup_insert_ne.
    + right. exists i0, t0'. split; [done|]. split; [|congruence].
      unfold holds_map. by rewrite Hl', Hm'.
  - intros k Hk.
    destruct (merge_front_Ret _ _ _ _ Hm) as (Hq' & _).
    destruct (merge_front_new_key _ _ _ _ k Hm Hk) as [->|[Hne Hold]];
      [by left|].
    destruct (Hown k Hold) as [->|(i & u & Hi & Hh & Hu)]; [by left|right].
    rewrite Hq in Hi. rewrite Hq'. destruct i as [|i]; simpl in Hi.
    + injection Hi as <-. done.
    + by exists (S i), u.
  - intros k Hk. unfold pop_front in *. rewrite Hq in *. cbn in *.
    destruct (Hown k Hk) as [->|(i & u & Hi & Hh & Hu)]; [by left|right].
    rewrite Hq in Hi. destruct i as [|i]; simpl in Hi.
    + injection Hi as <-. unfold holds_map in Hh.
      rewrite Hmerged, andb_false_r in Hh. done.
    + by exists i, u.
  - intros k Hk. cbn in *. apply RunCommand_is_Some_inv in Hk.
    by apply Hown.
Qed.

Lemma step_more e s s' :
  step e s = Ret s' → node_invariant s →
  node_invariant_more s → node_invariant_more s'.
Proof.
  intros Hstep Hinv [M1 M2 M3 M4 M5 M6].
  pose proof (step_view_of _ _ _ Hstep Hinv) as Hview.
  destruct (held_step _ _ Hview Hinv M3 M4) as [M3' M4'].
  split; [by apply (names_step s)|by apply (index_step e s)|done|done| |].
  - by apply (commands_step s).
  - by apply (keys_step s).
Qed.

Lemma run_more events s s' :
  run events s = Ret s' → node_invariant s →
  node_invariant_more s → node_invariant_more s'.
Proof.
  revert s. induction events as [|e r IH]; intros s; simpl.
  - by intros [= <-].
  - intros (s1 & Hs & Hr)%bind_Ret Hi Hm.
    destruct (step_invariant _ _ _ Hs Hi) as [Hi1 _].
    apply (IH s1); [done..|]. by eapply step_more.
Qed.

Lemma initial_more : node_invariant_more initial_state.
Proof.
  split; try done. intros k [m Hm]. cbn in Hm. by rewrite lookup_empty in Hm.
Qed.

Lemma reachable_more s : reachable s → node_invariant_more s.
Proof.
  intros [events Hrun].
  apply (run_more _ _ _ Hrun initial_invariant initial_more).
Qed.

(** *** More on [mapLookup] *)

Ltac lookup_cases :=
  unfold mapLookup, getMapAccess, getMissionBaseFrameForMission, getMission,
    getSensor_T_B_S, getMissionBaseFrame, CHECK, getChecked;
  repeat (cbn; case_match); cbn.

(** X1: [mapLookup] writes [p_G] and [sensor_p_G] only when it returns
    success: with any other status the two vectors hold what they held. *)
Theorem lookup_writes_only_on_success
    s robot sensor_type timestamp_ns (p_S p_G sensor_p_G : Vector3d)
    status p_G' sensor_p_G' :
  mapLookup s robot sensor_type timestamp_ns p_S p_G sensor_p_G
    = Ret (status, p_G', sensor_p_G') →
  status ≠ kSuccess → p_G' = p_G ∧ sensor_p_G' = sensor_p_G.
Proof.
  lookup_cases; try done; intros [= <- <- <-]; done.
Qed.

(** X2: the status is no-such-mission exactly when the robot name is empty
    or not in the robot to mission map, whatever the sensor, the timestamp
    and the maps are. *)
Theorem lookup_no_such_mission_iff
    s robot sensor_type timestamp_ns (p_S p_G sensor_p_G : Vector3d) :
  (string_empty robot = true ∨ robot_to_mission_id_map_ s !! robot = None →
   mapLookup s robot sensor_type timestamp_ns p_S p_G sensor_p_G
     = Ret (kNoSuchMission, p_G, sensor_p_G)) ∧
  (∀ p_G' sensor_p_G',
     mapLookup s robot sensor_type timestamp_ns p_S p_G sensor_p_G
       = Ret (kNoSuchMission, p_G', sensor_p_G') →
     string_empty robot = true ∨ robot_to_mission_id_map_ s !! robot = None).
Proof.
  split.
  - unfold mapLookup. destruct (string_empty robot); [done|].
    intros [ | -> ]; done.
  - intros p_G' sensor_p_G'. lookup_cases; try done; auto.
Qed.

(** X3: the status is no-such-sensor exactly when the robot is registered,
    the timestamp is not negative and the robot's mission in the merged map
    has no sensor of the requested type; a sensor type other than the four
    resolved ones never gives success. *)
Theorem lookup_no_such_sensor_iff
    s robot sensor_type timestamp_ns (p_S p_G sensor_p_G : Vector3d)
    status p_G' sensor_p_G' :
  mapLookup s robot sensor_type timestamp_ns p_S p_G sensor_p_G
    = Ret (status, p_G', sensor_p_G') →
  (status = kNoSuchSensor ↔
   ∃ id map mission,
     string_empty robot = false ∧
     robot_to_mission_id_map_ s !! robot = Some id ∧
     (0 ≤ timestamp_ns)%Z ∧
     map_manager_ s !! kMergedMapKey = Some map ∧
     assoc id (missions map) = Some mission ∧
     requested_sensor sensor_type mission = None) ∧
  (sensor_type = kOtherSensorType → status ≠ kSuccess).
Proof.
  intros Hres. split; [split|].
  - intros ->. revert Hres. unfold mapLookup.
    destruct (string_empty robot); [done|].
    destruct (robot_to_mission_id_map_ s !! robot) as [id|]; [|done].
    destruct (Z.ltb_spec timestamp_ns 0); [done|].
    destruct (isValid id); [|done]. cbn. unfold getMapAccess.
    destruct (map_manager_ s !! kMergedMapKey) as [map|]; [|done]. cbn.
    unfold getMission.
    destruct (assoc id (missions map)) as [mission|] eqn:Hmi; [|done]. cbn.
    destruct (requested_sensor sensor_type mission) eqn:Hs.
    + intros Hres. exfalso. revert Hres.
      unfold getSensor_T_B_S, getMissionBaseFrameForMission, getMission,
        getMissionBaseFrame, getChecked. rewrite Hmi.
      repeat (cbn; case_match); done.
    + intros _. by exists id, map, mission.
  - intros (id & map & mission & Hr & Hid & Hts & Hm & Hmi & Hs).
    revert Hres. unfold mapLookup. rewrite Hr, Hid.
    destruct (Z.ltb_spec timestamp_ns 0); [lia|].
    destruct (isValid id); [|done]. cbn. unfold getMapAccess. rewrite Hm.
    cbn. unfold getMission. rewrite Hmi. cbn. rewrite Hs. by intros [= <- _ _].
  - intros -> ->. revert Hres. lookup_cases; done.
Qed.

(** *** The robot to mission map *)

Lemma nothing_merged_no_robot s robot :
  index_backed s → nothing_merged s →
  robot_to_mission_id_map_ s !! robot = None.
Proof.
  intros Hidx Hnone.
  destruct (robot_to_mission_id_map_ s !! robot) as [id|] eqn:Hr; [|done].
  destruct (Hidx robot id Hr) as (_ & _ & t & Hin & Hm & _).
  unfold nothing_merged in Hnone. rewrite Forall_forall in Hnone.
  specialize (Hnone t Hin). congruence.
Qed.

(** X4: in every state of the node, a robot of the robot to mission map has
    a non-empty name and a valid mission id and is the robot of a struct
    that has been merged; so as long as nothing has been merged every
    lookup answers no-such-mission. *)
Theorem registered_robots_were_merged s :
  reachable s →
  index_backed s ∧
  (nothing_merged s →
   ∀ robot sensor_type timestamp_ns (p_S p_G sensor_p_G : Vector3d),
     mapLookup s robot sensor_type timestamp_ns p_S p_G sensor_p_G
       = Ret (kNoSuchMission, p_G, sensor_p_G)).
Proof.
  intros Hreach. destruct (reachable_more s Hreach) as [_ Hidx _ _ _].
  split; [done|]. intros Hnone robot sensor_type timestamp_ns p_S p_G sp_G.
  unfold mapLookup. rewrite (nothing_merged_no_robot s robot Hidx Hnone).
  by destruct (string_empty robot).
Qed.

(** X5: where the key of the merged map is not a derived key, a robot of
    the robot to mission map finds the merged map in the map manager: for a
    registered robot neither the validity [CHECK] nor the read access of
    [mapLookup] aborts. *)
Theorem registered_robot_has_merged_map s robot id :
  ends_with_digit kMergedMapKey = false →
  reachable s →
  robot_to_mission_id_map_ s !! robot = Some id →
  isValid id = true ∧
  ∃ map, map_manager_ s !! kMergedMapKey = Some map ∧
         getMapAccess (map_manager_ s) kMergedMapKey = Ret map.
Proof.
  intros Hkey Hreach Hr.
  destruct (reachable_more s Hreach) as [_ Hidx _ _ _].
  destruct (Hidx robot id Hr) as (Hv & _ & t & Hin & Hm & _).
  split; [done|].
  pose proof (reachable_merged_map Hkey s Hreach) as Htr.
  pose proof (some_merged_spec s (reachable_invariant s Hreach)) as Hsm.
  unfold merged_map_tracks in Htr. unfold getMapAccess.
  destruct (map_manager_ s !! kMergedMapKey) as [map|] eqn:Hmap;
    [by exists map|].
  assert (nothing_merged s) as Hnone by (apply Hsm, Htr; done).
  unfold nothing_merged in Hnone. rewrite Forall_forall in Hnone.
  specialize (Hnone t Hin). congruence.
Qed.

(** X6: a step changes the robot to mission map only when it is a merge,
    and then the robot of the merged struct, whose name is never empty, is
    mapped to the one mission of its submap, whatever it was mapped to
    before; no robot is ever removed. *)
Theorem index_written_by_merges_only e s s' :
  reachable s → step e s = Ret s' →
  robot_to_mission_id_map_ s' = robot_to_mission_id_map_ s
  ∨ (e = EMerger ∧ submap_merging_thread_ s = MDraining ∧
     ∃ t rest submap,
       submap_processing_queue_ s = t :: rest ∧
       map_manager_ s !! map_key t = Some submap ∧
       string_empty (robot_name t) = false ∧
       robot_to_mission_id_map_ s' =
         <[robot_name t := getIdOfFirstMission submap]>
           (robot_to_mission_id_map_ s)).
Proof.
  intros Hreach Hstep.
  pose proof (reachable_invariant s Hreach) as Hinv.
  destruct (reachable_more s Hreach) as [Hn _ _ _ _].
  destruct e as [robot submap_path|a| | |].
  - left. cbn in Hstep. apply bind_Ret in Hstep as ([b s1] & Hs & [= <-]).
    unfold loadAndProcessSubmap in Hs.
    apply bind_Ret in Hs as (_ & _ & Hs).
    apply bind_Ret in Hs as (_ & _ & Hs).
    destruct (shut_down_requested_ s); [by injection Hs as <- <-|].
    destruct (queue_mutex_held s); [done|]. by injection Hs as <- <-.
  - left. destruct (job_event _ _ _ Hstep Hinv)
      as (i & t & t' & store & commands & _ & _ & _ & -> & _). done.
  - cbn in Hstep. unfold merger_step in Hstep.
    destruct (submap_merging_thread_ s) as [| | |[|c rest]|] eqn:Hpc.
    + left. destruct (shut_down_requested_ s);
        [|destruct (negb (received_first_submap s) && _)];
        by injection Hstep as <-.
    + destruct (drain_step_cases _ _ Hstep)
        as [[-> _]|(t & rest & Hq & _ & _ & _ & _ & Hm)].
      * left. unfold leave_drain. by destruct (received_first_submap s).
      * right. split; [done|]. split; [done|].
        destruct (merge_front_state _ _ _ _ Hm)
          as (submap & Hsub & _ & _ & Hindex & _).
        assert (well_named t) as (Hname & _).
        { rewrite Forall_forall in Hn. apply Hn. unfold all_submaps.
          rewrite Hq. apply elem_of_app. right. by left. }
        rewrite Hname in Hindex. by exists t, rest, submap.
    + left. injection Hstep as <-. unfold pop_front.
      by destruct (submap_processing_queue_ s).
    + left. by injection Hstep as <-.
    + left. by injection Hstep as <-.
    + done.
  - left. cbn in Hstep. by apply bind_Ret in Hstep as (r & _ & [= <-]).
  - left. cbn in Hstep. by injection Hstep as <-.
Qed.

(** *** The maps of the loaded submaps *)

(** X7: in every state of the node, every struct the node ever took has a
    non-empty robot name, a non-empty path and the key derived from them,
    and the map manager holds nothing but the merged map and maps of structs
    of the queue that are not merged and whose job has loaded them: a
    popped struct leaves no map behind, and no map appears under a key that
    is not the key of a struct past its [loadMapFromFolder]. *)
Theorem map_manager_keys_are_owned s :
  reachable s →
  Forall well_named (all_submaps s) ∧ keys_owned s.
Proof.
  intros Hreach. by destruct (reachable_more s Hreach) as [? _ _ _ _ ?].
Qed.

(** *** The status report, by jobs *)



(** *** The command table *)

(** X9: in every state of the node, each entry of the table of current
    submap commands is under the hash of a struct of the queue whose job is
    in its loop; when no job is in its loop the table is empty. *)
Theorem command_table_is_owned s :
  reachable s →
  commands_owned s ∧
  (Forall (λ t, job_in_loop t = false) (submap_processing_queue_ s) →
   submap_commands_ s = ∅).
Proof.
  intros Hreach. destruct (reachable_more s Hreach) as [_ _ _ _ Hown].
  split; [done|]. intros Hidle. apply map_empty. intros h.
  destruct (submap_commands_ s !! h) as [c|] eqn:Hh; [|done].
  destruct (Hown h c Hh) as (i & t & Hi & _ & Hloop).
  rewrite Forall_forall in Hidle.
  rewrite (Hidle t) in Hloop; [done|]. by eapply list_elem_of_lookup_2.
Qed.

(** *** After shutdown was requested *)








(** *** The global map commands *)

Lemma view_received s s' :
  step_view s s' → node_invariant s → merged_map_tracks s →
  received_first_submap s = some_merged s →
  (∀ rest, submap_merging_thread_ s = MGlobalMap rest →
           received_first_submap s = true) →
  received_first_submap s' = some_merged s' ∧
  (∀ rest, submap_merging_thread_ s' = MGlobalMap rest →
           received_first_submap s' = true).
Proof.
  intros Hview Hinv Htr Hrec Hglobal.
  destruct Hview as [->|robot submap_path Hsd' Hfree Hr Hp ->
                    |i0 t0 t0' store commands Hi0 Hjob ->
                    |pc busy command Hat Hpc Hrec' ->
                    |t rest Hpc Hq Hsd' Hmu Hl Hp Hm
                    |t rest Hpc Hq Hmerged ->
                    |command rest Hpc ->
                    | -> ]; try done.
  - split; [|done]. unfold some_merged, at_pop_front in *. cbn.
    rewrite Hrec. destruct (popped s); [|done].
    rewrite Hat. by destruct pc.
  - destruct (merge_front_Ret _ _ _ _ Hm)
      as (_ & Hp' & _ & Hpc' & _ & _ & _ & Hrec' & _).
    split; [|intros rest0; by rewrite Hpc'].
    unfold some_merged, at_pop_front. rewrite Hp', Hpc', Hrec'.
    assert (negb (hasMap (map_manager_ s) kMergedMapKey)
            || received_first_submap s = true) as ->; [|by destruct (popped s)].
    destruct (hasMap (map_manager_ s) kMergedMapKey) eqn:Hhas; [|done].
    apply hasMap_true in Hhas as [m Hm']. cbn. rewrite Hrec.
    unfold merged_map_tracks in Htr.
    destruct (some_merged s); [done|]. destruct Htr as [Htr _].
    rewrite Htr in Hm'; done.
  - unfold pop_front. rewrite Hq. split; [|done].
    unfold some_merged in *. cbn.
    assert (at_pop_front s = true) as Hat
      by (unfold at_pop_front; by rewrite Hpc).
    rewrite Hrec, Hat. by destruct (popped s).
  - split.
    + unfold some_merged, at_pop_front in *. cbn. rewrite Hrec, Hpc. done.
    + intros rest0 _. cbn. by apply (Hglobal (command :: rest)).
Qed.

Lemma reachable_received s :
  ends_with_digit kMergedMapKey = false → reachable s →
  merged_map_tracks s ∧
  received_first_submap s = some_merged s ∧
  (∀ rest, submap_merging_thread_ s = MGlobalMap rest →
           received_first_submap s = true).
Proof.
  intros Hkey [events Hrun].
  assert (node_invariant initial_state ∧ merged_map_tracks initial_state ∧
          received_first_submap initial_state = some_merged initial_state ∧
          (∀ rest, submap_merging_thread_ initial_state = MGlobalMap rest →
                   received_first_submap initial_state = true)) as Hinit.
  { split; [apply initial_invariant|]. done. }
  revert Hrun Hinit. generalize initial_state.
  induction events as [|e r IH]; intros s0; simpl.
  - by intros [= <-] (_ & ?).
  - intros (s1 & Hs & Hr)%bind_Ret (Hi & Ht & Hre & Hg).
    destruct (step_invariant _ _ _ Hs Hi) as [Hi1 _].
    apply (IH s1 Hr). split; [done|].
    split; [by apply (merged_map_step Hkey e s0)|].
    by apply (view_received s0 s1 (step_view_of _ _ _ Hs Hi)).
Qed.

Lemma received_iff_merged_map s :
  ends_with_digit kMergedMapKey = false → reachable s →
  received_first_submap s = true
  ↔ is_Some (map_manager_ s !! kMergedMapKey).
Proof.
  intros Hkey Hreach.
  destruct (reachable_received s Hkey Hreach) as (Htr & Hrec & _).
  unfold merged_map_tracks in Htr. rewrite Hrec.
  destruct (some_merged s).
  - split; [|done]. intros _.
    destruct (map_manager_ s !! kMergedMapKey); [done|].
    destruct Htr as [_ Htr]. by specialize (Htr eq_refl).
  - split; [done|]. intros [m Hm]. destruct Htr as [Htr _].
    rewrite Htr in Hm; done.
Qed.

(** X12: where the key of the merged map is not a derived key, the merging
    thread's flag [received_first_submap] is set exactly when the merged map
    exists, and whenever the thread is about to run a global map command the
    console finds the merged map selected: the command runs on it and its
    result replaces it. *)
Theorem global_commands_find_the_merged_map s :
  ends_with_digit kMergedMapKey = false →
  reachable s →
  (received_first_submap s = true
   ↔ is_Some (map_manager_ s !! kMergedMapKey)) ∧
  (∀ command rest,
     submap_merging_thread_ s = MGlobalMap (command :: rest) →
     ∃ m, map_manager_ s !! kMergedMapKey = Some m ∧
          step EMerger s =
            Ret (with_store
                   (<[kMergedMapKey := (run_command command m).2]>
                      (map_manager_ s))
                   (with_merger (MGlobalMap rest) true command s))).
Proof.
  intros Hkey Hreach.
  pose proof (received_iff_merged_map s Hkey Hreach) as Hiff.
  destruct (reachable_received s Hkey Hreach) as (_ & _ & Hglobal).
  split; [done|]. intros command rest Hpc.
  destruct (proj1 Hiff (Hglobal _ Hpc)) as [m Hm]. exists m. split; [done|].
  cbn. unfold merger_step. rewrite Hpc. unfold RunCommand. by rewrite Hm.
Qed.

(** *** A job that runs undisturbed *)

Lemma one_job_step s i t t' s1 :
  node_invariant s → submap_processing_queue_ s !! i = Some t →
  job_step t s = Ret (t', s1) →
  ∃ s', step (EJob (arrival t)) s = Ret s' ∧ node_invariant s' ∧
        submap_processing_queue_ s' !! i = Some t' ∧
        shut_down_requested_ s' = shut_down_requested_ s ∧
        popped s' = popped s ∧
        map_manager_ s' = map_manager_ s1 ∧
        arrival t' = arrival t ∧ map_key t' = map_key t ∧ path t' = path t.
Proof.
  intros Hinv Hi Hjob.
  pose proof (queue_consistent _ _ _ Hinv Hi) as Hc.
  destruct (job_step_Ret _ _ _ _ Hjob Hc)
    as (_ & [(Ha & Hp & _ & Hk & _) _] & _ & _ & _ & store & commands & -> & _).
  assert (step (EJob (arrival t)) s =
          Ret (with_queue (<[i := t']> (submap_processing_queue_ s))
                 (with_store store (with_submap_commands commands s))))
    as Hstep.
  { cbn. rewrite (run_job_at _ i t s (queue_arrivals_NoDup s Hinv) Hi).
    by rewrite Hjob. }
  eexists. split; [exact Hstep|].
  split; [by destruct (step_invariant _ _ _ Hstep Hinv)|].
  cbn. repeat split; try done.
  apply list_lookup_insert_eq. by eapply lookup_lt_Some.
Qed.

Lemma Outcome_bind_Ret {A B} (a : A) (k : A → Outcome B) : Ret a ≫= k = k a.
Proof. reflexivity. Qed.

Lemma run_replicate_S e n s s1 :
  step e s = Ret s1 → run (replicate (S n) e) s = run (replicate n e) s1.
Proof. intros Hs. simpl. by rewrite Hs. Qed.

Lemma run_replicate_fatal e n s :
  step e s = Fatal → run (replicate (S n) e) s = Fatal.
Proof. intros Hs. simpl. by rewrite Hs. Qed.

Lemma run_replicate_add e n m s :
  run (replicate (n + m) e) s
    = (s1 ← run (replicate n e) s; run (replicate m e) s1).
Proof. by rewrite replicate_add, run_app. Qed.

Lemma command_loop_runs i a rest :
  ∀ s t,
    node_invariant s → submap_processing_queue_ s !! i = Some t →
    arrival t = a →
    job t = JProcessing rest → shut_down_requested_ s = false →
    ∃ s' t',
      run (replicate (2 * length rest) (EJob a)) s = Ret s' ∧
      node_invariant s' ∧ submap_processing_queue_ s' !! i = Some t' ∧
      job t' = JProcessing [] ∧ arrival t' = a ∧
      map_key t' = map_key t ∧ is_loaded t' = is_loaded t ∧
      shut_down_requested_ s' = false ∧ popped s' = popped s ∧
      (∀ k, is_Some (map_manager_ s !! k) → is_Some (map_manager_ s' !! k)).
Proof.
  induction rest as [|c rest IH]; intros s t Hinv Hi Harr Hjob Hsd.
  - exists s, t. done.
  - replace (2 * length (c :: rest)) with (S (S (2 * length rest)))
      by (simpl; lia).
    destruct (one_job_step s i t (set_job t true (JShutdownCheck rest))
                (with_store (RunCommand (map_key t) c (map_manager_ s)).2
                   (with_submap_commands
                      (<[map_hash t := c]> (submap_commands_ s)) s)))
      as (s1 & Hs1 & Hinv1 & Hi1 & Hsd1 & Hp1 & Hm1 & _);
      [done|done|unfold job_step; by rewrite Hjob|].
    rewrite Harr in Hs1.
    destruct (one_job_step s1 i (set_job t true (JShutdownCheck rest))
                (set_job (set_job t true (JShutdownCheck rest)) true
                         (JProcessing rest)) s1)
      as (s2 & Hs2 & Hinv2 & Hi2 & Hsd2 & Hp2 & Hm2 & _);
      [done|done|unfold job_step; cbn; by rewrite Hsd1, Hsd|].
    assert (step (EJob a) s1 = Ret s2) as Hs2'
      by (rewrite <- Harr; exact Hs2).
    destruct (IH s2 _ Hinv2 Hi2 Harr eq_refl) as
      (s' & t' & Hrun & Hinv' & Hi' & Hjob' & Ha' & Hk' & Hl' & Hsd' & Hp' &
       Hgrow); [congruence|].
    exists s', t'.
    split.
    { by rewrite (run_replicate_S _ _ _ _ Hs1), (run_replicate_S _ _ _ _ Hs2'). }
    split; [done|]. split; [done|]. split; [done|]. split; [done|].
    split; [done|]. split; [done|]. split; [done|].
    split; [congruence|].
    intros k Hk. apply Hgrow. rewrite Hm2, Hm1.
    by apply RunCommand_is_Some.
Qed.

(** X15: a job that is left to run from the queue, with no shutdown
    requested and no map under its key in the map manager, aborts the
    process at its second step when there is no map at its path; otherwise,
    after two steps for each command and five more, it has returned: its
    struct is in its place in the queue, loaded, processed and unlocked, its
    map is in the map manager, and nothing was popped. *)
Theorem job_left_alone_returns s i t :
  reachable s →
  submap_processing_queue_ s !! i = Some t → job t = JQueued →
  shut_down_requested_ s = false →
  map_manager_ s !! map_key t = None →
  match map_on_disk (path t) with
  | None => run (job_alone (arrival t)) s = Fatal
  | Some _ =>
      ∃ s' t',
        run (job_alone (arrival t)) s = Ret s' ∧
        submap_processing_queue_ s' !! i = Some t' ∧
        arrival t' = arrival t ∧ job t' = JReturned ∧
        is_loaded t' = true ∧ is_processed t' = true ∧ mutex t' = false ∧
        is_Some (map_manager_ s' !! map_key t) ∧ popped s' = popped s
  end.
Proof.
  intros Hreach Hi Hjob Hsd Hnone.
  pose proof (reachable_invariant s Hreach) as Hinv.
  pose proof (queue_consistent _ _ _ Hinv Hi) as Hc.
  assert (mutex t = false) as Hmu.
  { unfold job_consistent in Hc. rewrite Hjob in Hc. tauto. }
  set (a := arrival t).
  unfold job_alone.
  replace (2 * length submap_commands + 5)
    with (3 + (2 * length submap_commands + 2)) by lia.
  rewrite run_replicate_add.
  destruct (one_job_step s i t (set_job t true JLoading)
              (with_submap_commands
                 (<[map_hash t := "loading"]> (submap_commands_ s)) s))
    as (s1 & Hs1 & Hinv1 & Hi1 & Hsd1 & Hp1 & Hm1 & _);
    [done|done|unfold job_step; by rewrite Hjob, Hmu|].
  fold a in Hs1.
  assert (hasMap (map_manager_ s1) (map_key t) = false) as Hhas
    by (apply hasMap_false; by rewrite Hm1).
  rewrite (run_replicate_S _ _ _ _ Hs1).
  destruct (map_on_disk (path t)) as [m|] eqn:Hdisk.
  - destruct (one_job_step s1 i (set_job t true JLoading)
                (set_job (set_job t true JLoading) true JLoaded)
                (with_store (<[map_key t := m]> (map_manager_ s1)) s1))
      as (s2 & Hs2 & Hinv2 & Hi2 & Hsd2 & Hp2 & Hm2 & _);
      [done|done| |].
    { unfold job_step. cbn. rewrite Hhas. unfold loadMapFromFolder.
      rewrite Hdisk. done. }
    assert (step (EJob a) s1 = Ret s2) as Hs2' by exact Hs2.
    destruct (one_job_step s2 i
                (set_job (set_job t true JLoading) true JLoaded)
                (set_job (set_is_loaded
                            (set_job (set_job t true JLoading) true JLoaded))
                         true (JProcessing submap_commands)) s2)
      as (s2b & Hs2b & Hinv2b & Hi2b & Hsd2b & Hp2b & Hm2b & _);
      [done|done|done|].
    assert (step (EJob a) s2 = Ret s2b) as Hs2b' by exact Hs2b.
    destruct (command_loop_runs i a submap_commands s2b _ Hinv2b Hi2b
                eq_refl eq_refl)
      as (s3 & t3 & Hrun3 & Hinv3 & Hi3 & Hjob3 & Ha3 & Hk3 & Hl3 & Hsd3 &
          Hp3 & Hgrow3); [congruence|].
    destruct (one_job_step s3 i t3
                (set_job (set_is_processed t3) true JProcessed)
                (with_submap_commands
                   (delete (map_hash t3) (submap_commands_ s3)) s3))
      as (s4 & Hs4 & Hinv4 & Hi4 & Hsd4 & Hp4 & Hm4 & _);
      [done|done|unfold job_step; by rewrite Hjob3|].
    rewrite Ha3 in Hs4.
    destruct (one_job_step s4 i
                (set_job (set_is_processed t3) true JProcessed)
                (set_job (set_job (set_is_processed t3) true JProcessed)
                         false JReturned) s4)
      as (s5 & Hs5 & Hinv5 & Hi5 & Hsd5 & Hp5 & Hm5 & _);
      [done|done|done|].
    assert (step (EJob a) s4 = Ret s5) as Hs5'.
    { rewrite <- Ha3. exact Hs5. }
    exists s5, (set_job (set_job (set_is_processed t3) true JProcessed)
                        false JReturned).
    split.
    { rewrite (run_replicate_S _ _ _ _ Hs2'), (run_replicate_S _ _ _ _ Hs2b').
      change (run (replicate 0 _) s2b) with (Ret s2b).
      rewrite Outcome_bind_Ret. cbv beta.
      rewrite run_replicate_add, Hrun3, Outcome_bind_Ret. cbv beta.
      by rewrite (run_replicate_S _ _ _ _ Hs4), (run_replicate_S _ _ _ _ Hs5'). }
    split; [done|]. split; [exact Ha3|]. split; [done|].
    split; [exact Hl3|]. split; [done|]. split; [done|].
    split; [|congruence].
    rewrite Hm5, Hm4. apply Hgrow3. rewrite Hm2b, Hm2. cbn.
    by rewrite lookup_insert_eq.
  - assert (step (EJob a) s1 = Fatal) as Hf.
    { cbn. unfold a.
      change (arrival t) with (arrival (set_job t true JLoading)).
      rewrite (run_job_at _ i _ s1 (queue_arrivals_NoDup s1 Hinv1) Hi1).
      unfold job_step. cbn. rewrite Hhas. unfold loadMapFromFolder.
      by rewrite Hdisk. }
    by rewrite (run_replicate_fatal _ _ _ Hf).
Qed.

(** *** The busy flag and the popped structs *)

Lemma merge_front_merger t rest s s' :
  merge_front t rest s = Ret s' →
  merging_thread_busy_ s' = merging_thread_busy_ s ∧
  submap_merging_thread_ s' = MPopFront.
Proof.
  unfold merge_front. intros Hm.
  apply bind_Ret in Hm as (? & _ & Hm).
  apply bind_Ret in Hm as (? & _ & Hm).
  apply bind_Ret in Hm as (? & _ & Hm).
  apply bind_Ret in Hm as (? & _ & Hm).
  apply bind_Ret in Hm as (? & _ & Hm).
  apply bind_Ret in Hm as (? & _ & Hm).
  apply bind_Ret in Hm as (? & _ & Hm).
  apply bind_Ret in Hm as (? & _ & Hm).
  by injection Hm as [= <-].
Qed.

Lemma step_busy e s s' :
  step e s = Ret s' → node_invariant s →
  merging_thread_busy_ s = in_loop_body (submap_merging_thread_ s) →
  merging_thread_busy_ s' = in_loop_body (submap_merging_thread_ s').
Proof.
  intros Hstep Hinv Hb. destruct e as [robot submap_path|a| | |].
  - cbn in Hstep. apply bind_Ret in Hstep as ([b s1] & Hs & [= <-]). cbn.
    unfold loadAndProcessSubmap in Hs.
    apply bind_Ret in Hs as (_ & _ & Hs).
    apply bind_Ret in Hs as (_ & _ & Hs).
    destruct (shut_down_requested_ s); [by injection Hs as <- <-|].
    destruct (queue_mutex_held s); [done|].
    by injection Hs as <- <-.
  - destruct (job_event _ _ _ Hstep Hinv)
      as (i & t & t' & store & commands & _ & _ & _ & -> & _).
    done.
  - cbn in Hstep. unfold merger_step in Hstep.
    destruct (submap_merging_thread_ s) as [| | |[|c rest]|] eqn:Hpc.
    + destruct (shut_down_requested_ s);
        [|destruct (negb (received_first_submap s) && _)];
        injection Hstep as <-; cbn; [done|by rewrite Hpc|done].
    + destruct (drain_step_cases _ _ Hstep)
        as [[-> _]|(t & rest & _ & _ & _ & _ & _ & Hm)].
      * unfold leave_drain. by destruct (received_first_submap s).
      * destruct (merge_front_merger _ _ _ _ Hm) as [-> ->]. by rewrite Hb.
    + injection Hstep as <-. unfold pop_front.
      destruct (submap_processing_queue_ s); cbn; by rewrite ?Hb, ?Hpc.
    + by injection Hstep as <-.
    + by injection Hstep as <-.
    + done.
  - cbn in Hstep. by apply bind_Ret in Hstep as (r & _ & [= <-]).
  - cbn in Hstep. by injection Hstep as <-.
Qed.

(** X16: In every reachable state the busy flag that the status report
    prints is set exactly while the merging thread is between the idle test
    at the top of its loop and the end of the loop body. *)
Theorem busy_flag_tracks_merging_thread s :
  reachable s →
  merging_thread_busy_ s = in_loop_body (submap_merging_thread_ s).
Proof.
  intros [events Hrun]. revert Hrun.
  assert (node_invariant initial_state ∧
          merging_thread_busy_ initial_state
            = in_loop_body (submap_merging_thread_ initial_state)) as Hinit
    by (split; [apply initial_invariant|done]).
  revert Hinit. generalize initial_state as s0.
  induction events as [|e events IH]; intros s0 [Hinv Hb] Hrun.
  - by injection Hrun as <-.
  - cbn in Hrun. apply bind_Ret in Hrun as (s1 & Hstep & Hrun).
    apply (IH s1); [|done]. split.
    + by apply (step_invariant e s0).
    + by apply (step_busy e s0).
Qed.

Lemma run_job_absent a q s :
  a ∉ arrival <$> q → run_job a q s = Blocked.
Proof.
  induction q as [|u r IH]; [done|]. rewrite fmap_cons, not_elem_of_cons.
  intros [Hne Hr]. simpl.
  destruct (Nat.eqb_spec (arrival u) a) as [Ha|_]; [by destruct Hne|].
  by rewrite (IH Hr).
Qed.

(** X17: A struct that was popped from the queue has a returned job that
    holds no mutex, and no event of any job reaches it again: the reference
    the job captured is not used after the element is destroyed. *)
Theorem popped_structs_are_left_alone s t :
  reachable s → t ∈ popped s →
  job t = JReturned ∧ mutex t = false ∧
  run_job (arrival t) (submap_processing_queue_ s) s = Blocked.
Proof.
  intros Hreach Hin.
  pose proof (reachable_invariant _ Hreach) as Hinv.
  destruct Hinv as [I1 I2 _ I4 _ _].
  assert (is_merged t = true) as Hmerged
    by (rewrite Forall_forall in I4; by apply I4).
  assert (job_consistent t) as Hjob.
  { rewrite Forall_forall in I1. apply I1. unfold all_submaps.
    apply elem_of_app. by left. }
  unfold job_consistent in Hjob.
  assert (job t = JReturned) as Hret.
  { destruct (job t); try done; destruct_and!; congruence. }
  rewrite Hret in Hjob. destruct Hjob as (Hmu & _).
  split; [done|]. split; [done|].
  apply run_job_absent. intros Hq.
  assert (NoDup (arrival <$> all_submaps s)) as Hnd
    by (rewrite I2; apply NoDup_seq).
  unfold all_submaps in Hnd. rewrite fmap_app in Hnd.
  apply NoDup_app in Hnd as (_ & Hdisj & _).
  apply (Hdisj (arrival t)); [|done].
  apply list_elem_of_fmap. by exists t.
Qed.

(** *** The idle wait of the merging thread *)

Lemma merged_past_load t :
  job_consistent t → is_merged t = true → past_load (job t) = true.
Proof.
  unfold job_consistent.
  destruct (job t); intros Hc Hm; try done; destruct_and!; congruence.
Qed.

(** X18: where the key of the merged map is not a derived key, the merging
    thread at the top of its loop, with no shutdown requested, sleeps and
    starts over as long as the job of no struct the node took has loaded
    its map, and enters the loop body, setting the busy flag, as soon as
    the [loadMapFromFolder] of one job has returned, whether or not
    [is_loaded] is set yet and whether or not that submap is ready to be
    merged. *)
Theorem merging_thread_idles_until_first_load s :
  ends_with_digit kMergedMapKey = false →
  reachable s →
  submap_merging_thread_ s = MLoopTop → shut_down_requested_ s = false →
  (Forall (λ t, past_load (job t) = false) (all_submaps s) →
   step EMerger s = Ret s) ∧
  (∀ t, t ∈ all_submaps s → past_load (job t) = true →
        step EMerger s
          = Ret (with_merger MDraining true (current_merge_command_ s) s)).
Proof.
  intros Hkey Hreach Hpc Hsd.
  pose proof (reachable_invariant _ Hreach) as Hinv.
  pose proof (reachable_more _ Hreach) as [_ _ Hheld _ _ Hown].
  destruct (reachable_received s Hkey Hreach) as (Htr & Hrec & _).
  pose proof (some_merged_spec s Hinv) as Hspec.
  pose proof Hinv as [I1 _ _ I4 _ _].
  assert (at_pop_front s = false) as Hat
    by (unfold at_pop_front; by rewrite Hpc).
  cbn. unfold merger_step. rewrite Hpc, Hsd. split.
  - intros Hnone.
    assert (nothing_merged s) as Hnm.
    { unfold nothing_merged. rewrite Forall_forall in Hnone, I1 |- *.
      intros t Hin. destruct (is_merged t) eqn:Hm; [|done].
      pose proof (merged_past_load t (I1 t Hin) Hm) as Hl.
      by rewrite (Hnone t Hin) in Hl. }
    apply Hspec in Hnm. rewrite Hrec, Hnm. cbn.
    assert (map_manager_ s = ∅) as ->.
    { apply map_empty. intros k.
      destruct (map_manager_ s !! k) as [m|] eqn:Hk; [|done].
      destruct (Hown k (mk_is_Some _ _ Hk)) as [->|(i & t & Hi & Hh & _)].
      - apply Htr in Hnm. congruence.
      - unfold holds_map in Hh. apply andb_true_iff in Hh as [Hl _].
        rewrite Forall_forall in Hnone.
        rewrite Hnone in Hl; [done|].
        unfold all_submaps. apply elem_of_app. right.
        by eapply list_elem_of_lookup_2. }
    unfold getAllMapKeys. by rewrite map_to_list_empty.
  - intros t Hin Hl.
    destruct (received_first_submap s) eqn:Hr; [done|]. cbn.
    rewrite bool_decide_eq_false_2; [done|].
    symmetry in Hrec. apply Hspec in Hrec.
    unfold nothing_merged in Hrec. rewrite Forall_forall in Hrec.
    pose proof (Hrec t Hin) as Hm.
    unfold all_submaps in Hin. apply elem_of_app in Hin as [Hin|Hin].
    { rewrite Forall_forall in I4. rewrite (I4 t Hin) in Hm. done. }
    apply list_elem_of_lookup in Hin as [i Hi].
    destruct (Hheld i t Hi) as [m Hmap];
      [unfold holds_map; by rewrite Hl, Hm|].
    unfold getAllMapKeys. intros Hkeys%fmap_nil_inv.
    apply map_to_list_empty_iff in Hkeys. rewrite Hkeys in Hmap.
    by rewrite lookup_empty in Hmap.
Qed.

End MoreFacts.

(** ** Saving *)

Section SavingFacts.
Context `{PoseTypes} `{!Geometry} `{!MapEngine} `{!MapSaving}.

(** X13: [saveMap()] returns false when the folder flag is empty, and both
    [saveMap]s return false as long as nothing has been merged (where the
    key of the merged map is not a derived key); once the merged map exists
    they return what the map store's save of that map returns. *)
Theorem saveMap_needs_a_merged_map s :
  (string_empty FLAGS_maplab_server_merged_map_folder = true →
   saveMap s = false) ∧
  (ends_with_digit kMergedMapKey = false → reachable s → nothing_merged s →
   saveMap s = false ∧ ∀ folder, saveMap_to folder s = false) ∧
  (∀ m, map_manager_ s !! kMergedMapKey = Some m →
     (∀ folder, saveMap_to folder s = saveMapToFolder m folder) ∧
     (string_empty FLAGS_maplab_server_merged_map_folder = false →
      saveMap s = saveMapToFolder m FLAGS_maplab_server_merged_map_folder)).
Proof.
  split; [|split].
  - intros Hflag. unfold saveMap. by rewrite Hflag.
  - intros Hkey Hreach Hnone.
    pose proof (reachable_merged_map Hkey s Hreach) as Htr.
    pose proof (some_merged_spec s (reachable_invariant s Hreach)) as Hsm.
    unfold merged_map_tracks in Htr.
    assert (map_manager_ s !! kMergedMapKey = None) as Hmap
      by (by apply Htr, Hsm).
    unfold saveMap, saveMap_to, hasMap. rewrite Hmap.
    split; [by destruct (string_empty _)|done].
  - intros m Hm. unfold saveMap, saveMap_to, hasMap. rewrite Hm.
    split; [done|]. by intros ->.
Qed.

End SavingFacts.

(** * The sample instance *)

Import Sample.

Lemma state_after_run events :
  returns (run events initial_state) = true →
  run events initial_state = Ret (state_after events).
Proof. unfold state_after. by destruct (run events initial_state). Qed.

Lemma state_after_step events e :
  returns (run (events ++ [e]) initial_state) = true →
  step e (state_after events) = Ret (state_after (events ++ [e])).
Proof.
  unfold state_after. rewrite run_app.
  destruct (run events initial_state) as [s| |]; cbn; [|done..].
  by destruct (step e s).
Qed.


Lemma run_one e s s' : step e s = Ret s' → run [e] s = Ret s'.
Proof. intros Hs. cbn. by rewrite Hs. Qed.

Lemma state_after_reachable events :
  returns (run events initial_state) = true → reachable (state_after events).
Proof. intros Hret. exists events. by apply state_after_run. Qed.

Lemma after_merge_reachable : reachable after_merge.
Proof. apply state_after_reachable. vm_compute. reflexivity. Qed.

Lemma ready_to_merge_reachable : reachable ready_to_merge.
Proof. apply state_after_reachable. vm_compute. reflexivity. Qed.

Lemma cancelled_reachable : reachable cancelled.
Proof. apply state_after_reachable. vm_compute. reflexivity. Qed.

Lemma colliding_reachable : reachable colliding.
Proof. apply state_after_reachable. vm_compute. reflexivity. Qed.

(** After both merges the merged map is the one [serving] has. *)
Example after_merge_serves :
  map_manager_ after_merge !! "merged_map" = Some two_missions ∧
  robot_to_mission_id_map_ after_merge !! "anymal" = Some 7%N.
Proof. split; vm_compute; reflexivity. Qed.

(** The second submap is ready long before the first, and the first is
    still popped first. *)
Lemma merge_order_is_arrival_order_witness :
  run (second_job_first ++ first_job ++ merge_both) initial_state
    = Ret after_merge ∧
  job <$> submap_processing_queue_ (state_after second_job_first)
    = [JQueued; JReturned] ∧
  arrival <$> popped after_merge = seq 0 (length (popped after_merge)).
Proof.
  assert (run (second_job_first ++ first_job ++ merge_both) initial_state
            = Ret after_merge) as Hrun.
  { apply state_after_run. vm_compute. reflexivity. }
  split; [exact Hrun|]. split; [vm_compute; reflexivity|].
  exact (proj1 (merge_order_is_arrival_order _ _ Hrun)).
Defined.

Example both_popped_in_order : arrival <$> popped after_merge = [0; 1]%nat.
Proof. vm_compute. reflexivity. Qed.

Lemma flags_monotone_and_popped_iff_merged_witness :
  reachable after_merge ∧
  Forall (λ t, is_merged t = true) (popped after_merge).
Proof.
  split; [exact after_merge_reachable|].
  exact (proj1 (proj2 (proj2
    (flags_monotone_and_popped_iff_merged _ after_merge_reachable)))).
Defined.

(** The camera of the robot "anymal" at 150 ns, before and after its
    mission. *)
Lemma lookup_range_cases_witness :
  mapLookup serving "anymal" kNCamera 150 (1, 2, 3)%Z (0, 0, 0)%Z (0, 0, 0)%Z
    = Ret (kSuccess, (9, 148, 4)%Z, (10, 150, 1)%Z) ∧
  mapLookup serving "anymal" kNCamera 50 (1, 2, 3)%Z (0, 0, 0)%Z (0, 0, 0)%Z
    = Ret (kPoseNeverAvailable, (0, 0, 0)%Z, (0, 0, 0)%Z) ∧
  mapLookup serving "anymal" kNCamera 250 (1, 2, 3)%Z (0, 0, 0)%Z (0, 0, 0)%Z
    = Ret (kPoseNotAvailableYet, (0, 0, 0)%Z, (0, 0, 0)%Z).
Proof.
  pose (frame := {| is_T_G_M_known := true;
                    T_G_M := (quarter_turn, (10, 0, 0)%Z) |}).
  pose proof (λ timestamp_ns,
    lookup_range_cases serving "anymal" kNCamera timestamp_ns
      (1, 2, 3)%Z (0, 0, 0)%Z (0, 0, 0)%Z
      7%N two_missions (mission_of 7 3) 7%N (quarter_turn, (0, 0, 1)%Z) frame
      100%Z 200%Z
      ltac:(vm_compute; reflexivity) ltac:(vm_compute; reflexivity)
      ltac:(vm_compute; reflexivity) ltac:(vm_compute; reflexivity)
      ltac:(vm_compute; reflexivity) ltac:(vm_compute; reflexivity)
      ltac:(vm_compute; reflexivity) ltac:(vm_compute; reflexivity)
      ltac:(vm_compute; reflexivity)) as Hcases.
  split; [|split].
  - destruct (Hcases 150%Z) as (_ & _ & Hok & _).
    exact (Hok ltac:(lia) ltac:(lia) (identity_matrix, (150, 0, 0)%Z)
               ltac:(vm_compute; reflexivity)).
  - destruct (Hcases 50%Z) as (Hnever & _). apply Hnever. right. lia.
  - destruct (Hcases 250%Z) as (_ & Hnotyet & _). apply Hnotyet; lia.
Defined.

Lemma lookup_composition_witness :
  mapLookup serving "anymal" kNCamera 150 (1, 2, 3)%Z (0, 0, 0)%Z (0, 0, 0)%Z
    = Ret (kSuccess, (9, 148, 4)%Z, (10, 150, 1)%Z) ∧
  ∃ id map mission sensor_id T_B_S base_frame T_M_B,
    robot_to_mission_id_map_ serving !! "anymal" = Some id ∧
    map_manager_ serving !! kMergedMapKey = Some map ∧
    assoc id (missions map) = Some mission ∧
    requested_sensor kNCamera mission = Some sensor_id ∧
    assoc sensor_id (sensor_T_B_S map) = Some T_B_S ∧
    assoc (base_frame_id mission) (mission_base_frames map)
      = Some base_frame ∧
    getPosesAtTime map id [150%Z] = [T_M_B] ∧
    let T_G_S := compose (compose (T_G_M base_frame) T_M_B) T_B_S in
    (9, 148, 4)%Z = transform T_G_S (1, 2, 3)%Z ∧
    (10, 150, 1)%Z = transform T_G_S Vector3d_Zero.
Proof.
  assert (mapLookup serving "anymal" kNCamera 150
                    (1, 2, 3)%Z (0, 0, 0)%Z (0, 0, 0)%Z
            = Ret (kSuccess, (9, 148, 4)%Z, (10, 150, 1)%Z)) as Hres
    by (vm_compute; reflexivity).
  split; [exact Hres|].
  exact (lookup_composition _ _ _ _ _ _ _ _ _ Hres).
Defined.

(** With the three poses of the sample the order of composition shows in the
    result. *)
Example composition_order_matters :
  let T_G_M := (quarter_turn, (10, 0, 0)%Z) in
  let T_M_B := (identity_matrix, (150, 0, 0)%Z) in
  let T_B_S := (quarter_turn, (0, 0, 1)%Z) in
  transform (compose (compose T_G_M T_M_B) T_B_S) (1, 2, 3)%Z = (9, 148, 4)%Z ∧
  transform (compose (compose T_B_S T_M_B) T_G_M) (1, 2, 3)%Z
    ≠ (9, 148, 4)%Z.
Proof. split; vm_compute; [reflexivity|discriminate]. Qed.

Lemma negative_timestamp_before_sensor_resolution_witness :
  requested_sensor kImu (mission_of 7 3) = None ∧
  mapLookup serving "anymal" kImu (-5) (1, 2, 3)%Z (0, 0, 0)%Z (0, 0, 0)%Z
    = Ret (kPoseNeverAvailable, (0, 0, 0)%Z, (0, 0, 0)%Z) ∧
  mapLookup serving "anymal" kImu 5 (1, 2, 3)%Z (0, 0, 0)%Z (0, 0, 0)%Z
    = Ret (kNoSuchSensor, (0, 0, 0)%Z, (0, 0, 0)%Z).
Proof.
  split; [vm_compute; reflexivity|]. split; [|vm_compute; reflexivity].
  exact (negative_timestamp_before_sensor_resolution
           serving "anymal" kImu (-5)%Z (1, 2, 3)%Z (0, 0, 0)%Z (0, 0, 0)%Z
           7%N ltac:(vm_compute; reflexivity) ltac:(vm_compute; reflexivity)
           ltac:(lia)).
Defined.

(** A merged struct with its mutex taken gets the line "merged", not the
    error line. *)
Lemma merged_and_locked_is_not_an_error :
  is_merged merged_and_locked = true ∧ mutex merged_and_locked = true ∧
  submap_status merged_and_locked = LabelMerged ∧
  submap_status merged_and_locked ≠ LabelError.
Proof. repeat split; vm_compute; (reflexivity || discriminate). Qed.

Lemma status_error_iff_merged_and_unlocked_witness :
  reachable ready_to_merge ∧
  status_report ready_to_merge = Blocked ∧
  ∀ lines, status_report cancelled = Ret lines →
           Forall (λ line, line.2 ≠ LabelError ∧ line.2 ≠ LabelMerged) lines.
Proof.
  split; [exact ready_to_merge_reachable|]. split; [vm_compute; reflexivity|].
  intros lines.
  exact (proj2 (proj2 (proj2 status_error_iff_merged_and_unlocked))
           cancelled lines cancelled_reachable).
Defined.

(** An empty robot name, or an empty path, aborts the process. *)
Lemma empty_robot_name_is_not_rejected :
  loadAndProcessSubmap "" "/maps/a" initial_state = Fatal ∧
  loadAndProcessSubmap "anymal" "" initial_state = Fatal ∧
  loadAndProcessSubmap "" "/maps/a" initial_state
    ≠ Ret (false, initial_state).
Proof. repeat split; vm_compute; (reflexivity || discriminate). Qed.

Lemma empty_name_or_path_aborts_witness :
  string_empty "" = true ∧
  loadAndProcessSubmap "" "/maps/a" initial_state = Fatal ∧
  step (ESubmit "" "/maps/a") initial_state = Fatal ∧
  shut_down_requested_ cancelled = true ∧
  loadAndProcessSubmap "anymal" "/maps/a" cancelled = Ret (false, cancelled).
Proof.
  split; [reflexivity|].
  destruct (empty_name_or_path_aborts "" "/maps/a" initial_state)
    as [Hfatal _].
  destruct (empty_name_or_path_aborts "anymal" "/maps/a" cancelled)
    as [_ Hfalse].
  split; [apply Hfatal; left; reflexivity|].
  split; [apply Hfatal; left; reflexivity|].
  split; [vm_compute; reflexivity|].
  apply Hfalse; vm_compute; reflexivity.
Defined.

(** The same path submitted for two robots gets two keys. *)
Lemma map_key_depends_on_robot_name :
  path (new_submap_process "anymal" "/maps/a" 0)
    = path (new_submap_process "spot" "/maps/a" 1) ∧
  map_key (new_submap_process "anymal" "/maps/a" 0) = "anymal_7" ∧
  map_key (new_submap_process "spot" "/maps/a" 1) = "spot_7" ∧
  map_key (new_submap_process "anymal" "/maps/a" 0)
    ≠ map_key (new_submap_process "spot" "/maps/a" 1).
Proof. repeat split; vm_compute; (reflexivity || discriminate). Qed.

Lemma map_key_from_robot_name_and_path_hash_witness :
  reachable colliding ∧
  second_struct colliding ∈ submap_processing_queue_ colliding ∧
  job (second_struct colliding) = JLoading ∧
  map_key (second_struct colliding) = map_key (first_struct colliding) ∧
  hasMap (map_manager_ colliding) (map_key (second_struct colliding)) = true ∧
  step (EJob (arrival (second_struct colliding))) colliding = Fatal.
Proof.
  assert (second_struct colliding ∈ submap_processing_queue_ colliding) as Hin.
  { apply (list_elem_of_lookup_2 _ 1%nat). vm_compute. reflexivity. }
  split; [exact colliding_reachable|]. split; [exact Hin|].
  split; [vm_compute; reflexivity|]. split; [vm_compute; reflexivity|].
  split; [vm_compute; reflexivity|].
  exact (proj2 (proj2 (proj2 map_key_from_robot_name_and_path_hash))
           (second_struct colliding) colliding colliding_reachable Hin
           ltac:(vm_compute; reflexivity) ltac:(vm_compute; reflexivity)).
Defined.

Lemma processed_only_after_complete_loop_witness :
  reachable cancelled ∧
  job (first_struct cancelled) = JCancelled ["lc"] ∧
  ∃ t', t' ∈ submap_processing_queue_
               (state_after (shutdown_during_command ++ [EMerger])) ∧
        arrival t' = arrival (first_struct cancelled) ∧
        job t' = JCancelled ["lc"] ∧
        is_processed t' = false ∧ is_merged t' = false.
Proof.
  split; [exact cancelled_reachable|]. split; [vm_compute; reflexivity|].
  apply (proj2 (proj2 (proj2 (proj2
           (processed_only_after_complete_loop cancelled cancelled_reachable))))
           (first_struct cancelled) ["lc"] [EMerger]).
  - apply (list_elem_of_lookup_2 _ 0%nat). vm_compute. reflexivity.
  - vm_compute. reflexivity.
  - apply run_one.
    apply (state_after_step shutdown_during_command EMerger).
    vm_compute. reflexivity.
Defined.

Lemma merged_map_from_first_merge_witness :
  ends_with_digit kMergedMapKey = false ∧
  reachable ready_to_merge ∧
  (nothing_merged ready_to_merge
   ↔ map_manager_ ready_to_merge !! kMergedMapKey = None) ∧
  front_merged ready_to_merge
    (state_after ((second_job_first ++ first_job) ++ [EMerger])) ∧
  reachable first_popped ∧
  is_Some (map_manager_ first_popped !! kMergedMapKey) ∧
  front_merged first_popped (state_after (first_merged ++ [EMerger])).
Proof.
  assert (ends_with_digit kMergedMapKey = false) as Hkey
    by (vm_compute; reflexivity).
  assert (reachable first_popped) as Hreach
    by (apply state_after_reachable; vm_compute; reflexivity).
  destruct (merged_map_from_first_merge ready_to_merge Hkey
              ready_to_merge_reachable) as [Hiff Hmerge].
  destruct (merged_map_from_first_merge first_popped Hkey Hreach)
    as [_ Hmerge'].
  split; [exact Hkey|]. split; [exact ready_to_merge_reachable|].
  split; [exact Hiff|]. split; [|split; [exact Hreach|split]].
  - apply Hmerge.
    + vm_compute. reflexivity.
    + apply (state_after_step (second_job_first ++ first_job) EMerger).
      vm_compute. reflexivity.
    + vm_compute. reflexivity.
  - vm_compute. eexists. reflexivity.
  - apply Hmerge'.
    + vm_compute. reflexivity.
    + apply (state_after_step first_merged EMerger).
      vm_compute. reflexivity.
    + vm_compute. reflexivity.
Defined.

(** The first merge of the sample run took the branch without a merged map:
    afterwards the submap's entry is gone and the merged map is the first
    submap with its base frame known. *)
Example first_merge_adopts_first_submap :
  map_manager_ ready_to_merge !! "merged_map" = None ∧
  map_manager_ (state_after ((second_job_first ++ first_job) ++ [EMerger]))
    !! "anymal_7" = None ∧
  map_manager_ (state_after ((second_job_first ++ first_job) ++ [EMerger]))
    !! "merged_map"
    = Some {| missions := [(7%N, mission_of 7 3)];
              mission_base_frames :=
                [(3%N, {| is_T_G_M_known := true;
                          T_G_M := (quarter_turn, (10, 0, 0)%Z) |})];
              sensor_T_B_S := [(7%N, (quarter_turn, (0, 0, 1)%Z))] |}.
Proof. repeat split; vm_compute; reflexivity. Qed.

(** The second merge took the other branch: the submap's entry is gone and
    the merged map is the result of merging the second submap into it. *)
Example second_merge_merges_into_merged_map :
  map_manager_ first_popped !! "spot_8" = Some (submap_with_mission 8) ∧
  map_manager_ (state_after (first_merged ++ [EMerger])) !! "spot_8" = None ∧
  map_manager_ (state_after (first_merged ++ [EMerger])) !! "merged_map"
    = merge_maps
        {| missions := [(7%N, mission_of 7 3)];
           mission_base_frames :=
             [(3%N, {| is_T_G_M_known := true;
                       T_G_M := (quarter_turn, (10, 0, 0)%Z) |})];
           sensor_T_B_S := [(7%N, (quarter_turn, (0, 0, 1)%Z))] |}
        (submap_with_mission 8).
Proof. repeat split; vm_compute; reflexivity. Qed.

(** ** Further properties on the sample node *)

Lemma one_submitted_reachable : reachable one_submitted.
Proof. apply state_after_reachable. vm_compute. reflexivity. Qed.

Lemma missing_submitted_reachable : reachable missing_submitted.
Proof. apply state_after_reachable. vm_compute. reflexivity. Qed.


Lemma before_global_reachable : reachable before_global.
Proof. apply state_after_reachable. vm_compute. reflexivity. Qed.

Lemma ready_to_merge_nothing_merged : nothing_merged ready_to_merge.
Proof.
  apply (some_merged_spec _ (reachable_invariant _ ready_to_merge_reachable)).
  vm_compute. reflexivity.
Qed.

(** A lookup for a sensor the mission does not have leaves both vectors. *)
Lemma lookup_writes_only_on_success_witness :
  mapLookup serving "anymal" kImu 5 (1, 2, 3)%Z (4, 5, 6)%Z (7, 8, 9)%Z
    = Ret (kNoSuchSensor, (4, 5, 6)%Z, (7, 8, 9)%Z) ∧
  ((4, 5, 6)%Z = (4, 5, 6)%Z ∧ (7, 8, 9)%Z = (7, 8, 9)%Z).
Proof.
  assert (mapLookup serving "anymal" kImu 5 (1, 2, 3)%Z (4, 5, 6)%Z (7, 8, 9)%Z
            = Ret (kNoSuchSensor, (4, 5, 6)%Z, (7, 8, 9)%Z)) as Hres
    by (vm_compute; reflexivity).
  split; [exact Hres|].
  exact (lookup_writes_only_on_success serving "anymal" kImu 5%Z
           (1, 2, 3)%Z (4, 5, 6)%Z (7, 8, 9)%Z
           kNoSuchSensor (4, 5, 6)%Z (7, 8, 9)%Z Hres ltac:(discriminate)).
Defined.

(** A robot nobody merged a submap of, and the empty name. *)
Lemma lookup_no_such_mission_iff_witness :
  robot_to_mission_id_map_ serving !! "atlas" = None ∧
  mapLookup serving "atlas" kNCamera 150 (1, 2, 3)%Z (0, 0, 0)%Z (0, 0, 0)%Z
    = Ret (kNoSuchMission, (0, 0, 0)%Z, (0, 0, 0)%Z) ∧
  mapLookup serving "" kNCamera 150 (1, 2, 3)%Z (0, 0, 0)%Z (0, 0, 0)%Z
    = Ret (kNoSuchMission, (0, 0, 0)%Z, (0, 0, 0)%Z).
Proof.
  assert (robot_to_mission_id_map_ serving !! "atlas" = None) as Hnone
    by (vm_compute; reflexivity).
  split; [exact Hnone|]. split.
  - exact (proj1 (lookup_no_such_mission_iff serving "atlas" kNCamera 150%Z
                    (1, 2, 3)%Z (0, 0, 0)%Z (0, 0, 0)%Z) (or_intror Hnone)).
  - exact (proj1 (lookup_no_such_mission_iff serving "" kNCamera 150%Z
                    (1, 2, 3)%Z (0, 0, 0)%Z (0, 0, 0)%Z)
             (or_introl eq_refl)).
Defined.

(** The mission of "anymal" has a camera and no IMU. *)
Lemma lookup_no_such_sensor_iff_witness :
  mapLookup serving "anymal" kImu 5 (1, 2, 3)%Z (0, 0, 0)%Z (0, 0, 0)%Z
    = Ret (kNoSuchSensor, (0, 0, 0)%Z, (0, 0, 0)%Z) ∧
  ∃ id map mission,
    string_empty "anymal" = false ∧
    robot_to_mission_id_map_ serving !! "anymal" = Some id ∧
    (0 ≤ 5)%Z ∧
    map_manager_ serving !! kMergedMapKey = Some map ∧
    assoc id (missions map) = Some mission ∧
    requested_sensor kImu mission = None.
Proof.
  assert (mapLookup serving "anymal" kImu 5 (1, 2, 3)%Z (0, 0, 0)%Z (0, 0, 0)%Z
            = Ret (kNoSuchSensor, (0, 0, 0)%Z, (0, 0, 0)%Z)) as Hres
    by (vm_compute; reflexivity).
  split; [exact Hres|].
  exact (proj1 (proj1 (lookup_no_such_sensor_iff _ _ _ _ _ _ _ _ _ _ Hres))
           eq_refl).
Defined.

(** Both submaps are processed and none is merged: no robot is known. *)
Lemma registered_robots_were_merged_witness :
  reachable ready_to_merge ∧ nothing_merged ready_to_merge ∧
  mapLookup ready_to_merge "anymal" kNCamera 150
            (1, 2, 3)%Z (0, 0, 0)%Z (0, 0, 0)%Z
    = Ret (kNoSuchMission, (0, 0, 0)%Z, (0, 0, 0)%Z).
Proof.
  split; [exact ready_to_merge_reachable|].
  split; [exact ready_to_merge_nothing_merged|].
  exact (proj2 (registered_robots_were_merged _ ready_to_merge_reachable)
           ready_to_merge_nothing_merged "anymal" kNCamera 150%Z
           (1, 2, 3)%Z (0, 0, 0)%Z (0, 0, 0)%Z).
Defined.

Lemma registered_robot_has_merged_map_witness :
  ends_with_digit kMergedMapKey = false ∧
  reachable after_merge ∧
  robot_to_mission_id_map_ after_merge !! "spot" = Some 8%N ∧
  isValid 8%N = true ∧
  ∃ map, map_manager_ after_merge !! kMergedMapKey = Some map ∧
         getMapAccess (map_manager_ after_merge) kMergedMapKey = Ret map.
Proof.
  assert (ends_with_digit kMergedMapKey = false) as Hkey
    by (vm_compute; reflexivity).
  assert (robot_to_mission_id_map_ after_merge !! "spot" = Some 8%N) as Hr
    by (vm_compute; reflexivity).
  split; [exact Hkey|]. split; [exact after_merge_reachable|].
  split; [exact Hr|].
  exact (registered_robot_has_merged_map after_merge "spot" 8%N Hkey
           after_merge_reachable Hr).
Defined.

(** The step that merges the first submap writes the robot "anymal"; the
    step of a job writes nothing. *)
Lemma index_written_by_merges_only_witness :
  reachable ready_to_merge ∧
  robot_to_mission_id_map_ ready_to_merge !! "anymal" = None ∧
  robot_to_mission_id_map_
    (state_after ((second_job_first ++ first_job) ++ [EMerger])) !! "anymal"
    = Some 7%N ∧
  (robot_to_mission_id_map_
     (state_after ((second_job_first ++ first_job) ++ [EMerger]))
   = robot_to_mission_id_map_ ready_to_merge
   ∨ (EMerger = EMerger ∧ submap_merging_thread_ ready_to_merge = MDraining ∧
      ∃ t rest submap,
        submap_processing_queue_ ready_to_merge = t :: rest ∧
        map_manager_ ready_to_merge !! map_key t = Some submap ∧
        string_empty (robot_name t) = false ∧
        robot_to_mission_id_map_
          (state_after ((second_job_first ++ first_job) ++ [EMerger])) =
          <[robot_name t := getIdOfFirstMission submap]>
            (robot_to_mission_id_map_ ready_to_merge))).
Proof.
  split; [exact ready_to_merge_reachable|].
  split; [vm_compute; reflexivity|]. split; [vm_compute; reflexivity|].
  apply (index_written_by_merges_only EMerger ready_to_merge _
           ready_to_merge_reachable).
  apply (state_after_step (second_job_first ++ first_job) EMerger).
  vm_compute. reflexivity.
Defined.

(** The one map of the sample node with two colliding structs is the map
    the job of the first has loaded. *)
Lemma map_manager_keys_are_owned_witness :
  reachable colliding ∧
  getAllMapKeys (map_manager_ colliding) = [map_key (first_struct colliding)] ∧
  holds_map (first_struct colliding) = true ∧
  Forall well_named (all_submaps colliding) ∧ keys_owned colliding.
Proof.
  split; [exact colliding_reachable|]. split; [vm_compute; reflexivity|].
  split; [vm_compute; reflexivity|].
  exact (map_manager_keys_are_owned colliding colliding_reachable).
Defined.


(** One entry, of the two jobs with the same hash; and none once the job
    has returned. *)
Lemma command_table_is_owned_witness :
  reachable colliding ∧ submap_commands_ colliding !! 7%N = Some "loading" ∧
  commands_owned colliding ∧
  reachable cancelled ∧ submap_commands_ cancelled = ∅.
Proof.
  split; [exact colliding_reachable|]. split; [vm_compute; reflexivity|].
  split; [exact (proj1 (command_table_is_owned _ colliding_reachable))|].
  split; [exact cancelled_reachable|].
  apply (proj2 (command_table_is_owned _ cancelled_reachable)).
  apply Forall_lookup_2. intros i t Hi. apply list_elem_of_lookup_2 in Hi.
  revert Hi.
  replace (submap_processing_queue_ cancelled)
    with [first_struct cancelled] by (vm_compute; reflexivity).
  intros ->%list_elem_of_singleton. vm_compute. reflexivity.
Defined.



Lemma global_commands_find_the_merged_map_witness :
  ends_with_digit kMergedMapKey = false ∧ reachable before_global ∧
  submap_merging_thread_ before_global = MGlobalMap ["optvi"] ∧
  ∃ m, map_manager_ before_global !! kMergedMapKey = Some m ∧
       step EMerger before_global =
         Ret (with_store
                (<[kMergedMapKey := (run_command "optvi" m).2]>
                   (map_manager_ before_global))
                (with_merger (MGlobalMap []) true "optvi" before_global)).
Proof.
  assert (ends_with_digit kMergedMapKey = false) as Hkey
    by (vm_compute; reflexivity).
  assert (submap_merging_thread_ before_global = MGlobalMap ["optvi"]) as Hpc
    by (vm_compute; reflexivity).
  split; [exact Hkey|]. split; [exact before_global_reachable|].
  split; [exact Hpc|].
  exact (proj2 (global_commands_find_the_merged_map before_global Hkey
                  before_global_reachable) "optvi" [] Hpc).
Defined.

(** Nothing to save before the first merge; afterwards the merged map is
    saved to the folder of the flag. *)
Lemma saveMap_needs_a_merged_map_witness :
  ends_with_digit kMergedMapKey = false ∧
  reachable ready_to_merge ∧ nothing_merged ready_to_merge ∧
  saveMap ready_to_merge = false ∧
  map_manager_ after_merge !! kMergedMapKey = Some two_missions ∧
  saveMap after_merge
    = saveMapToFolder two_missions FLAGS_maplab_server_merged_map_folder.
Proof.
  assert (ends_with_digit kMergedMapKey = false) as Hkey
    by (vm_compute; reflexivity).
  assert (map_manager_ after_merge !! kMergedMapKey = Some two_missions)
    as Hmap by (vm_compute; reflexivity).
  split; [exact Hkey|]. split; [exact ready_to_merge_reachable|].
  split; [exact ready_to_merge_nothing_merged|]. split.
  - exact (proj1 (proj1 (proj2 (saveMap_needs_a_merged_map ready_to_merge))
                    Hkey ready_to_merge_reachable
                    ready_to_merge_nothing_merged)).
  - split; [exact Hmap|].
    exact (proj2 (proj2 (proj2 (saveMap_needs_a_merged_map after_merge))
                    two_missions Hmap) eq_refl).
Defined.

(** The job of the one submap runs alone to its return; with no map at the
    path it aborts the process. *)
Lemma job_left_alone_returns_witness :
  reachable one_submitted ∧
  job (first_struct one_submitted) = JQueued ∧
  (∃ s' t',
     run (job_alone (arrival (first_struct one_submitted))) one_submitted
       = Ret s' ∧
     submap_processing_queue_ s' !! 0%nat = Some t' ∧
     arrival t' = arrival (first_struct one_submitted) ∧
     job t' = JReturned ∧
     is_loaded t' = true ∧ is_processed t' = true ∧ mutex t' = false ∧
     is_Some (map_manager_ s' !! map_key (first_struct one_submitted)) ∧
     popped s' = popped one_submitted) ∧
  run (job_alone (arrival (first_struct missing_submitted))) missing_submitted
    = Fatal.
Proof.
  assert (map_on_disk (path (first_struct one_submitted))
            = Some (submap_with_mission 7)) as Hdisk
    by (vm_compute; reflexivity).
  assert (map_on_disk (path (first_struct missing_submitted)) = None)
    as Hmissing by (vm_compute; reflexivity).
  pose proof (job_left_alone_returns one_submitted 0
                (first_struct one_submitted) one_submitted_reachable
                ltac:(vm_compute; reflexivity) ltac:(vm_compute; reflexivity)
                ltac:(vm_compute; reflexivity) ltac:(vm_compute; reflexivity))
    as Hreturns.
  pose proof (job_left_alone_returns missing_submitted 0
                (first_struct missing_submitted) missing_submitted_reachable
                ltac:(vm_compute; reflexivity) ltac:(vm_compute; reflexivity)
                ltac:(vm_compute; reflexivity) ltac:(vm_compute; reflexivity))
    as Hfatal.
  rewrite Hdisk in Hreturns. rewrite Hmissing in Hfatal.
  split; [exact one_submitted_reachable|]. split; [vm_compute; reflexivity|].
  split; [exact Hreturns|exact Hfatal].
Defined.

Lemma busy_flag_tracks_merging_thread_witness :
  reachable before_global ∧
  in_loop_body (submap_merging_thread_ before_global) = true ∧
  merging_thread_busy_ before_global
    = in_loop_body (submap_merging_thread_ before_global).
Proof.
  split; [exact before_global_reachable|]. split; [vm_compute; reflexivity|].
  exact (busy_flag_tracks_merging_thread before_global
           before_global_reachable).
Defined.

Lemma popped_structs_are_left_alone_witness :
  let t := default merged_and_locked (popped after_merge !! 0%nat) in
  reachable after_merge ∧ t ∈ popped after_merge ∧
  job t = JReturned ∧ mutex t = false ∧
  run_job (arrival t) (submap_processing_queue_ after_merge) after_merge
    = Blocked.
Proof.
  intros t.
  assert (t ∈ popped after_merge) as Hin.
  { apply (list_elem_of_lookup_2 _ 0%nat). vm_compute. reflexivity. }
  split; [exact after_merge_reachable|]. split; [exact Hin|].
  exact (popped_structs_are_left_alone after_merge t after_merge_reachable
           Hin).
Defined.

(** The merging thread sleeps while the job of the one submap has taken the
    mutex and not loaded the map, and enters its loop body when the map is
    loaded, before [is_loaded] is set. *)
Lemma merging_thread_idles_until_first_load_witness :
  ends_with_digit kMergedMapKey = false ∧
  reachable about_to_load ∧ reachable just_loaded ∧
  job (first_struct about_to_load) = JLoading ∧
  is_loaded (first_struct just_loaded) = false ∧
  step EMerger about_to_load = Ret about_to_load ∧
  step EMerger just_loaded
    = Ret (with_merger MDraining true (current_merge_command_ just_loaded)
                       just_loaded).
Proof.
  assert (ends_with_digit kMergedMapKey = false) as Hkey
    by (vm_compute; reflexivity).
  assert (reachable about_to_load) as Hreach
    by (apply state_after_reachable; vm_compute; reflexivity).
  assert (reachable just_loaded) as Hreach'
    by (apply state_after_reachable; vm_compute; reflexivity).
  split; [exact Hkey|]. split; [exact Hreach|]. split; [exact Hreach'|].
  split; [vm_compute; reflexivity|]. split; [vm_compute; reflexivity|]. split.
  - apply (proj1 (merging_thread_idles_until_first_load about_to_load Hkey
                    Hreach ltac:(vm_compute; reflexivity)
                    ltac:(vm_compute; reflexivity))).
    replace (all_submaps about_to_load) with [first_struct about_to_load]
      by (vm_compute; reflexivity).
    apply Forall_singleton. vm_compute. reflexivity.
  - apply (proj2 (merging_thread_idles_until_first_load just_loaded Hkey
                    Hreach' ltac:(vm_compute; reflexivity)
                    ltac:(vm_compute; reflexivity))
             (first_struct just_loaded)).
    + unfold all_submaps. apply elem_of_app. right.
      apply (list_elem_of_lookup_2 _ 0%nat). vm_compute. reflexivity.
    + vm_compute. reflexivity.
Defined.
